(** * memgraph: framing codec, remote pull server, configuration and Bolt glue

    A shallow embedding of
      - [src/slk/streams.cpp]                        (module [slk]),
      - [src/distributed/remote_produce_rpc_server.cpp] (module [distributed]),
      - [src/database/single_node/config.cpp]        (module [config]),
      - [src/glue/communication.cpp]                 (module [glue]),
    with the properties of the specification proved (or refuted) on it. *)

From stdpp Require Import gmap strings list fin_maps.
From Stdlib Require Import ZArith Lia.
From Stdlib.Strings Require Import Byte.

Local Open Scope Z_scope.

(** ** Results of fallible code

    C++ exceptions and failed assertions become explicit results. *)

Inductive result (E A : Type) : Type :=
  | Ok (a : A)
  | Err (e : E).
Arguments Ok {E A} a.
Arguments Err {E A} e.

#[global] Instance result_ret {E} : MRet (result E) := fun _ a => Ok a.
#[global] Instance result_bind {E} : MBind (result E) :=
  fun _ _ f m => match m with Ok a => f a | Err e => Err e end.

(** ** Machine integers: [size_t]/[uint64_t] and [uint32_t] arithmetic *)

Definition wrap64 (z : Z) : Z := z mod 2 ^ 64.
Definition wrap32 (z : Z) : Z := z mod 2 ^ 32.

Lemma wrap64_small z : 0 <= z < 2 ^ 64 -> wrap64 z = z.
Proof. intros. unfold wrap64. apply Z.mod_small; lia. Qed.

Lemma wrap32_small z : 0 <= z < 2 ^ 32 -> wrap32 z = z.
Proof. intros. unfold wrap32. apply Z.mod_small; lia. Qed.

(** [len l] is the [size_t] length of a buffer. *)
Definition len {A} (l : list A) : Z := Z.of_nat (length l).

(** [slice data off n] are the [n] bytes at [data + off] (what [memcpy] reads). *)
Definition slice {A} (data : list A) (off n : Z) : list A :=
  take (Z.to_nat n) (drop (Z.to_nat off) data).

Lemma len_app {A} (a b : list A) : len (a ++ b) = len a + len b.
Proof. unfold len. rewrite length_app. lia. Qed.

Lemma len_nonneg {A} (l : list A) : 0 <= len l.
Proof. unfold len. lia. Qed.

Lemma len_nil_iff {A} (l : list A) : len l = 0 <-> l = [].
Proof. unfold len. destruct l; simpl; split; intros; (done || lia). Qed.

Lemma slice_0 {A} (l : list A) n : slice l 0 n = take (Z.to_nat n) l.
Proof. reflexivity. Qed.

Lemma slice_app_len {A} (pre l : list A) n :
  slice (pre ++ l) (len pre) n = take (Z.to_nat n) l.
Proof.
  unfold slice, len. rewrite Nat2Z.id. by rewrite drop_app_length.
Qed.

Lemma take_len {A} (l : list A) : take (Z.to_nat (len l)) l = l.
Proof. unfold len. rewrite Nat2Z.id. apply firstn_all. Qed.

Lemma take_len_app {A} (l k : list A) : take (Z.to_nat (len l)) (l ++ k) = l.
Proof. unfold len. rewrite Nat2Z.id. apply take_app_length. Qed.

Lemma drop_len_app {A} (l k : list A) : drop (Z.to_nat (len l)) (l ++ k) = k.
Proof. unfold len. rewrite Nat2Z.id. apply drop_app_length. Qed.

Lemma take_plus {A} (l : list A) (a b : nat) :
  take (a + b) l = take a l ++ take b (drop a l).
Proof.
  revert l. induction a as [|a IH]; intros [|x l]; simpl; try done.
  - by rewrite take_nil.
  - by rewrite IH.
Qed.

Lemma len_take {A} (l : list A) n :
  0 <= n <= len l -> len (take (Z.to_nat n) l) = n.
Proof. unfold len. intros. rewrite length_take. lia. Qed.

Lemma len_drop {A} (l : list A) n :
  0 <= n <= len l -> len (drop (Z.to_nat n) l) = len l - n.
Proof. unfold len. intros. rewrite length_drop. lia. Qed.

Module slk.

(** [using SegmentSize = uint32_t], so [sizeof(SegmentSize)] is 4. *)
Definition sizeof_SegmentSize : Z := 4.

Definition byte_of_Z (z : Z) : byte :=
  default x00 (Byte.of_N (Z.to_N (z mod 256))).
Definition Z_of_byte (b : byte) : Z := Z.of_N (Byte.to_N b).

(** [memcpy(dst, &size, sizeof(SegmentSize))] on a little-endian host. *)
Definition store_SegmentSize (v : Z) : list byte :=
  [byte_of_Z v; byte_of_Z (v ≫ 8); byte_of_Z (v ≫ 16); byte_of_Z (v ≫ 24)].

(** [memcpy(&len, src, sizeof(SegmentSize))] on a little-endian host; the
    callers check that the four bytes exist before they read them. *)
Definition load_SegmentSize (src : list byte) : Z :=
  match src with
  | b0 :: b1 :: b2 :: b3 :: _ =>
      Z.lor (Z_of_byte b0)
        (Z.lor (Z_of_byte b1 ≪ 8)
           (Z.lor (Z_of_byte b2 ≪ 16) (Z_of_byte b3 ≪ 24)))
  | _ => 0
  end.

(** *** Builder *)

(** [write_func_(data, size, have_more)] is a callback; the model logs every
    call. *)
Record Write := mkWrite { w_data : list byte; w_have_more : bool }.

(** [segment_] holds the payload area of the segment buffer, i.e. the bytes at
    [segment_ + sizeof(SegmentSize)]; only the first [pos_] of them are
    meaningful. *)
Record Builder := mkBuilder {
  b_segment_ : list byte;
  b_pos_ : Z;
  b_written : list Write
}.

Inductive BuilderFault :=
  | AssertionFailed   (* MG_ASSERT aborts the process *)
  | BuilderOutOfFuel. (* the loop did not finish within the fuel *)

Definition Builder_new : Builder :=
  {| b_segment_ := []; b_pos_ := 0; b_written := [] |}.

(** All the bytes handed to [write_func_], in order. *)
Definition Builder_output (b : Builder) : list byte :=
  concat (map w_data (b_written b)).

(** *** Reader *)

Record Reader := mkReader {
  r_data_ : list byte;
  r_size_ : Z;
  r_pos_ : Z;
  r_have_ : Z
}.

Inductive SlkReaderException :=
  | LeftoverData        (* "There is still leftover data in the SLK stream!" *)
  | SizeDataMissing     (* "Size data missing in SLK stream!" *)
  | NonEmptyFinal       (* "Got a non-empty SLK segment when expecting the final segment!" *)
  | EmptyNonFinal       (* "Got an empty SLK segment when expecting a non-empty segment!" *)
  | NotEnoughData       (* "There isn't enough data in the SLK stream!" *)
  | ReaderOutOfFuel.    (* the loop did not finish within the fuel *)

(** [Reader::Reader(data, size)] with [size] the size of [data]. *)
Definition Reader_new (data : list byte) : Reader :=
  {| r_data_ := data; r_size_ := len data; r_pos_ := 0; r_have_ := 0 |}.

(** [Reader::GetSegment(bool should_be_final = false)].  An exception ends
    the use of the reader, so a raised result carries no reader. *)
Definition GetSegment (should_be_final : bool) (r : Reader)
  : result SlkReaderException Reader :=
  if negb (r_have_ r =? 0) then
    if should_be_final then Err LeftoverData else Ok r
  else if wrap64 (r_pos_ r + sizeof_SegmentSize) >? r_size_ r then
    Err SizeDataMissing
  else
    let len := load_SegmentSize (drop (Z.to_nat (r_pos_ r)) (r_data_ r)) in
    if should_be_final && negb (len =? 0) then Err NonEmptyFinal
    else if negb should_be_final && (len =? 0) then Err EmptyNonFinal
    else
      let pos := wrap64 (r_pos_ r + sizeof_SegmentSize) in
      if wrap64 (pos + len) >? r_size_ r then Err NotEnoughData
      else Ok {| r_data_ := r_data_ r; r_size_ := r_size_ r;
                 r_pos_ := pos; r_have_ := len |}.

(** The loop of [Reader::Load]; [out] is what has been copied to the
    destination so far, [size] what is still to be read. *)
Fixpoint Load_loop (fuel : nat) (r : Reader) (out : list byte) (size : Z)
  : result SlkReaderException (Reader * list byte) :=
  if size >? 0 then
    match fuel with
    | O => Err ReaderOutOfFuel
    | S fuel' =>
        r1 ← GetSegment false r;
        let to_read := if size >? r_have_ r1 then r_have_ r1 else size in
        let out' := out ++ slice (r_data_ r1) (r_pos_ r1) to_read in
        let r2 := {| r_data_ := r_data_ r1; r_size_ := r_size_ r1;
                     r_pos_ := wrap64 (r_pos_ r1 + to_read);
                     r_have_ := wrap64 (r_have_ r1 - to_read) |} in
        Load_loop fuel' r2 out' (wrap64 (size - to_read))
    end
  else Ok (r, out).

(** [Reader::Load(data, size)]: returns the reader and the [size] bytes
    copied to [data].  Every iteration copies at least one byte, so [size]
    iterations are enough. *)
Definition Load (r : Reader) (size : Z)
  : result SlkReaderException (Reader * list byte) :=
  Load_loop (Z.to_nat size) r [] size.

(** [Reader::Finalize()]. *)
Definition Reader_Finalize (r : Reader) : result SlkReaderException Reader :=
  GetSegment true r.

(** A sequence of [Load] calls, one per requested size; the result collects
    what the calls copied, in order. *)
Fixpoint LoadAll (r : Reader) (sizes : list Z)
  : result SlkReaderException (Reader * list byte) :=
  match sizes with
  | [] => Ok (r, [])
  | n :: ns =>
      '(r1, out1) ← Load r n;
      '(r2, out2) ← LoadAll r1 ns;
      Ok (r2, out1 ++ out2)
  end.

(** *** The stream-complete check *)

(** [StreamStatus] and [StreamInfo] are declared in [slk/streams.hpp]; the
    fields are in the order in which [CheckStreamComplete] fills them. *)
Inductive StreamStatus := PARTIAL | COMPLETE | INVALID.

Record StreamInfo := mkStreamInfo {
  status : StreamStatus;
  stream_size : Z;
  encoded_data_size : Z
}.

Section WithSegmentSizes.

(** [kSegmentMaxDataSize] and [kSegmentMaxTotalSize] are declared in
    [slk/streams.hpp], which is not part of the sources at hand; they are
    parameters of the model. *)
Variable kSegmentMaxDataSize : Z.
Variable kSegmentMaxTotalSize : Z.

(** [Builder::FlushSegment(bool final_segment)]. *)
Definition FlushSegment (final_segment : bool) (b : Builder)
  : result BuilderFault Builder :=
  if negb final_segment && (b_pos_ b <? kSegmentMaxDataSize) then Ok b
  else if negb (b_pos_ b >? 0) then Err AssertionFailed
  else
    let total_size := wrap64 (sizeof_SegmentSize + b_pos_ b) in
    let size := wrap32 (b_pos_ b) in
    let segment := store_SegmentSize size ++ slice (b_segment_ b) 0 (b_pos_ b) in
    let segment := if final_segment then segment ++ store_SegmentSize 0
                   else segment in
    let total_size := if final_segment
                      then wrap64 (total_size + sizeof_SegmentSize)
                      else total_size in
    Ok {| b_segment_ := b_segment_ b;
          b_pos_ := 0;
          b_written := b_written b
                         ++ [mkWrite (take (Z.to_nat total_size) segment)
                                     (negb final_segment)] |}.

(** The loop of [Builder::Save]: [data + offset] is the next byte to copy,
    [size] the number of bytes still to copy. *)
Fixpoint Save_loop (fuel : nat) (b : Builder) (data : list byte)
    (offset size : Z) : result BuilderFault Builder :=
  if size >? 0 then
    match fuel with
    | O => Err BuilderOutOfFuel
    | S fuel' =>
        b1 ← FlushSegment false b;
        let room := wrap64 (kSegmentMaxDataSize - b_pos_ b1) in
        let to_write := if size >? room then room else size in
        let b2 := {| b_segment_ := slice (b_segment_ b1) 0 (b_pos_ b1)
                                     ++ slice data offset to_write;
                     b_pos_ := wrap64 (b_pos_ b1 + to_write);
                     b_written := b_written b1 |} in
        Save_loop fuel' b2 data (wrap64 (offset + to_write))
          (wrap64 (size - to_write))
    end
  else Ok b.

(** [Builder::Save(data, size)] with [size] the size of [data].  Every
    iteration copies at least one byte, so [size] iterations are enough. *)
Definition Save (b : Builder) (data : list byte) : result BuilderFault Builder :=
  Save_loop (length data) b data 0 (len data).

(** [Builder::Finalize()]. *)
Definition Builder_Finalize (b : Builder) : result BuilderFault Builder :=
  FlushSegment true b.

(** Saving a sequence of pieces, one [Save] call per piece. *)
Fixpoint SaveAll (b : Builder) (pieces : list (list byte))
  : result BuilderFault Builder :=
  match pieces with
  | [] => Ok b
  | p :: ps => b' ← Save b p; SaveAll b' ps
  end.

(** The loop of [CheckStreamComplete]; [None] when the fuel runs out. *)
Fixpoint CheckStreamComplete_loop (fuel : nat) (data : list byte) (size : Z)
    (found_segments data_size pos : Z) : option StreamInfo :=
  match fuel with
  | O => None
  | S fuel' =>
      if wrap64 (pos + sizeof_SegmentSize) >? size then
        Some (mkStreamInfo PARTIAL (wrap64 (pos + kSegmentMaxTotalSize)) data_size)
      else
        let len := load_SegmentSize (drop (Z.to_nat pos) data) in
        let pos := wrap64 (pos + sizeof_SegmentSize) in
        if len =? 0 then
          if found_segments <? 1 then Some (mkStreamInfo INVALID 0 0)
          else Some (mkStreamInfo COMPLETE pos data_size)
        else if wrap64 (pos + len) >? size then
          Some (mkStreamInfo PARTIAL (wrap64 (pos + kSegmentMaxTotalSize)) data_size)
        else
          CheckStreamComplete_loop fuel' data size
            (wrap64 (found_segments + 1)) (wrap64 (data_size + len))
            (wrap64 (pos + len))
  end.

(** [CheckStreamComplete(data, size)] with [size] the size of [data].  Every
    iteration that continues moves [pos] forward by more than four bytes. *)
Definition CheckStreamComplete (data : list byte) : option StreamInfo :=
  CheckStreamComplete_loop (S (length data)) data (len data) 0 0 0.

(** *** Byte-level facts *)

Lemma Z_of_byte_range b : 0 <= Z_of_byte b < 256.
Proof.
  unfold Z_of_byte. pose proof (Byte.to_N_bounded b). lia.
Qed.

Lemma Z_of_byte_of_Z z : Z_of_byte (byte_of_Z z) = z mod 256.
Proof.
  unfold Z_of_byte, byte_of_Z.
  assert (Hr : 0 <= z mod 256 < 256) by (apply Z.mod_pos_bound; lia).
  destruct (Byte.of_N (Z.to_N (z mod 256))) as [b|] eqn:E.
  - apply Byte.to_of_N in E. simpl. rewrite E. lia.
  - apply Byte.of_N_None_iff in E. lia.
Qed.

Lemma lor_disjoint_add a c n :
  0 <= n -> 0 <= a < 2 ^ n -> 0 <= c -> Z.lor a (c * 2 ^ n) = a + c * 2 ^ n.
Proof.
  intros Hn Ha Hc.
  rewrite <- Z.shiftl_mul_pow2 by lia.
  assert (Hland : Z.land a (c ≪ n) = 0).
  { apply Z.bits_inj'. intros m Hm.
    rewrite Z.land_spec, Z.bits_0.
    destruct (Z.lt_ge_cases m n) as [Hlt|Hge].
    - rewrite (Z.shiftl_spec_low c n m) by lia. apply andb_false_r.
    - assert (Z.testbit a m = false) as ->; [|done].
      destruct (Z.eq_dec a 0) as [->|Hne]; [apply Z.bits_0|].
      apply Z.bits_above_log2; [lia|].
      assert (Z.log2 a < n) by (apply Z.log2_lt_pow2; lia). lia. }
  rewrite <- Z.lxor_lor by done.
  symmetry. apply Z.add_nocarry_lxor. done.
Qed.

Lemma load_SegmentSize_sum b0 b1 b2 b3 rest :
  load_SegmentSize (b0 :: b1 :: b2 :: b3 :: rest) =
  Z_of_byte b0 + 2 ^ 8 * Z_of_byte b1 + 2 ^ 16 * Z_of_byte b2
    + 2 ^ 24 * Z_of_byte b3.
Proof.
  pose proof (Z_of_byte_range b0). pose proof (Z_of_byte_range b1).
  pose proof (Z_of_byte_range b2). pose proof (Z_of_byte_range b3).
  unfold load_SegmentSize.
  rewrite !Z.shiftl_mul_pow2 by lia.
  rewrite (lor_disjoint_add (Z_of_byte b2 * 2 ^ 16) (Z_of_byte b3) 24) by lia.
  replace (Z_of_byte b2 * 2 ^ 16 + Z_of_byte b3 * 2 ^ 24)
    with ((Z_of_byte b2 + Z_of_byte b3 * 2 ^ 8) * 2 ^ 16) by lia.
  rewrite (lor_disjoint_add (Z_of_byte b1 * 2 ^ 8) _ 16) by lia.
  replace (Z_of_byte b1 * 2 ^ 8 + (Z_of_byte b2 + Z_of_byte b3 * 2 ^ 8) * 2 ^ 16)
    with ((Z_of_byte b1 + Z_of_byte b2 * 2 ^ 8 + Z_of_byte b3 * 2 ^ 16) * 2 ^ 8)
    by lia.
  rewrite (lor_disjoint_add (Z_of_byte b0) _ 8) by lia.
  lia.
Qed.

Lemma load_SegmentSize_range src : 0 <= load_SegmentSize src < 2 ^ 32.
Proof.
  destruct src as [|b0 [|b1 [|b2 [|b3 rest]]]]; try (simpl; lia).
  rewrite load_SegmentSize_sum.
  pose proof (Z_of_byte_range b0). pose proof (Z_of_byte_range b1).
  pose proof (Z_of_byte_range b2). pose proof (Z_of_byte_range b3). lia.
Qed.

Lemma load_store_SegmentSize v rest :
  0 <= v < 2 ^ 32 -> load_SegmentSize (store_SegmentSize v ++ rest) = v.
Proof.
  intros Hv. unfold store_SegmentSize. cbn [app].
  rewrite load_SegmentSize_sum, !Z_of_byte_of_Z.
  rewrite !Z.shiftr_div_pow2 by lia.
  change (2 ^ 8) with 256. change (2 ^ 16) with 65536.
  change (2 ^ 24) with 16777216. change (2 ^ 32) with 4294967296 in Hv.
  Z.div_mod_to_equations. lia.
Qed.

Lemma byte_of_Z_of_byte b : byte_of_Z (Z_of_byte b) = b.
Proof.
  pose proof (Z_of_byte_range b) as Hr. unfold byte_of_Z.
  rewrite Z.mod_small by lia. unfold Z_of_byte. rewrite N2Z.id.
  by rewrite Byte.of_to_N.
Qed.

Lemma byte_of_Z_mod z b : z mod 256 = Z_of_byte b -> byte_of_Z z = b.
Proof.
  intros H. rewrite <- (byte_of_Z_of_byte b), <- H. unfold byte_of_Z.
  by rewrite Z.mod_mod by lia.
Qed.

Lemma store_load_SegmentSize b0 b1 b2 b3 rest :
  store_SegmentSize (load_SegmentSize (b0 :: b1 :: b2 :: b3 :: rest))
  = [b0; b1; b2; b3].
Proof.
  rewrite load_SegmentSize_sum.
  pose proof (Z_of_byte_range b0). pose proof (Z_of_byte_range b1).
  pose proof (Z_of_byte_range b2). pose proof (Z_of_byte_range b3).
  unfold store_SegmentSize.
  change (2 ^ 8) with 256. change (2 ^ 16) with 65536.
  change (2 ^ 24) with 16777216.
  repeat f_equal; apply byte_of_Z_mod; rewrite ?Z.shiftr_div_pow2 by lia;
    change (2 ^ 8) with 256; change (2 ^ 16) with 65536;
    change (2 ^ 24) with 16777216; Z.div_mod_to_equations; lia.
Qed.

Lemma length_store_SegmentSize v : length (store_SegmentSize v) = 4%nat.
Proof. reflexivity. Qed.

(** *** Streams, as the specification describes them

    A stream is a sequence of segments followed by a zero-length terminator;
    a segment is its size as four little-endian bytes followed by its
    payload. *)

Definition encode_segment (payload : list byte) : list byte :=
  store_SegmentSize (len payload) ++ payload.

Definition encode_segments (segs : list (list byte)) : list byte :=
  concat (map encode_segment segs).

Definition terminator : list byte := store_SegmentSize 0.

Definition stream_of (segs : list (list byte)) : list byte :=
  encode_segments segs ++ terminator.

Lemma encode_segments_app s1 s2 :
  encode_segments (s1 ++ s2) = encode_segments s1 ++ encode_segments s2.
Proof. unfold encode_segments. by rewrite map_app, concat_app. Qed.

Lemma encode_segments_cons s segs :
  encode_segments (s :: segs) = encode_segment s ++ encode_segments segs.
Proof. reflexivity. Qed.

Lemma encode_segments_singleton s : encode_segments [s] = encode_segment s.
Proof. unfold encode_segments. cbn [map concat]. apply app_nil_r. Qed.

Lemma len_encode_segment s : len (encode_segment s) = 4 + len s.
Proof. unfold encode_segment. rewrite len_app. reflexivity. Qed.

Lemma len_terminator : len terminator = 4.
Proof. reflexivity. Qed.

Lemma len_encode_segments segs :
  len (encode_segments segs) = 4 * len segs + len (concat segs).
Proof.
  induction segs as [|s segs IH]; [done|].
  rewrite encode_segments_cons. cbn [concat].
  rewrite !len_app, len_encode_segment, IH.
  unfold len. cbn [length]. lia.
Qed.

Lemma len_stream_of segs :
  len (stream_of segs) = 4 * len segs + len (concat segs) + 4.
Proof.
  unfold stream_of. by rewrite len_app, len_encode_segments, len_terminator.
Qed.

(** *** The builder produces well-formed streams *)

Hypothesis kSegmentMaxDataSize_range : 0 < kSegmentMaxDataSize < 2 ^ 32.

(** The payload bytes buffered and not yet flushed. *)
Definition pending (b : Builder) : list byte :=
  slice (b_segment_ b) 0 (b_pos_ b).

(** What holds of a builder between calls: [segs] are the payloads of the
    segments written so far. *)
Record builder_inv (b : Builder) (segs : list (list byte)) : Prop := {
  inv_pos : 0 <= b_pos_ b <= kSegmentMaxDataSize;
  inv_buf : b_pos_ b <= len (b_segment_ b);
  inv_out : Builder_output b = encode_segments segs;
  inv_full : Forall (fun s => len s = kSegmentMaxDataSize) segs;
  inv_more : Forall (fun w => w_have_more w = true) (b_written b)
}.

Lemma builder_inv_new : builder_inv Builder_new [].
Proof. split; simpl; (lia || done || constructor). Qed.

Lemma len_pending b segs : builder_inv b segs -> len (pending b) = b_pos_ b.
Proof.
  intros [Hpos Hbuf _ _ _]. unfold pending. rewrite slice_0.
  apply len_take. lia.
Qed.

Lemma Builder_output_snoc b w :
  concat (map w_data (b_written b ++ [w])) = Builder_output b ++ w_data w.
Proof.
  unfold Builder_output. rewrite map_app, concat_app. simpl.
  by rewrite app_nil_r.
Qed.

Lemma FlushSegment_false_ok b segs :
  builder_inv b segs ->
  exists b1 segs1,
    FlushSegment false b = Ok b1 /\ builder_inv b1 segs1 /\
    concat segs1 ++ pending b1 = concat segs ++ pending b /\
    b_pos_ b1 < kSegmentMaxDataSize /\
    (0 < b_pos_ b -> (0 < b_pos_ b1 \/ segs1 <> [])).
Proof.
  intros Hinv. pose proof (len_pending _ _ Hinv) as Hlen.
  destruct Hinv as [Hpos Hbuf Hout Hfull Hmore].
  unfold FlushSegment. cbn [negb andb].
  destruct (b_pos_ b <? kSegmentMaxDataSize) eqn:Hlt.
  - exists b, segs. repeat split; try done; lia.
  - assert (Hp : b_pos_ b = kSegmentMaxDataSize) by lia.
    assert ((b_pos_ b >? 0) = true) as -> by lia. cbn [negb].
    eexists _, (segs ++ [pending b]). split; [reflexivity|].
    rewrite wrap32_small, wrap64_small by (unfold sizeof_SegmentSize; lia).
    fold (pending b).
    assert (Htake : take (Z.to_nat (sizeof_SegmentSize + b_pos_ b))
              (store_SegmentSize (b_pos_ b) ++ pending b)
            = encode_segment (pending b)).
    { unfold encode_segment. rewrite Hlen.
      replace (sizeof_SegmentSize + b_pos_ b)
        with (len (store_SegmentSize (b_pos_ b) ++ pending b)).
      - apply take_len.
      - rewrite len_app, Hlen. reflexivity. }
    rewrite Htake.
    split; [split; cbn [b_pos_ b_segment_ b_written]|].
    + lia.
    + apply len_nonneg.
    + unfold Builder_output at 1. cbn [b_written].
      rewrite Builder_output_snoc, Hout, encode_segments_app.
      by rewrite encode_segments_singleton.
    + apply Forall_app. split; [done|]. constructor; [lia|constructor].
    + apply Forall_app. split; [done|]. by constructor.
    + cbn [b_pos_]. split; [|split; [lia|]].
      * unfold pending at 1. cbn [b_pos_ b_segment_]. rewrite slice_0.
        simpl. rewrite concat_app. simpl. by rewrite !app_nil_r.
      * intros _. right. by destruct segs.
Qed.

Lemma Save_loop_ok fuel : forall b data offset size segs,
  builder_inv b segs ->
  0 <= offset -> 0 <= size -> offset + size = len data -> len data < 2 ^ 64 ->
  size <= Z.of_nat fuel ->
  exists b' segs',
    Save_loop fuel b data offset size = Ok b' /\ builder_inv b' segs' /\
    concat segs' ++ pending b'
      = concat segs ++ pending b ++ drop (Z.to_nat offset) data /\
    (0 < size \/ 0 < b_pos_ b -> 0 < b_pos_ b').
Proof.
  induction fuel as [|fuel IH]; intros b data offset size segs Hinv Hoff Hsz
    Hsum Hdata Hfuel.
  - assert (size = 0) as -> by lia. exists b, segs. simpl.
    split; [done|]. split; [done|]. split; [|lia].
    rewrite drop_ge by (unfold len in *; lia). by rewrite app_nil_r.
  - cbn [Save_loop]. destruct (size >? 0) eqn:Hpos; cycle 1.
    { assert (size = 0) as -> by lia. exists b, segs.
      split; [done|]. split; [done|]. split; [|lia].
      rewrite drop_ge by (unfold len in *; lia). by rewrite app_nil_r. }
    destruct (FlushSegment_false_ok b segs Hinv)
      as (b1 & segs1 & -> & Hinv1 & Hpay1 & Hroom & Hkeep).
    cbn [mbind result_bind].
    pose proof (len_pending _ _ Hinv1) as Hlen1.
    destruct Hinv1 as [Hpos1 Hbuf1 Hout1 Hfull1 Hmore1].
    rewrite (wrap64_small (kSegmentMaxDataSize - b_pos_ b1)) by lia.
    set (to_write := if size >? kSegmentMaxDataSize - b_pos_ b1
                     then kSegmentMaxDataSize - b_pos_ b1 else size).
    assert (Htw : 0 < to_write <= size /\
                  to_write <= kSegmentMaxDataSize - b_pos_ b1).
    { subst to_write.
      destruct (size >? kSegmentMaxDataSize - b_pos_ b1) eqn:E; lia. }
    rewrite !wrap64_small by lia.
    fold (pending b1).
    set (chunk := slice data offset to_write).
    assert (Hchunk : len chunk = to_write).
    { subst chunk. unfold slice. rewrite len_take; [done|].
      rewrite len_drop by lia. lia. }
    match goal with |- context [Save_loop fuel ?b2 _ _ _] => set (b2' := b2) end.
    assert (Hpend2 : pending b2' = pending b1 ++ chunk).
    { unfold pending, b2'. cbn [b_segment_ b_pos_]. rewrite slice_0.
      fold (pending b1).
      replace (b_pos_ b1 + to_write) with (len (pending b1 ++ chunk))
        by (rewrite len_app; lia).
      apply take_len. }
    assert (Hinv2 : builder_inv b2' segs1).
    { split; unfold b2'; cbn [b_segment_ b_pos_ b_written]; try done.
      - lia.
      - fold (pending b1). rewrite len_app. lia. }
    destruct (IH b2' data (offset + to_write) (size - to_write) segs1 Hinv2)
      as (b' & segs' & Hrun & Hinv' & Hpay' & Hpos'); try lia.
    exists b', segs'. split; [done|]. split; [done|]. split.
    + rewrite Hpay', Hpend2.
      rewrite <- (app_assoc (pending b1)).
      rewrite (app_assoc (concat segs1)), Hpay1, <- !app_assoc.
      do 2 f_equal. subst chunk. unfold slice.
      replace (Z.to_nat (offset + to_write))
        with (Z.to_nat offset + Z.to_nat to_write)%nat by lia.
      rewrite <- drop_drop. apply take_drop.
    + intros _. apply Hpos'. right. unfold b2'. cbn [b_pos_]. lia.
Qed.

Lemma Save_ok b data segs :
  builder_inv b segs -> len data < 2 ^ 64 ->
  exists b' segs',
    Save b data = Ok b' /\ builder_inv b' segs' /\
    concat segs' ++ pending b' = concat segs ++ pending b ++ data /\
    (data <> [] \/ 0 < b_pos_ b -> 0 < b_pos_ b').
Proof.
  intros Hinv Hdata.
  destruct (Save_loop_ok (length data) b data 0 (len data) segs Hinv)
    as (b' & segs' & Hrun & Hinv' & Hpay & Hpos);
    try (pose proof (len_nonneg data); unfold len in *; lia).
  exists b', segs'. split; [done|]. split; [done|]. split; [done|].
  intros [Hne|Hp]; apply Hpos; [left|by right].
  destruct data; [done|]. unfold len. simpl. lia.
Qed.

Lemma SaveAll_ok pieces : forall b segs,
  builder_inv b segs -> Forall (fun p => len p < 2 ^ 64) pieces ->
  exists b' segs',
    SaveAll b pieces = Ok b' /\ builder_inv b' segs' /\
    concat segs' ++ pending b' = concat segs ++ pending b ++ concat pieces /\
    (concat pieces <> [] \/ 0 < b_pos_ b -> 0 < b_pos_ b').
Proof.
  induction pieces as [|p ps IH]; intros b segs Hinv Hlen.
  - exists b, segs. simpl. rewrite app_nil_r.
    split; [done|]. split; [done|]. split; [done|]. by intros [?|?].
  - apply Forall_cons in Hlen as [Hp Hps].
    destruct (Save_ok b p segs Hinv Hp) as (b1 & segs1 & Hrun & Hinv1 & Hpay1 & Hpos1).
    destruct (IH b1 segs1 Hinv1 Hps) as (b' & segs' & Hrun' & Hinv' & Hpay' & Hpos').
    exists b', segs'. cbn [SaveAll]. rewrite Hrun. cbn [mbind result_bind].
    split; [done|]. split; [done|]. split.
    + rewrite Hpay'. simpl. rewrite (app_assoc (concat segs1)), Hpay1.
      by rewrite <- !app_assoc.
    + simpl. intros H. apply Hpos'.
      destruct (decide (concat ps = [])) as [Hnil|Hne]; [|by left].
      right. apply Hpos1. rewrite Hnil, app_nil_r in H.
      destruct H; [by left|by right].
Qed.

Lemma Builder_Finalize_ok b segs :
  builder_inv b segs -> 0 < b_pos_ b ->
  exists b',
    Builder_Finalize b = Ok b' /\
    Builder_output b' = stream_of (segs ++ [pending b]) /\
    b_pos_ b' = 0 /\
    exists w, b_written b' = b_written b ++ [w] /\ w_have_more w = false.
Proof.
  intros Hinv Hp. pose proof (len_pending _ _ Hinv) as Hlen.
  destruct Hinv as [Hpos Hbuf Hout Hfull Hmore].
  unfold Builder_Finalize, FlushSegment. cbn [negb andb].
  assert ((b_pos_ b >? 0) = true) as -> by lia. cbn [negb].
  eexists. split; [reflexivity|].
  rewrite wrap32_small by lia.
  rewrite !wrap64_small by (rewrite ?wrap64_small; unfold sizeof_SegmentSize; lia).
  fold (pending b).
  assert (Htake : take (Z.to_nat (sizeof_SegmentSize + b_pos_ b + sizeof_SegmentSize))
            ((store_SegmentSize (b_pos_ b) ++ pending b) ++ store_SegmentSize 0)
          = encode_segment (pending b) ++ terminator).
  { unfold encode_segment, terminator. rewrite Hlen.
    replace (sizeof_SegmentSize + b_pos_ b + sizeof_SegmentSize)
      with (len ((store_SegmentSize (b_pos_ b) ++ pending b) ++ store_SegmentSize 0)).
    - apply take_len.
    - rewrite !len_app, Hlen. reflexivity. }
  rewrite Htake. cbn [b_pos_ b_written].
  split; [|split; [done|by eexists]].
  unfold Builder_output at 1. cbn [b_written].
  rewrite Builder_output_snoc, Hout. unfold stream_of.
  cbn [w_data]. rewrite encode_segments_app, encode_segments_singleton.
  by rewrite <- !app_assoc.
Qed.

(** Saving the pieces of a non-empty payload and finalizing writes a
    well-formed stream whose segments carry that payload. *)
Lemma Builder_stream pieces :
  concat pieces <> [] -> Forall (fun p => len p < 2 ^ 64) pieces ->
  exists b b' segs,
    SaveAll Builder_new pieces = Ok b /\ Builder_Finalize b = Ok b' /\
    Builder_output b' = stream_of segs /\
    concat segs = concat pieces /\ segs <> [] /\
    Forall (fun s => 1 <= len s <= kSegmentMaxDataSize) segs.
Proof.
  intros Hne Hlen.
  destruct (SaveAll_ok pieces Builder_new [] builder_inv_new Hlen)
    as (b & segs & Hrun & Hinv & Hpay & Hpos).
  assert (Hp : 0 < b_pos_ b) by (apply Hpos; by left).
  destruct (Builder_Finalize_ok b segs Hinv Hp) as (b' & Hfin & Hout & _).
  exists b, b', (segs ++ [pending b]).
  split; [done|]. split; [done|]. split; [done|].
  pose proof (len_pending _ _ Hinv) as Hlenp.
  destruct Hinv as [Hrange _ _ Hfull _].
  split; [|split].
  - rewrite concat_app. simpl. rewrite app_nil_r. rewrite Hpay. reflexivity.
  - by destruct segs.
  - apply Forall_app. split.
    + eapply Forall_impl; [exact Hfull|]. simpl. intros s Hs. lia.
    + constructor; [lia|constructor].
Qed.

End WithSegmentSizes.

(** *** The reader on well-formed streams *)

(** A payload that fits a [SegmentSize] header and is not the terminator. *)
Definition segment_ok (s : list byte) : Prop := 1 <= len s < 2 ^ 32.

(** The reader has consumed [pre]; [cur] is what is left of the current
    segment, [segs] are the segments still ahead of it and [suf] follows the
    terminator. *)
Definition reader_at (r : Reader) (pre cur : list byte)
    (segs : list (list byte)) (suf : list byte) : Prop :=
  r_data_ r = pre ++ cur ++ stream_of segs ++ suf /\
  r_size_ r = len (r_data_ r) /\
  r_pos_ r = len pre /\
  r_have_ r = len cur.

Lemma reader_at_new segs suf :
  reader_at (Reader_new (stream_of segs ++ suf)) [] [] segs suf.
Proof. done. Qed.

Lemma reader_at_payload_le r pre cur segs suf :
  reader_at r pre cur segs suf -> len (cur ++ concat segs) <= len (r_data_ r).
Proof.
  intros (-> & _). rewrite !len_app, len_stream_of.
  pose proof (len_nonneg pre). pose proof (len_nonneg suf).
  pose proof (len_nonneg segs). lia.
Qed.

Lemma GetSegment_false_at r pre cur segs suf :
  reader_at r pre cur segs suf -> Forall segment_ok segs ->
  len (r_data_ r) < 2 ^ 63 -> cur ++ concat segs <> [] ->
  exists r1 pre1 cur1 segs1,
    GetSegment false r = Ok r1 /\ reader_at r1 pre1 cur1 segs1 suf /\
    cur1 <> [] /\ cur1 ++ concat segs1 = cur ++ concat segs /\
    Forall segment_ok segs1 /\ r_data_ r1 = r_data_ r.
Proof.
  intros (Hdata & Hsize & Hpos & Hhave) Hok Hbound Hne.
  unfold GetSegment.
  destruct (r_have_ r =? 0) eqn:Hz; cbn [negb].
  - (* a new segment is loaded *)
    assert (cur = []) as -> by (apply len_nil_iff; lia).
    destruct segs as [|s segs']; [done|].
    apply Forall_cons in Hok as [Hs Hok']. unfold segment_ok in Hs.
    assert (Hdata' : r_data_ r =
              pre ++ store_SegmentSize (len s) ++ s ++ stream_of segs' ++ suf).
    { rewrite Hdata. unfold stream_of. rewrite encode_segments_cons.
      unfold encode_segment. simpl. by rewrite <- !app_assoc. }
    assert (Hlen : len (r_data_ r) =
              len pre + 4 + len s + len (stream_of segs' ++ suf)).
    { rewrite Hdata', !len_app. change (len (store_SegmentSize (len s))) with 4.
      lia. }
    pose proof (len_nonneg pre). pose proof (len_nonneg (stream_of segs' ++ suf)).
    unfold sizeof_SegmentSize.
    rewrite (wrap64_small (r_pos_ r + 4)) by lia.
    assert ((r_pos_ r + 4 >? r_size_ r) = false) as -> by lia.
    assert (Hload : load_SegmentSize (drop (Z.to_nat (r_pos_ r)) (r_data_ r))
                    = len s).
    { rewrite Hpos, Hdata', drop_len_app. apply load_store_SegmentSize. lia. }
    rewrite Hload. cbn [negb andb].
    assert ((len s =? 0) = false) as -> by lia.
    rewrite wrap64_small by lia.
    assert ((r_pos_ r + 4 + len s >? r_size_ r) = false) as -> by lia.
    eexists _, (pre ++ store_SegmentSize (len s)), s, segs'.
    split; [reflexivity|]. split; [|split; [|split; [|split]]]; try done.
    + unfold reader_at. cbn [r_data_ r_size_ r_pos_ r_have_].
      rewrite len_app. change (len (store_SegmentSize (len s))) with 4.
      split; [by rewrite Hdata', <- !app_assoc|]. split; [done|]. split; [lia|done].
    + intros ->. unfold len in Hs. simpl in Hs. lia.
  - (* the current segment still has data *)
    exists r, pre, cur, segs. split; [done|]. split; [done|].
    split; [|done]. intros ->. unfold len in Hhave. simpl in Hhave. lia.
Qed.

Lemma Load_loop_at fuel : forall r out size pre cur segs suf,
  reader_at r pre cur segs suf -> Forall segment_ok segs ->
  len (r_data_ r) < 2 ^ 63 ->
  0 <= size <= len (cur ++ concat segs) -> size <= Z.of_nat fuel ->
  exists r' pre' cur' segs',
    Load_loop fuel r out size
      = Ok (r', out ++ take (Z.to_nat size) (cur ++ concat segs)) /\
    reader_at r' pre' cur' segs' suf /\
    cur' ++ concat segs' = drop (Z.to_nat size) (cur ++ concat segs) /\
    Forall segment_ok segs' /\ r_data_ r' = r_data_ r.
Proof.
  induction fuel as [|fuel IH]; intros r out size pre cur segs suf Hat Hok
    Hbound Hsize Hfuel.
  - assert (size = 0) as -> by lia. exists r, pre, cur, segs. simpl.
    by rewrite app_nil_r.
  - cbn [Load_loop]. destruct (size >? 0) eqn:Hpos; cycle 1.
    { assert (size = 0) as -> by lia. exists r, pre, cur, segs. simpl.
      by rewrite app_nil_r. }
    pose proof (reader_at_payload_le _ _ _ _ _ Hat) as Hle.
    assert (Hne : cur ++ concat segs <> []).
    { intros Hnil. rewrite Hnil in Hsize. unfold len in Hsize. simpl in Hsize. lia. }
    destruct (GetSegment_false_at r pre cur segs suf Hat Hok Hbound Hne)
      as (r1 & pre1 & cur1 & segs1 & -> & Hat1 & Hcur1 & Hpay1 & Hok1 & Hd1).
    cbn [mbind result_bind].
    destruct Hat1 as (Hdata1 & Hsize1 & Hpos1 & Hhave1).
    set (to_read := if size >? r_have_ r1 then r_have_ r1 else size).
    assert (Hlc : 0 < len cur1).
    { pose proof (len_nonneg cur1). pose proof (len_nil_iff cur1). 
      destruct (Z.eq_dec (len cur1) 0); [tauto|lia]. }
    assert (Htr : 0 < to_read <= size /\ to_read <= len cur1).
    { subst to_read. rewrite Hhave1.
      destruct (size >? len cur1) eqn:E; lia. }
    assert (Hlen1 : len (r_data_ r1) = len pre1 + len cur1
                      + len (stream_of segs1 ++ suf)).
    { rewrite Hdata1, !len_app. lia. }
    pose proof (len_nonneg pre1). pose proof (len_nonneg (stream_of segs1 ++ suf)).
    rewrite Hd1 in Hlen1.
    rewrite !wrap64_small by lia.
    assert (Hslice : slice (r_data_ r1) (r_pos_ r1) to_read
                     = take (Z.to_nat to_read) cur1).
    { rewrite Hdata1, Hpos1, slice_app_len. apply take_app_le.
      unfold len in Htr. lia. }
    rewrite Hslice.
    match goal with |- context [Load_loop fuel ?r2 _ _] => set (r2' := r2) end.
    assert (Hat2 : reader_at r2' (pre1 ++ take (Z.to_nat to_read) cur1)
                     (drop (Z.to_nat to_read) cur1) segs1 suf).
    { unfold reader_at, r2'. cbn [r_data_ r_size_ r_pos_ r_have_].
      split; [|split; [done|split]].
      - rewrite Hdata1, <- !app_assoc. f_equal.
        by rewrite (app_assoc (take _ _)), take_drop.
      - rewrite len_app, len_take by lia. lia.
      - rewrite len_drop by lia. lia. }
    assert (Hsz2 : 0 <= size - to_read
                   <= len (drop (Z.to_nat to_read) cur1 ++ concat segs1)).
    { rewrite len_app, len_drop by lia.
      rewrite <- Hpay1, len_app in Hsize. lia. }
    destruct (IH r2' (out ++ take (Z.to_nat to_read) cur1) (size - to_read)
                _ _ _ _ Hat2 Hok1) as (r' & pre' & cur' & segs' & Hrun & Hat'
                & Hpay' & Hok' & Hd');
      [unfold r2'; cbn [r_data_]; by rewrite Hd1|done|lia|].
    exists r', pre', cur', segs'. rewrite Hrun.
    assert (Hcut : drop (Z.to_nat to_read) cur1 ++ concat segs1
                   = drop (Z.to_nat to_read) (cur ++ concat segs)).
    { rewrite <- Hpay1. rewrite drop_app_le; [done|]. unfold len in Htr. lia. }
    split; [|split; [done|split; [|split; [done|]]]].
    + f_equal. f_equal. rewrite <- app_assoc. f_equal.
      rewrite Hcut.
      replace (Z.to_nat size)
        with (Z.to_nat to_read + Z.to_nat (size - to_read))%nat by lia.
      rewrite take_plus. f_equal.
      rewrite <- Hpay1. symmetry. apply take_app_le. unfold len in Htr. lia.
    + rewrite Hpay', Hcut, drop_drop. f_equal. lia.
    + rewrite Hd'. unfold r2'. cbn [r_data_]. done.
Qed.

Lemma Reader_Finalize_at r pre suf :
  reader_at r pre [] [] suf -> len (r_data_ r) < 2 ^ 63 ->
  exists r', Reader_Finalize r = Ok r'.
Proof.
  intros (Hdata & Hsize & Hpos & Hhave) Hbound.
  unfold Reader_Finalize, GetSegment.
  change (len []) with 0 in Hhave. rewrite Hhave. cbn [Z.eqb negb].
  assert (Hlen : len (r_data_ r) = len pre + 4 + len suf).
  { rewrite Hdata. cbn [app]. rewrite !len_app, len_stream_of.
    change (len []) with 0. change (concat []) with (@nil byte).
    change (len []) with 0. lia. }
  pose proof (len_nonneg pre). pose proof (len_nonneg suf).
  unfold sizeof_SegmentSize.
  rewrite (wrap64_small (r_pos_ r + 4)) by lia.
  assert ((r_pos_ r + 4 >? r_size_ r) = false) as -> by lia.
  assert (Hload : load_SegmentSize (drop (Z.to_nat (r_pos_ r)) (r_data_ r)) = 0).
  { rewrite Hpos, Hdata. cbn [app]. rewrite drop_len_app.
    unfold stream_of, terminator. cbn [encode_segments map concat app].
    apply (load_store_SegmentSize 0). lia. }
  rewrite Hload. cbn [Z.eqb negb andb].
  rewrite wrap64_small by lia.
  assert ((r_pos_ r + 4 + 0 >? r_size_ r) = false) as -> by lia.
  by eexists.
Qed.

Lemma segments_consumed cur (segs : list (list byte)) :
  Forall segment_ok segs -> cur ++ concat segs = [] -> cur = [] /\ segs = [].
Proof.
  intros Hok Hnil. apply app_eq_nil in Hnil as [-> Hnil]. split; [done|].
  destruct segs as [|s segs]; [done|].
  apply Forall_cons in Hok as [Hs _]. unfold segment_ok in Hs.
  cbn [concat] in Hnil. apply app_eq_nil in Hnil as [-> _].
  unfold len in Hs. simpl in Hs. lia.
Qed.

Definition total (sizes : list Z) : Z := foldr Z.add 0 sizes.

Lemma LoadAll_at sizes : forall r pre cur segs suf,
  reader_at r pre cur segs suf -> Forall segment_ok segs ->
  len (r_data_ r) < 2 ^ 63 ->
  Forall (fun n => 0 <= n) sizes -> total sizes <= len (cur ++ concat segs) ->
  exists r' pre' cur' segs',
    LoadAll r sizes
      = Ok (r', take (Z.to_nat (total sizes)) (cur ++ concat segs)) /\
    reader_at r' pre' cur' segs' suf /\
    cur' ++ concat segs' = drop (Z.to_nat (total sizes)) (cur ++ concat segs) /\
    Forall segment_ok segs' /\ r_data_ r' = r_data_ r.
Proof.
  induction sizes as [|n ns IH]; intros r pre cur segs suf Hat Hok Hbound
    Hnn Hsum.
  - exists r, pre, cur, segs. by cbn.
  - apply Forall_cons in Hnn as [Hn Hns]. cbn [total foldr] in *.
    fold (total ns) in *.
    assert (Htot : 0 <= total ns).
    { clear -Hns. induction Hns; cbn [total foldr]; [lia|].
      fold (total l). lia. }
    destruct (Load_loop_at (Z.to_nat n) r [] n pre cur segs suf Hat Hok Hbound)
      as (r1 & pre1 & cur1 & segs1 & Hload & Hat1 & Hrest1 & Hok1 & Hd1);
      [lia|lia|].
    destruct (IH r1 pre1 cur1 segs1 suf Hat1 Hok1) as
      (r2 & pre2 & cur2 & segs2 & Hrun & Hat2 & Hrest2 & Hok2 & Hd2).
    { by rewrite Hd1. } { done. }
    { rewrite Hrest1, len_drop by lia. lia. }
    exists r2, pre2, cur2, segs2. cbn [LoadAll]. unfold Load. rewrite Hload.
    cbn [mbind result_bind app]. rewrite Hrun. cbn [mbind result_bind].
    split; [|split; [done|split; [|split; [done|by rewrite Hd2]]]].
    + do 2 f_equal. rewrite Hrest1.
      replace (Z.to_nat (n + total ns))
        with (Z.to_nat n + Z.to_nat (total ns))%nat by lia.
      by rewrite take_plus.
    + rewrite Hrest2, Hrest1, drop_drop. f_equal. lia.
Qed.

(** *** The stream-complete check, characterised *)

(** A buffer with at least four bytes starts with the header it decodes to. *)
Lemma header_split rest :
  4 <= len rest ->
  rest = store_SegmentSize (load_SegmentSize rest) ++ drop 4 rest.
Proof.
  destruct rest as [|b0 [|b1 [|b2 [|b3 rest]]]];
    try (unfold len; simpl; lia).
  intros _. by rewrite store_load_SegmentSize.
Qed.

(** A buffer that holds a whole segment starts with that segment. *)
Lemma segment_split rest :
  4 + load_SegmentSize rest <= len rest ->
  rest = encode_segment (take (Z.to_nat (load_SegmentSize rest)) (drop 4 rest))
           ++ drop (Z.to_nat (4 + load_SegmentSize rest)) rest /\
  len (take (Z.to_nat (load_SegmentSize rest)) (drop 4 rest))
    = load_SegmentSize rest.
Proof.
  intros Hlen. pose proof (load_SegmentSize_range rest) as Hr.
  assert (Hpay : len (take (Z.to_nat (load_SegmentSize rest)) (drop 4 rest))
                 = load_SegmentSize rest).
  { rewrite len_take; [done|].
    change (drop 4 rest) with (drop (Z.to_nat 4) rest).
    rewrite (len_drop rest 4) by lia. lia. }
  split; [|done].
  unfold encode_segment. rewrite Hpay.
  replace (Z.to_nat (4 + load_SegmentSize rest))
    with (4 + Z.to_nat (load_SegmentSize rest))%nat by lia.
  rewrite <- drop_drop, <- app_assoc, take_drop.
  apply header_split. lia.
Qed.

Section StreamCheck.

Variable kSegmentMaxTotalSize : Z.
Hypothesis kSegmentMaxTotalSize_range : 0 <= kSegmentMaxTotalSize < 2 ^ 63.

(** What a result of the check says about the scanned buffer.  For a
    [PARTIAL] result the scan stopped at position [pos], which is either the
    place of a header that is not wholly there, or the place of a payload
    that is not wholly there. *)
Definition stream_result (data : list byte) (info : StreamInfo) : Prop :=
  match status info with
  | PARTIAL =>
      exists segs rest pos,
        data = encode_segments segs ++ rest /\ Forall segment_ok segs /\
        encoded_data_size info = len (concat segs) /\
        stream_size info = pos + kSegmentMaxTotalSize /\
        ((len rest < 4 /\ pos = len (encode_segments segs)) \/
         (4 <= len rest /\ load_SegmentSize rest <> 0 /\
          len rest < 4 + load_SegmentSize rest /\
          pos = len (encode_segments segs) + 4))
  | COMPLETE =>
      exists segs rest,
        data = stream_of segs ++ rest /\ Forall segment_ok segs /\
        segs <> [] /\
        stream_size info = len (stream_of segs) /\
        encoded_data_size info = len (concat segs)
  | INVALID =>
      exists rest,
        data = terminator ++ rest /\
        stream_size info = 0 /\ encoded_data_size info = 0
  end.

Lemma CheckStreamComplete_loop_spec fuel : forall data segs rest,
  data = encode_segments segs ++ rest -> Forall segment_ok segs ->
  len data < 2 ^ 63 -> (length rest < fuel)%nat ->
  exists info,
    CheckStreamComplete_loop kSegmentMaxTotalSize fuel data (len data)
      (len segs) (len (concat segs)) (len (encode_segments segs)) = Some info /\
    stream_result data info.
Proof.
  induction fuel as [|fuel IH]; intros data segs rest Hdata Hok Hbound Hfuel;
    [lia|].
  cbn [CheckStreamComplete_loop].
  assert (Hlen : len data = len (encode_segments segs) + len rest)
    by (by rewrite Hdata, len_app).
  pose proof (len_encode_segments segs) as Henc.
  pose proof (len_nonneg segs). pose proof (len_nonneg (concat segs)).
  pose proof (len_nonneg rest).
  set (pos := len (encode_segments segs)) in *.
  unfold sizeof_SegmentSize.
  rewrite !(wrap64_small (pos + 4)) by lia.
  assert (Hdrop : drop (Z.to_nat pos) data = rest)
    by (subst pos; rewrite Hdata; apply drop_len_app).
  rewrite Hdrop.
  pose proof (load_SegmentSize_range rest) as Hr.
  destruct (pos + 4 >? len data) eqn:Hhdr.
  { (* the header is not wholly there *)
    eexists. split; [reflexivity|]. unfold stream_result. cbn [status].
    exists segs, rest, pos. cbn [stream_size encoded_data_size].
    rewrite wrap64_small by lia.
    split; [done|]. split; [done|]. split; [done|]. split; [done|].
    left. split; [lia|done]. }
  assert (Hrest : rest = store_SegmentSize (load_SegmentSize rest) ++ drop 4 rest)
    by (apply header_split; lia).
  destruct (load_SegmentSize rest =? 0) eqn:Hzero.
  { (* the terminator *)
    assert (Hterm : rest = terminator ++ drop 4 rest).
    { rewrite Hrest at 1. by replace (load_SegmentSize rest) with 0 by lia. }
    destruct (len segs <? 1) eqn:Hfound.
    - eexists. split; [reflexivity|]. unfold stream_result. cbn [status].
      exists (drop 4 rest). cbn [stream_size encoded_data_size].
      split; [|done]. rewrite Hdata.
      assert (segs = []) as -> by (apply len_nil_iff; lia). done.
    - eexists. split; [reflexivity|]. unfold stream_result. cbn [status].
      exists segs, (drop 4 rest). cbn [stream_size encoded_data_size].
      split; [|split; [done|split; [|split; [|done]]]].
      + rewrite Hdata, Hterm at 1. unfold stream_of. by rewrite <- app_assoc.
      + by intros ->.
      + rewrite len_stream_of. lia. }
  rewrite (wrap64_small (pos + 4 + load_SegmentSize rest)) by lia.
  destruct (pos + 4 + load_SegmentSize rest >? len data) eqn:Hpay.
  { (* the payload is not wholly there *)
    eexists. split; [reflexivity|]. unfold stream_result. cbn [status].
    exists segs, rest, (pos + 4). cbn [stream_size encoded_data_size].
    rewrite wrap64_small by lia.
    split; [done|]. split; [done|]. split; [done|]. split; [done|].
    right. split; [lia|]. split; [lia|]. split; [lia|done]. }
  (* a whole segment: the scan moves on *)
  destruct (segment_split rest) as [Hsplit Hslen]; [lia|].
  set (s := take (Z.to_nat (load_SegmentSize rest)) (drop 4 rest)) in *.
  set (rest' := drop (Z.to_nat (4 + load_SegmentSize rest)) rest) in *.
  assert (Hdata' : data = encode_segments (segs ++ [s]) ++ rest').
  { rewrite encode_segments_app, encode_segments_singleton, <- app_assoc.
    by rewrite <- Hsplit. }
  assert (Hok' : Forall segment_ok (segs ++ [s])).
  { apply Forall_app. split; [done|]. constructor; [|constructor].
    unfold segment_ok. lia. }
  assert (Hfuel' : (length rest' < fuel)%nat).
  { assert (len rest = 4 + len s + len rest').
    { rewrite Hsplit at 1. by rewrite len_app, len_encode_segment. }
    unfold len in *. lia. }
  destruct (IH data (segs ++ [s]) rest' Hdata' Hok' Hbound Hfuel')
    as (info & Hrun & Hres).
  exists info. split; [|done]. rewrite <- Hrun.
  rewrite !wrap64_small by lia.
  f_equal.
  - rewrite len_app. reflexivity.
  - rewrite concat_app, len_app. simpl. rewrite app_nil_r. lia.
  - rewrite encode_segments_app, encode_segments_singleton, len_app,
      len_encode_segment. lia.
Qed.

(** The check returns on every buffer (of a size that fits the address
    space), and its result describes the buffer. *)
Lemma CheckStreamComplete_spec data :
  len data < 2 ^ 63 ->
  exists info,
    CheckStreamComplete kSegmentMaxTotalSize data = Some info /\
    stream_result data info.
Proof.
  intros Hbound. unfold CheckStreamComplete.
  apply (CheckStreamComplete_loop_spec (S (length data)) data [] data);
    try done. lia.
Qed.

(** On a well-formed stream the scan runs to the terminator. *)
Lemma CheckStreamComplete_loop_stream todo : forall fuel data done suf,
  data = encode_segments done ++ stream_of todo ++ suf ->
  Forall segment_ok todo ->
  len data < 2 ^ 63 -> (length todo < fuel)%nat ->
  CheckStreamComplete_loop kSegmentMaxTotalSize fuel data (len data)
    (len done) (len (concat done)) (len (encode_segments done))
  = Some (if len done + len todo <? 1 then mkStreamInfo INVALID 0 0
          else mkStreamInfo COMPLETE
                 (len (encode_segments done) + len (stream_of todo))
                 (len (concat done) + len (concat todo))).
Proof.
  induction todo as [|s todo IH]; intros fuel data done suf Hdata Hok Hbound
    Hfuel; (destruct fuel as [|fuel]; [simpl in Hfuel; lia|]);
    cbn [CheckStreamComplete_loop];
    pose proof (len_encode_segments done) as Henc;
    pose proof (len_nonneg done); pose proof (len_nonneg (concat done));
    pose proof (len_nonneg suf);
    set (pos := len (encode_segments done)) in *;
    unfold sizeof_SegmentSize.
  - assert (Hlen : len data = pos + 4 + len suf).
    { rewrite Hdata, !len_app, len_stream_of. subst pos.
      change (len (concat [])) with 0. change (len []) with 0. lia. }
    rewrite !(wrap64_small (pos + 4)) by lia.
    assert ((pos + 4 >? len data) = false) as -> by lia.
    assert (load_SegmentSize (drop (Z.to_nat pos) data) = 0) as ->.
    { subst pos. rewrite Hdata, drop_len_app.
      apply (load_store_SegmentSize 0). lia. }
    cbn [Z.eqb]. change (len []) with 0. change (len (concat [])) with 0.
    rewrite len_stream_of. change (len []) with 0.
    change (len (concat [])) with 0.
    rewrite !Z.add_0_r. by destruct (len done <? 1).
  - apply Forall_cons in Hok as [Hs Hok]. unfold segment_ok in Hs.
    assert (Hdata' : data = encode_segments (done ++ [s])
                              ++ stream_of todo ++ suf).
    { rewrite Hdata, encode_segments_app, encode_segments_singleton.
      unfold stream_of. rewrite encode_segments_cons. by rewrite <- !app_assoc. }
    pose proof (len_nonneg (stream_of todo ++ suf)).
    assert (Hlen : len data = pos + 4 + len s + len (stream_of todo ++ suf)).
    { rewrite Hdata', encode_segments_app, encode_segments_singleton, !len_app,
        len_encode_segment. subst pos. lia. }
    rewrite !(wrap64_small (pos + 4)) by lia.
    assert ((pos + 4 >? len data) = false) as -> by lia.
    assert (load_SegmentSize (drop (Z.to_nat pos) data) = len s) as ->.
    { subst pos. rewrite Hdata, drop_len_app. unfold stream_of.
      rewrite encode_segments_cons. unfold encode_segment.
      rewrite <- !app_assoc. apply load_store_SegmentSize. lia. }
    assert ((len s =? 0) = false) as -> by lia.
    rewrite (wrap64_small (pos + 4 + len s)) by lia.
    assert ((pos + 4 + len s >? len data) = false) as -> by lia.
    rewrite !wrap64_small by lia.
    specialize (IH fuel data (done ++ [s]) suf Hdata' Hok Hbound).
    rewrite encode_segments_app, encode_segments_singleton, concat_app,
      !len_app, len_encode_segment in IH.
    cbn [concat] in IH. rewrite app_nil_r in IH.
    change (len [s]) with 1 in IH. fold pos in IH.
    replace (pos + (4 + len s)) with (pos + 4 + len s) in IH by lia.
    rewrite IH by (simpl in Hfuel; lia).
    pose proof (len_nonneg todo).
    rewrite !len_stream_of. cbn [concat]. rewrite len_app.
    replace (len (s :: todo)) with (1 + len todo)
      by (unfold len; cbn [length]; lia).
    assert ((len done + 1 + len todo <? 1) = false) as -> by lia.
    assert ((len done + (1 + len todo) <? 1) = false) as -> by lia.
    do 2 f_equal; lia.
Qed.

Lemma CheckStreamComplete_stream segs :
  segs <> [] -> Forall segment_ok segs -> len (stream_of segs) < 2 ^ 63 ->
  CheckStreamComplete kSegmentMaxTotalSize (stream_of segs)
  = Some (mkStreamInfo COMPLETE (len (stream_of segs)) (len (concat segs))).
Proof.
  intros Hne Hok Hbound. unfold CheckStreamComplete.
  pose proof (CheckStreamComplete_loop_stream segs
                (S (length (stream_of segs))) (stream_of segs) [] []) as H.
  cbn [encode_segments map concat app] in H. change (len []) with 0 in H.
  rewrite H; try done.
  - assert (0 < len segs).
    { destruct segs; [done|]. unfold len. simpl. lia. }
    assert ((0 + len segs <? 1) = false) as -> by lia. done.
  - by rewrite app_nil_r.
  - pose proof (len_stream_of segs). pose proof (len_nonneg (concat segs)).
    unfold len in *. lia.
Qed.

End StreamCheck.

(** *** Properties of the framing codec *)

Lemma len_concat_pieces {A} (pieces : list (list A)) n :
  len (concat pieces) < n -> Forall (fun p => len p < n) pieces.
Proof.
  induction pieces as [|p ps IH]; [by constructor|].
  cbn [concat]. rewrite len_app. intros H.
  pose proof (len_nonneg p). pose proof (len_nonneg (concat ps)).
  constructor; [lia|apply IH; lia].
Qed.

Lemma len_segments_le (segs : list (list byte)) :
  Forall (fun s => 1 <= len s) segs -> len segs <= len (concat segs).
Proof.
  induction 1 as [|s segs Hs _ IH]; [done|].
  cbn [concat]. rewrite len_app. unfold len in *. cbn [length]. lia.
Qed.

Lemma concat_nil_pieces {A} (pieces : list (list A)) :
  concat pieces = [] -> Forall (fun p => p = []) pieces.
Proof.
  induction pieces as [|p ps IH]; [by constructor|].
  cbn [concat]. intros H. apply app_eq_nil in H as [-> H].
  constructor; [done|by apply IH].
Qed.

Lemma SaveAll_empty kMax pieces b :
  concat pieces = [] -> SaveAll kMax b pieces = Ok b.
Proof.
  intros H. apply concat_nil_pieces in H.
  induction H as [|p ps -> _ IH]; [done|].
  cbn [SaveAll]. unfold Save. cbn [length Save_loop len Z.of_nat Z.gtb Z.compare].
  exact IH.
Qed.

(** The round trip of the specification at the pieces [pieces] of a payload:
    save every piece, finalize, load the whole payload back, finalize, and
    check the written bytes. *)
Definition round_trips (kSegmentMaxDataSize kSegmentMaxTotalSize : Z)
    (pieces : list (list byte)) : Prop :=
  exists b b' r r',
    SaveAll kSegmentMaxDataSize Builder_new pieces = Ok b /\
    Builder_Finalize kSegmentMaxDataSize b = Ok b' /\
    Load (Reader_new (Builder_output b')) (len (concat pieces))
      = Ok (r, concat pieces) /\
    Reader_Finalize r = Ok r' /\
    CheckStreamComplete kSegmentMaxTotalSize (Builder_output b')
      = Some (mkStreamInfo COMPLETE (len (Builder_output b'))
                (len (concat pieces))).

(** C1 (as the code has it): for every non-empty byte sequence P (below
    2^60 bytes) and every partition of P into writes, saving the pieces via
    [Builder::Save] and finalizing, then loading |P| bytes via
    [Reader::Load] and finalizing, reproduces P; [CheckStreamComplete] on the
    written bytes returns COMPLETE with the size of the stream and a payload
    byte count of |P|. *)
Theorem framing_round_trip (kSegmentMaxDataSize kSegmentMaxTotalSize : Z)
    (pieces : list (list byte)) :
  0 < kSegmentMaxDataSize < 2 ^ 32 ->
  concat pieces <> [] -> len (concat pieces) < 2 ^ 60 ->
  round_trips kSegmentMaxDataSize kSegmentMaxTotalSize pieces.
Proof.
  intros HkMax Hne Hlen.
  assert (Hpieces : Forall (fun p => len p < 2 ^ 64) pieces).
  { eapply Forall_impl; [apply (len_concat_pieces pieces (2 ^ 60) Hlen)|].
    simpl. intros p Hp. lia. }
  destruct (Builder_stream kSegmentMaxDataSize HkMax pieces Hne Hpieces)
    as (b & b' & segs & Hsave & Hfin & Hout & Hpay & Hsegs & Hall).
  assert (Hok : Forall segment_ok segs).
  { eapply Forall_impl; [exact Hall|]. unfold segment_ok. simpl. intros s Hs. lia. }
  assert (Hbound : len (stream_of segs) < 2 ^ 63).
  { rewrite len_stream_of.
    assert (len segs <= len (concat segs)).
    { apply len_segments_le. eapply Forall_impl; [exact Hall|].
      simpl. intros s Hs. lia. }
    rewrite Hpay. rewrite Hpay in H. lia. }
  pose proof (reader_at_new segs []) as Hat. rewrite app_nil_r in Hat.
  destruct (Load_loop_at (Z.to_nat (len (concat pieces)))
              (Reader_new (stream_of segs)) [] (len (concat pieces))
              [] [] segs [] Hat Hok)
    as (r & pre & cur & segs' & Hload & Hat' & Hrest & Hok' & Hdata).
  { done. }
  { cbn [app]. rewrite Hpay. pose proof (len_nonneg (concat pieces)). lia. }
  { pose proof (len_nonneg (concat pieces)). lia. }
  cbn [app] in Hload, Hrest. rewrite Hpay in Hload, Hrest.
  rewrite take_len in Hload.
  rewrite drop_ge in Hrest by (unfold len; lia).
  apply app_eq_nil in Hrest as [-> Hnil].
  assert (segs' = []) as ->.
  { destruct segs' as [|s segs']; [done|].
    apply Forall_cons in Hok' as [Hs _]. unfold segment_ok in Hs.
    cbn [concat] in Hnil. apply app_eq_nil in Hnil as [-> _].
    unfold len in Hs. simpl in Hs. lia. }
  destruct (Reader_Finalize_at r pre [] Hat') as [r' Hrfin].
  { by rewrite Hdata. }
  exists b, b', r, r'. rewrite Hout.
  split; [done|]. split; [done|]. split; [exact Hload|]. split; [done|].
  rewrite <- Hpay. by apply CheckStreamComplete_stream.
Qed.

Lemma framing_round_trip_witness :
  round_trips 4 12 [[x61; x62; x63]; []; [x64; x65; x66; x67; x68; x69]].
Proof.
  apply framing_round_trip; [lia | done | unfold len; simpl; lia].
Defined.

(** C1 fails as stated at the empty byte sequence: [Builder::Finalize] on a
    builder that holds no data stops at [MG_ASSERT(pos_ > 0)], so no stream
    is written at all. *)
Lemma framing_round_trip_empty : ~ round_trips 262144 262152 [].
Proof.
  intros (b & b' & r & r' & Hsave & Hfin & _).
  cbn [SaveAll] in Hsave. injection Hsave as <-.
  vm_compute in Hfin. discriminate Hfin.
Qed.

(** The bytes [04 00 00 00] "abcd" [00 00 00]. *)
Definition partial_input : list byte :=
  [x04; x00; x00; x00; x61; x62; x63; x64; x00; x00; x00].

(** C4: on the 11 bytes [04 00 00 00] "abcd" [00 00 00] the check returns
    PARTIAL with payload byte count 4; and in every PARTIAL result the
    needed-bytes hint is the position [pos] at which the scan stopped plus
    [kSegmentMaxTotalSize], where [pos] is the place of the first header or
    payload that is not wholly in the buffer. *)
Theorem partial_detection :
  (forall kSegmentMaxTotalSize,
     CheckStreamComplete kSegmentMaxTotalSize partial_input
     = Some (mkStreamInfo PARTIAL (wrap64 (8 + kSegmentMaxTotalSize)) 4)) /\
  (forall kSegmentMaxTotalSize data,
     0 <= kSegmentMaxTotalSize < 2 ^ 63 -> len data < 2 ^ 63 ->
     exists info,
       CheckStreamComplete kSegmentMaxTotalSize data = Some info /\
       (status info = PARTIAL ->
        exists segs rest pos,
          data = encode_segments segs ++ rest /\ Forall segment_ok segs /\
          encoded_data_size info = len (concat segs) /\
          stream_size info = pos + kSegmentMaxTotalSize /\
          ((len rest < 4 /\ pos = len (encode_segments segs)) \/
           (4 <= len rest /\ load_SegmentSize rest <> 0 /\
            len rest < 4 + load_SegmentSize rest /\
            pos = len (encode_segments segs) + 4)))).
Proof.
  split.
  - intros kTotal. reflexivity.
  - intros kTotal data HkTotal Hbound.
    destruct (CheckStreamComplete_spec kTotal HkTotal data Hbound)
      as (info & Hrun & Hres).
    exists info. split; [done|]. intros Hst.
    unfold stream_result in Hres. by rewrite Hst in Hres.
Qed.

Lemma partial_detection_witness :
  exists info,
    CheckStreamComplete 262152 partial_input = Some info /\
    status info = PARTIAL /\ encoded_data_size info = 4 /\
    stream_size info = 8 + 262152.
Proof.
  destruct partial_detection as [_ H].
  destruct (H 262152 partial_input) as (info & Hrun & Hpartial);
    [lia | unfold len; simpl; lia |].
  exists info. split; [done|].
  vm_compute in Hrun. injection Hrun as <-. done.
Defined.

(** C9: a flush that writes needs [pos_ > 0] and fails the assertion
    otherwise; a non-final flush writes only when the buffer is full; every
    segment written while saving carries [kSegmentMaxDataSize] bytes and the
    final one between 1 and [kSegmentMaxDataSize]; and [Finalize] on a
    builder into which no byte was saved fails the assertion without having
    written anything. *)
Theorem flushed_segments_nonempty (kSegmentMaxDataSize : Z) :
  0 < kSegmentMaxDataSize < 2 ^ 32 ->
  (forall final_segment b b',
     FlushSegment kSegmentMaxDataSize final_segment b = Ok b' ->
     (b' = b /\ final_segment = false /\ b_pos_ b < kSegmentMaxDataSize) \/
     (0 < b_pos_ b /\ (final_segment = false -> kSegmentMaxDataSize <= b_pos_ b) /\
      exists w, b_written b' = b_written b ++ [w] /\
                w_have_more w = negb final_segment)) /\
  (forall final_segment b,
     b_pos_ b <= 0 ->
     final_segment = true \/ kSegmentMaxDataSize <= b_pos_ b ->
     FlushSegment kSegmentMaxDataSize final_segment b = Err AssertionFailed) /\
  (forall pieces,
     len (concat pieces) < 2 ^ 64 ->
     exists b segs,
       SaveAll kSegmentMaxDataSize Builder_new pieces = Ok b /\
       Builder_output b = encode_segments segs /\
       Forall (fun s => len s = kSegmentMaxDataSize) segs /\
       Forall (fun w => w_have_more w = true) (b_written b) /\
       (concat pieces = [] ->
        b_written b = [] /\
        Builder_Finalize kSegmentMaxDataSize b = Err AssertionFailed) /\
       (concat pieces <> [] ->
        exists b',
          Builder_Finalize kSegmentMaxDataSize b = Ok b' /\
          Builder_output b'
            = stream_of (segs ++ [pending b]) /\
          1 <= len (pending b) <= kSegmentMaxDataSize)).
Proof.
  intros HkMax. split; [|split].
  - intros final b b'. unfold FlushSegment.
    destruct (negb final && (b_pos_ b <? kSegmentMaxDataSize)) eqn:Hskip.
    + intros [= <-]. left. destruct final; simpl in Hskip; [done|].
      split; [done|]. split; [done|lia].
    + destruct (b_pos_ b >? 0) eqn:Hpos; cbn [negb]; [|done].
      intros [= <-]. right. split; [lia|]. split.
      * intros ->. simpl in Hskip. lia.
      * cbn [b_written]. by eexists.
  - intros final b Hpos Hflush. unfold FlushSegment.
    assert (negb final && (b_pos_ b <? kSegmentMaxDataSize) = false) as ->.
    { destruct Hflush as [->|Hfull]; [done|].
      apply andb_false_iff. right. lia. }
    by assert ((b_pos_ b >? 0) = false) as -> by lia.
  - intros pieces Hlen.
    destruct (SaveAll_ok kSegmentMaxDataSize HkMax pieces Builder_new []
                (builder_inv_new _ HkMax) (len_concat_pieces pieces _ Hlen))
      as (b & segs & Hsave & Hinv & Hpay & Hpos).
    exists b, segs. split; [done|].
    pose proof (len_pending _ _ _ Hinv) as Hlenp.
    pose proof Hinv as [Hrange Hbuf Hout Hfull Hmore].
    split; [done|]. split; [done|]. split; [done|]. split.
    + intros Hnil. rewrite (SaveAll_empty _ _ _ Hnil) in Hsave.
      injection Hsave as <-. done.
    + intros Hne. assert (Hp : 0 < b_pos_ b) by (apply Hpos; by left).
      destruct (Builder_Finalize_ok kSegmentMaxDataSize HkMax b segs Hinv Hp)
        as (b' & Hfin & Hout' & _).
      exists b'. split; [done|]. split; [done|]. lia.
Qed.

Lemma flushed_segments_nonempty_witness :
  Builder_Finalize 2 Builder_new = Err AssertionFailed /\
  exists b segs,
    SaveAll 2 Builder_new [[x61; x62; x63]; [x64; x65]] = Ok b /\
    Builder_output b = encode_segments segs /\
    Forall (fun s => len s = 2) segs /\
    exists b',
      Builder_Finalize 2 b = Ok b' /\
      Builder_output b' = stream_of (segs ++ [pending b]).
Proof.
  destruct (flushed_segments_nonempty 2) as (_ & Hassert & Hsave); [lia|].
  split.
  - apply Hassert; [simpl; lia | by left].
  - destruct (Hsave [[x61; x62; x63]; [x64; x65]])
      as (b & segs & Hrun & Hout & Hfull & _ & _ & Hfin);
      [unfold len; simpl; lia|].
    destruct Hfin as (b' & Hfin & Hout' & _); [done|].
    exists b, segs. split; [exact Hrun|]. split; [exact Hout|].
    split; [exact Hfull|]. by exists b'.
Defined.

(** The position of the next header is past the declared end. *)
Definition header_past_end (r : Reader) : Prop :=
  r_pos_ r + sizeof_SegmentSize > r_size_ r.

(** The size that the header at the current position holds. *)
Definition next_header (r : Reader) : Z :=
  load_SegmentSize (drop (Z.to_nat (r_pos_ r)) (r_data_ r)).

(** The three causes of a framing error that the specification lists. *)
Definition listed_cause (should_be_final : bool) (r : Reader) : Prop :=
  header_past_end r \/
  (should_be_final = false /\ next_header r = 0) \/
  (should_be_final = true /\ next_header r <> 0).

Definition raises {A} (x : result SlkReaderException A) : Prop :=
  exists e, x = Err e.

(** A reader over a buffer of its declared size. *)
Definition reader_wf (r : Reader) : Prop :=
  r_size_ r = len (r_data_ r) /\ 0 <= r_pos_ r <= r_size_ r /\
  r_size_ r < 2 ^ 63.

(** C5 fails as stated: the reader also raises when the payload that a
    header announces is not wholly in the buffer, and when it is finalized
    while the current segment still has data; neither is one of the three
    listed causes. *)
Lemma framing_error_other_causes :
  (let r := Reader_new [x04; x00; x00; x00; x61; x62] in
   Load r 1 = Err NotEnoughData /\
   GetSegment false r = Err NotEnoughData /\ ~ listed_cause false r) /\
  (let data := [x05; x00; x00; x00; x61; x00; x00; x00; x00;
                x00; x00; x00; x00] in
   exists r out,
     Load (Reader_new data) 1 = Ok (r, out) /\
     Reader_Finalize r = Err LeftoverData /\ ~ listed_cause true r).
Proof.
  split.
  - split; [reflexivity|]. split; [reflexivity|].
    unfold listed_cause, header_past_end, next_header. vm_compute.
    intros [H|[[_ H]|[H _]]]; discriminate H.
  - eexists _, _. split; [reflexivity|]. split; [reflexivity|].
    unfold listed_cause, header_past_end, next_header. vm_compute.
    intros [H|[[H _]|[_ H]]]; (discriminate H || by apply H).
Qed.

(** C5 (as the code has it): [GetSegment] raises exactly when it is asked
    for the final segment while the current one still has data, or, with the
    current segment used up, when the next header extends past the declared
    end, or is zero where a non-empty segment is expected, or is non-zero
    where the final segment is expected, or announces a payload that extends
    past the declared end.  Reading a well-formed stream within its payload,
    in any sequence of loads, raises nothing, and neither does finalizing
    once the whole payload is read.  [CheckStreamComplete] raises nothing: it
    returns on every buffer. *)
Theorem framing_errors :
  (forall should_be_final r,
     reader_wf r ->
     (raises (GetSegment should_be_final r) <->
        (r_have_ r <> 0 /\ should_be_final = true) \/
        (r_have_ r = 0 /\
         (listed_cause should_be_final r \/
          r_pos_ r + sizeof_SegmentSize + next_header r > r_size_ r)))) /\
  (forall segs suf sizes,
     Forall segment_ok segs -> len (stream_of segs ++ suf) < 2 ^ 63 ->
     Forall (fun n => 0 <= n) sizes -> total sizes <= len (concat segs) ->
     exists r,
       LoadAll (Reader_new (stream_of segs ++ suf)) sizes
         = Ok (r, take (Z.to_nat (total sizes)) (concat segs)) /\
       (total sizes = len (concat segs) ->
        exists r', Reader_Finalize r = Ok r')) /\
  (forall kSegmentMaxTotalSize data,
     0 <= kSegmentMaxTotalSize < 2 ^ 63 -> len data < 2 ^ 63 ->
     exists info, CheckStreamComplete kSegmentMaxTotalSize data = Some info).
Proof.
  split; [|split].
  - intros final r (Hsize & Hpos & Hbound).
    unfold raises, listed_cause, header_past_end, GetSegment.
    fold (next_header r).
    pose proof (load_SegmentSize_range (drop (Z.to_nat (r_pos_ r)) (r_data_ r)))
      as Hr. fold (next_header r) in Hr.
    unfold sizeof_SegmentSize.
    destruct (r_have_ r =? 0) eqn:Hhave; cbn [negb].
    + rewrite !(wrap64_small (r_pos_ r + 4)) by lia.
      destruct (r_pos_ r + 4 >? r_size_ r) eqn:Hhdr.
      { split; [intros _|by eexists]. right. split; [lia|]. left. left. lia. }
      rewrite wrap64_small by lia.
      destruct final; cbn [negb andb].
      * destruct (next_header r =? 0) eqn:Hz; cbn [negb].
        -- assert ((r_pos_ r + 4 + next_header r >? r_size_ r) = false) as ->
             by lia.
           split; [by intros [e He]|].
           intros [[Hne _]|[_ [[H|[[H _]|[_ H]]]|H]]]; lia || done.
        -- split; [intros _|by eexists]. right. split; [lia|].
           left. right. right. split; [done|lia].
      * destruct (next_header r =? 0) eqn:Hz; cbn [negb].
        -- split; [intros _|by eexists]. right. split; [lia|].
           left. right. left. split; [done|lia].
        -- destruct (r_pos_ r + 4 + next_header r >? r_size_ r) eqn:Hpay.
           ++ split; [intros _|by eexists]. right. split; [lia|]. right. lia.
           ++ split; [by intros [e He]|].
              intros [[Hne _]|[_ [[H|[[_ H]|[H _]]]|H]]]; lia || done.
    + destruct final.
      * split; [intros _|by eexists]. left. split; [lia|done].
      * split; [by intros [e He]|].
        intros [[_ H]|[H _]]; [done|lia].
  - intros segs suf sizes Hok Hbound Hnn Hsum.
    destruct (LoadAll_at sizes (Reader_new (stream_of segs ++ suf)) [] [] segs
                suf (reader_at_new segs suf) Hok Hbound Hnn Hsum)
      as (r & pre & cur & segs' & Hrun & Hat & Hrest & Hok' & Hdata).
    cbn [app] in Hrun, Hrest. exists r. split; [done|].
    intros Hall. rewrite Hall, drop_ge in Hrest by (unfold len; lia).
    destruct (segments_consumed cur segs' Hok' Hrest) as [-> ->].
    apply (Reader_Finalize_at r pre suf Hat). by rewrite Hdata.
  - intros kTotal data HkTotal Hbound.
    destruct (CheckStreamComplete_spec kTotal HkTotal data Hbound)
      as (info & Hrun & _).
    by exists info.
Qed.

Lemma framing_errors_witness :
  raises (GetSegment true (Reader_new [x04; x00; x00; x00; x61; x62; x63; x64]))
  /\ (exists r,
        LoadAll (Reader_new (stream_of [[x61; x62]; [x63]] ++ [x01])) [1; 0; 2]
          = Ok (r, [x61; x62; x63]) /\
        exists r', Reader_Finalize r = Ok r')
  /\ exists info, CheckStreamComplete 262152 [x01; x02] = Some info.
Proof.
  destruct framing_errors as (Hget & Hload & Hcheck).
  split; [|split].
  - apply Hget.
    + unfold reader_wf, Reader_new. cbn [r_size_ r_pos_ r_data_].
      change (len _) with 8. lia.
    + right. split; [done|]. left. right. right. split; [done|].
      unfold next_header. vm_compute. discriminate.
  - destruct (Hload [[x61; x62]; [x63]] [x01] [1; 0; 2]) as (r & Hrun & Hfin).
    + repeat constructor; unfold len; simpl; lia.
    + unfold len. simpl. lia.
    + repeat constructor; lia.
    + unfold len. simpl. lia.
    + exists r. split; [exact Hrun|]. apply Hfin. reflexivity.
  - apply Hcheck; [lia|unfold len; simpl; lia].
Defined.

(** The verdicts COMPLETE and INVALID: the check answers COMPLETE only on a
    buffer that starts with a well-formed stream of at least one segment, and
    then reports the size of that stream and of its payload; it answers
    INVALID only on a buffer that starts with the terminator. *)
Theorem stream_check_verdicts (kSegmentMaxTotalSize : Z) (data : list byte) :
  0 <= kSegmentMaxTotalSize < 2 ^ 63 -> len data < 2 ^ 63 ->
  exists info,
    CheckStreamComplete kSegmentMaxTotalSize data = Some info /\
    (status info = COMPLETE ->
     exists segs rest,
       data = stream_of segs ++ rest /\ Forall segment_ok segs /\
       segs <> [] /\
       stream_size info = len (stream_of segs) /\
       encoded_data_size info = len (concat segs)) /\
    (status info = INVALID ->
     exists rest,
       data = terminator ++ rest /\
       stream_size info = 0 /\ encoded_data_size info = 0).
Proof.
  intros HkTotal Hbound.
  destruct (CheckStreamComplete_spec kSegmentMaxTotalSize HkTotal data Hbound)
    as (info & Hrun & Hres).
  exists info. split; [done|]. unfold stream_result in Hres.
  split; intros Hst; by rewrite Hst in Hres.
Qed.

Lemma stream_check_verdicts_witness :
  exists info,
    CheckStreamComplete 262152 (terminator ++ [x61]) = Some info /\
    status info = INVALID /\ stream_size info = 0.
Proof.
  destruct (stream_check_verdicts 262152 (terminator ++ [x61]))
    as (info & Hrun & _ & Hinvalid); [lia | unfold len; simpl; lia |].
  exists info. split; [done|].
  assert (Hst : status info = INVALID)
    by (vm_compute in Hrun; by injection Hrun as <-).
  split; [done|]. by destruct (Hinvalid Hst) as (rest & _ & Hsize & _).
Defined.

(** *** How the builder cuts a payload into segments *)

(** The stream written for a non-empty payload: full segments, then a last
    segment that holds the rest. *)
Lemma Builder_canonical (kSegmentMaxDataSize : Z) (pieces : list (list byte)) :
  0 < kSegmentMaxDataSize < 2 ^ 32 ->
  concat pieces <> [] -> len (concat pieces) < 2 ^ 64 ->
  exists b b' segs last,
    SaveAll kSegmentMaxDataSize Builder_new pieces = Ok b /\
    Builder_Finalize kSegmentMaxDataSize b = Ok b' /\
    Builder_output b' = stream_of (segs ++ [last]) /\
    Forall (fun s => len s = kSegmentMaxDataSize) segs /\
    1 <= len last <= kSegmentMaxDataSize /\
    concat segs ++ last = concat pieces.
Proof.
  intros HkMax Hne Hlen.
  destruct (SaveAll_ok kSegmentMaxDataSize HkMax pieces Builder_new []
              (builder_inv_new _ HkMax) (len_concat_pieces pieces _ Hlen))
    as (b & segs & Hsave & Hinv & Hpay & Hpos).
  assert (Hp : 0 < b_pos_ b) by (apply Hpos; by left).
  destruct (Builder_Finalize_ok kSegmentMaxDataSize HkMax b segs Hinv Hp)
    as (b' & Hfin & Hout & _).
  pose proof (len_pending _ _ _ Hinv) as Hlenp.
  destruct Hinv as [Hrange _ _ Hfull _].
  exists b, b', segs, (pending b).
  split; [done|]. split; [done|]. split; [done|]. split; [done|].
  split; [lia|]. by rewrite Hpay.
Qed.

(** A payload has one cutting into full segments and a non-empty rest. *)
Lemma chunking_unique (k : Z) (segs1 : list (list byte)) :
  forall segs2 last1 last2,
    Forall (fun s => len s = k) segs1 -> Forall (fun s => len s = k) segs2 ->
    1 <= len last1 <= k -> 1 <= len last2 <= k ->
    concat segs1 ++ last1 = concat segs2 ++ last2 ->
    segs1 = segs2 /\ last1 = last2.
Proof.
  induction segs1 as [|s1 segs1 IH]; intros [|s2 segs2] last1 last2 H1 H2 Hl1
    Hl2 Heq.
  - done.
  - exfalso. apply Forall_cons in H2 as [Hs2 _]. cbn [concat app] in Heq.
    rewrite Heq, <- !app_assoc, !len_app in Hl1.
    pose proof (len_nonneg (concat segs2)). lia.
  - exfalso. apply Forall_cons in H1 as [Hs1 _]. cbn [concat app] in Heq.
    rewrite <- Heq, <- !app_assoc, !len_app in Hl2.
    pose proof (len_nonneg (concat segs1)). lia.
  - apply Forall_cons in H1 as [Hs1 H1]. apply Forall_cons in H2 as [Hs2 H2].
    cbn [concat] in Heq. rewrite <- !app_assoc in Heq.
    apply app_inj_1 in Heq as [-> Heq]; [|unfold len in *; lia].
    destruct (IH segs2 last1 last2 H1 H2 Hl1 Hl2 Heq) as [-> ->]. done.
Qed.

Lemma len_concat_full (k : Z) (segs : list (list byte)) :
  Forall (fun s => len s = k) segs -> len (concat segs) = k * len segs.
Proof.
  induction 1 as [|s segs Hs _ IH]; [unfold len; simpl; lia|].
  cbn [concat]. rewrite len_app, IH, Hs. unfold len. cbn [length]. lia.
Qed.

(** The written stream depends on the payload only, not on how the payload
    was cut into [Save] calls. *)
Theorem stream_independent_of_partition (kSegmentMaxDataSize : Z)
    (pieces1 pieces2 : list (list byte)) :
  0 < kSegmentMaxDataSize < 2 ^ 32 ->
  concat pieces1 = concat pieces2 ->
  concat pieces1 <> [] -> len (concat pieces1) < 2 ^ 64 ->
  exists b1 b1' b2 b2',
    SaveAll kSegmentMaxDataSize Builder_new pieces1 = Ok b1 /\
    Builder_Finalize kSegmentMaxDataSize b1 = Ok b1' /\
    SaveAll kSegmentMaxDataSize Builder_new pieces2 = Ok b2 /\
    Builder_Finalize kSegmentMaxDataSize b2 = Ok b2' /\
    Builder_output b1' = Builder_output b2'.
Proof.
  intros HkMax Heq Hne Hlen.
  destruct (Builder_canonical kSegmentMaxDataSize pieces1 HkMax Hne Hlen)
    as (b1 & b1' & segs1 & last1 & Hs1 & Hf1 & Ho1 & Hfull1 & Hl1 & Hp1).
  rewrite Heq in Hne, Hlen.
  destruct (Builder_canonical kSegmentMaxDataSize pieces2 HkMax Hne Hlen)
    as (b2 & b2' & segs2 & last2 & Hs2 & Hf2 & Ho2 & Hfull2 & Hl2 & Hp2).
  exists b1, b1', b2, b2'.
  split; [done|]. split; [done|]. split; [done|]. split; [done|].
  rewrite Ho1, Ho2. rewrite <- Heq, <- Hp1 in Hp2. symmetry in Hp2.
  by destruct (chunking_unique kSegmentMaxDataSize segs1 segs2 last1 last2
                 Hfull1 Hfull2 Hl1 Hl2 Hp2) as [-> ->].
Qed.

Lemma stream_independent_of_partition_witness :
  exists b1' b2',
    (b1 ← SaveAll 4 Builder_new [[x61]; [x62; x63; x64; x65; x66]; [x67]];
     Builder_Finalize 4 b1) = Ok b1' /\
    (b2 ← SaveAll 4 Builder_new [[x61; x62; x63; x64; x65; x66; x67]];
     Builder_Finalize 4 b2) = Ok b2' /\
    Builder_output b1' = Builder_output b2'.
Proof.
  destruct (stream_independent_of_partition 4
              [[x61]; [x62; x63; x64; x65; x66]; [x67]]
              [[x61; x62; x63; x64; x65; x66; x67]])
    as (b1 & b1' & b2 & b2' & Hs1 & Hf1 & Hs2 & Hf2 & Hout);
    [lia | done | done | unfold len; simpl; lia |].
  exists b1', b2'. rewrite Hs1, Hs2. cbn [mbind result_bind].
  by rewrite Hf1, Hf2.
Defined.

(** The size of the written stream: the payload, a four-byte header for
    every started block of [kSegmentMaxDataSize] payload bytes, and the
    four-byte terminator. *)
Theorem stream_size_of_payload (kSegmentMaxDataSize : Z)
    (pieces : list (list byte)) :
  0 < kSegmentMaxDataSize < 2 ^ 32 ->
  concat pieces <> [] -> len (concat pieces) < 2 ^ 64 ->
  exists b b',
    SaveAll kSegmentMaxDataSize Builder_new pieces = Ok b /\
    Builder_Finalize kSegmentMaxDataSize b = Ok b' /\
    len (Builder_output b')
    = len (concat pieces)
      + 4 * ((len (concat pieces) + kSegmentMaxDataSize - 1)
               / kSegmentMaxDataSize)
      + 4.
Proof.
  intros HkMax Hne Hlen.
  destruct (Builder_canonical kSegmentMaxDataSize pieces HkMax Hne Hlen)
    as (b & b' & segs & last & Hs & Hf & Ho & Hfull & Hl & Hp).
  exists b, b'. split; [done|]. split; [done|].
  rewrite Ho, len_stream_of, concat_app, !len_app. cbn [concat].
  rewrite app_nil_r, <- Hp, len_app, (len_concat_full _ _ Hfull).
  change (len [last]) with 1.
  pose proof (len_nonneg segs) as Hn.
  assert (Hdiv : (kSegmentMaxDataSize * len segs + len last
                  + kSegmentMaxDataSize - 1) / kSegmentMaxDataSize
                 = len segs + 1).
  { symmetry. apply (Z.div_unique _ _ _ (len last - 1)); lia. }
  rewrite Hdiv. lia.
Qed.

Lemma stream_size_of_payload_witness :
  exists b b',
    SaveAll 4 Builder_new [[x61; x62; x63; x64; x65]; [x66; x67; x68; x69]]
      = Ok b /\
    Builder_Finalize 4 b = Ok b' /\
    len (Builder_output b') = 9 + 4 * 3 + 4.
Proof.
  destruct (stream_size_of_payload 4
              [[x61; x62; x63; x64; x65]; [x66; x67; x68; x69]])
    as (b & b' & Hs & Hf & Hlen); [lia | done | unfold len; simpl; lia |].
  by exists b, b'.
Defined.

(** *** Streams inside larger buffers, and cut streams *)

Lemma Builder_stream_ok (kSegmentMaxDataSize : Z) (pieces : list (list byte)) :
  0 < kSegmentMaxDataSize < 2 ^ 32 ->
  concat pieces <> [] -> len (concat pieces) < 2 ^ 60 ->
  exists b b' segs,
    SaveAll kSegmentMaxDataSize Builder_new pieces = Ok b /\
    Builder_Finalize kSegmentMaxDataSize b = Ok b' /\
    Builder_output b' = stream_of segs /\
    concat segs = concat pieces /\ segs <> [] /\
    Forall segment_ok segs /\ len (stream_of segs) < 2 ^ 63 - 2 ^ 60.
Proof.
  intros HkMax Hne Hlen.
  assert (Hpieces : Forall (fun p => len p < 2 ^ 64) pieces).
  { eapply Forall_impl; [apply (len_concat_pieces pieces (2 ^ 60) Hlen)|].
    simpl. intros p Hp. lia. }
  destruct (Builder_stream kSegmentMaxDataSize HkMax pieces Hne Hpieces)
    as (b & b' & segs & Hsave & Hfin & Hout & Hpay & Hsegs & Hall).
  exists b, b', segs.
  split; [done|]. split; [done|]. split; [done|]. split; [done|].
  split; [done|]. split.
  - eapply Forall_impl; [exact Hall|]. unfold segment_ok. simpl.
    intros s Hs. lia.
  - rewrite len_stream_of.
    assert (len segs <= len (concat segs)).
    { apply len_segments_le. eapply Forall_impl; [exact Hall|].
      simpl. intros s Hs. lia. }
    rewrite Hpay in *. lia.
Qed.

(** A written stream that is followed by other bytes in the buffer is found
    complete, and the reported stream size is where those bytes start. *)
Theorem stream_found_before_trailing_bytes
    (kSegmentMaxDataSize kSegmentMaxTotalSize : Z)
    (pieces : list (list byte)) (trailing : list byte) :
  0 < kSegmentMaxDataSize < 2 ^ 32 ->
  concat pieces <> [] -> len (concat pieces) < 2 ^ 60 ->
  len trailing < 2 ^ 60 ->
  exists b b',
    SaveAll kSegmentMaxDataSize Builder_new pieces = Ok b /\
    Builder_Finalize kSegmentMaxDataSize b = Ok b' /\
    CheckStreamComplete kSegmentMaxTotalSize (Builder_output b' ++ trailing)
    = Some (mkStreamInfo COMPLETE (len (Builder_output b'))
              (len (concat pieces))).
Proof.
  intros HkMax Hne Hlen Htrail.
  destruct (Builder_stream_ok kSegmentMaxDataSize pieces HkMax Hne Hlen)
    as (b & b' & segs & Hsave & Hfin & Hout & Hpay & Hsegs & Hok & Hbound).
  exists b, b'. split; [done|]. split; [done|].
  rewrite Hout, <- Hpay. unfold CheckStreamComplete.
  pose proof (CheckStreamComplete_loop_stream kSegmentMaxTotalSize segs
                (S (length (stream_of segs ++ trailing)))
                (stream_of segs ++ trailing) [] trailing) as H.
  cbn [encode_segments map concat app] in H. change (len []) with 0 in H.
  rewrite H; try done.
  - assert (0 < len segs).
    { destruct segs; [done|]. unfold len. simpl. lia. }
    assert ((0 + len segs <? 1) = false) as -> by lia. done.
  - rewrite len_app. lia.
  - pose proof (len_stream_of segs). pose proof (len_nonneg (concat segs)).
    rewrite length_app. unfold len in *. lia.
Qed.

Lemma stream_found_before_trailing_bytes_witness :
  exists b b',
    SaveAll 2 Builder_new [[x61; x62; x63]] = Ok b /\
    Builder_Finalize 2 b = Ok b' /\
    CheckStreamComplete 10 (Builder_output b' ++ [x01; x00; x00])
    = Some (mkStreamInfo COMPLETE 15 3).
Proof.
  destruct (stream_found_before_trailing_bytes 2 10 [[x61; x62; x63]]
              [x01; x00; x00]) as (b & b' & Hs & Hf & Hc);
    [lia | done | unfold len; simpl; lia | unfold len; simpl; lia |].
  exists b, b'. split; [done|]. split; [done|]. rewrite Hc.
  vm_compute in Hs. injection Hs as <-.
  vm_compute in Hf. injection Hf as <-. reflexivity.
Defined.

(** When [rest] is a prefix that covers [a], it starts with [a]. *)
Lemma prefix_covers {A} (rest tail a b : list A) :
  rest ++ tail = a ++ b -> len a <= len rest ->
  exists rest', rest = a ++ rest' /\ rest' ++ tail = b.
Proof.
  intros Heq Hlen.
  exists (drop (length a) rest).
  assert (Ha : take (length a) rest = a).
  { apply (f_equal (take (length a))) in Heq.
    rewrite take_app_le in Heq by (unfold len in Hlen; lia).
    by rewrite take_app_length in Heq. }
  split.
  - by rewrite <- Ha at 1; rewrite take_drop.
  - apply (f_equal (drop (length a))) in Heq.
    rewrite drop_app_le in Heq by (unfold len in Hlen; lia).
    by rewrite drop_app_length in Heq.
Qed.

(** The scan of a buffer that ends inside a well-formed stream stops with
    PARTIAL. *)
Lemma CheckStreamComplete_loop_cut kSegmentMaxTotalSize todo :
  forall fuel data seen rest tail,
    data = encode_segments seen ++ rest ->
    rest ++ tail = stream_of todo -> tail <> [] ->
    Forall segment_ok todo ->
    len data < 2 ^ 63 -> (length rest < fuel)%nat ->
    exists info,
      CheckStreamComplete_loop kSegmentMaxTotalSize fuel data (len data)
        (len seen) (len (concat seen)) (len (encode_segments seen))
      = Some info /\
      status info = PARTIAL /\
      len (concat seen) <= encoded_data_size info
        <= len (concat seen) + len (concat todo).
Proof.
  induction todo as [|s todo IH]; intros fuel data seen rest tail Hdata Hcut
    Htail Hok Hbound Hfuel; (destruct fuel as [|fuel]; [simpl in Hfuel; lia|]);
    cbn [CheckStreamComplete_loop];
    pose proof (len_encode_segments seen) as Henc;
    pose proof (len_nonneg seen); pose proof (len_nonneg (concat seen));
    pose proof (len_nonneg rest);
    assert (Hlen : len data = len (encode_segments seen) + len rest)
      by (by rewrite Hdata, len_app);
    assert (Htl : 0 < len tail)
      by (destruct tail; [done|unfold len; simpl; lia]);
    set (pos := len (encode_segments seen)) in *;
    unfold sizeof_SegmentSize;
    rewrite !(wrap64_small (pos + 4)) by lia.
  - (* only the terminator is ahead, and it is cut *)
    assert (len rest < 4).
    { apply (f_equal len) in Hcut. rewrite len_app in Hcut.
      change (len (stream_of [])) with 4 in Hcut. lia. }
    assert ((pos + 4 >? len data) = true) as -> by lia.
    eexists. split; [reflexivity|]. cbn. split; [done|].
    change (len []) with 0. lia.
  - apply Forall_cons in Hok as [Hs Hok]. unfold segment_ok in Hs.
    assert (Hstream : stream_of (s :: todo)
                      = store_SegmentSize (len s) ++ s ++ stream_of todo).
    { unfold stream_of. rewrite encode_segments_cons. unfold encode_segment.
      by rewrite <- !app_assoc. }
    rewrite Hstream in Hcut.
    pose proof (len_nonneg (concat todo)).
    assert (Hpayload : len (concat (s :: todo)) = len s + len (concat todo))
      by (cbn [concat]; by rewrite len_app).
    destruct (pos + 4 >? len data) eqn:Hhdr.
    { eexists. split; [reflexivity|]. cbn [status encoded_data_size].
      split; [done|]. lia. }
    destruct (prefix_covers rest tail _ _ Hcut) as (rest1 & Hrest & Hcut1).
    { change (len (store_SegmentSize (len s))) with 4. lia. }
    assert (Hdrop : drop (Z.to_nat pos) data = rest)
      by (subst pos; rewrite Hdata; apply drop_len_app).
    rewrite Hdrop.
    assert (Hload : load_SegmentSize rest = len s)
      by (rewrite Hrest; apply load_store_SegmentSize; lia).
    rewrite Hload.
    assert ((len s =? 0) = false) as -> by lia.
    assert (Hlr : len rest = 4 + len rest1).
    { rewrite Hrest, len_app. reflexivity. }
    pose proof (len_nonneg rest1).
    rewrite (wrap64_small (pos + 4 + len s)) by lia.
    destruct (pos + 4 + len s >? len data) eqn:Hpay.
    { eexists. split; [reflexivity|]. cbn [status encoded_data_size].
      split; [done|]. lia. }
    destruct (prefix_covers rest1 tail _ _ Hcut1) as (rest2 & Hrest1 & Hcut2);
      [lia|].
    assert (Hdata' : data = encode_segments (seen ++ [s]) ++ rest2).
    { rewrite Hdata, Hrest, Hrest1, encode_segments_app,
        encode_segments_singleton. unfold encode_segment.
      by rewrite <- !app_assoc. }
    rewrite !wrap64_small by lia.
    specialize (IH fuel data (seen ++ [s]) rest2 tail Hdata' Hcut2 Htail Hok
                  Hbound).
    rewrite encode_segments_app, encode_segments_singleton, concat_app,
      !len_app, len_encode_segment in IH.
    cbn [concat] in IH. rewrite app_nil_r in IH.
    change (len [s]) with 1 in IH. fold pos in IH.
    replace (pos + (4 + len s)) with (pos + 4 + len s) in IH by lia.
    destruct IH as (info & Hrun & Hst & Hsize).
    { rewrite Hrest1, len_app in Hlr. unfold len in *. lia. }
    exists info. split; [done|]. split; [done|]. lia.
Qed.

(** A buffer that holds only a proper prefix of a written stream is found
    PARTIAL, whatever the place of the cut, and the payload counted so far
    is at most the payload of the stream. *)
Theorem cut_stream_is_partial (kSegmentMaxDataSize kSegmentMaxTotalSize : Z)
    (pieces : list (list byte)) (n : nat) :
  0 < kSegmentMaxDataSize < 2 ^ 32 ->
  concat pieces <> [] -> len (concat pieces) < 2 ^ 60 ->
  exists b b',
    SaveAll kSegmentMaxDataSize Builder_new pieces = Ok b /\
    Builder_Finalize kSegmentMaxDataSize b = Ok b' /\
    ((n < length (Builder_output b'))%nat ->
     exists info,
       CheckStreamComplete kSegmentMaxTotalSize (take n (Builder_output b'))
       = Some info /\
       status info = PARTIAL /\
       0 <= encoded_data_size info <= len (concat pieces)).
Proof.
  intros HkMax Hne Hlen.
  destruct (Builder_stream_ok kSegmentMaxDataSize pieces HkMax Hne Hlen)
    as (b & b' & segs & Hsave & Hfin & Hout & Hpay & Hsegs & Hok & Hbound).
  exists b, b'. split; [done|]. split; [done|]. intros Hn.
  rewrite Hout in *. unfold CheckStreamComplete.
  set (data := take n (stream_of segs)).
  assert (Hld : len data <= len (stream_of segs)).
  { unfold data, len. rewrite length_take. lia. }
  destruct (CheckStreamComplete_loop_cut kSegmentMaxTotalSize segs
              (S (length data)) data [] data (drop n (stream_of segs)))
    as (info & Hrun & Hst & Hsize).
  - done.
  - apply take_drop.
  - intros Hnil. apply (f_equal length) in Hnil.
    rewrite length_drop in Hnil. simpl in Hnil. lia.
  - done.
  - lia.
  - lia.
  - exists info. split; [exact Hrun|]. split; [done|].
    change (len (concat [])) with 0 in Hsize. rewrite Hpay in Hsize. lia.
Qed.

Lemma cut_stream_is_partial_witness :
  exists info,
    CheckStreamComplete 10 [x02; x00; x00; x00; x61; x62; x01; x00] = Some info
    /\ status info = PARTIAL.
Proof.
  destruct (cut_stream_is_partial 2 10 [[x61; x62; x63]] 8)
    as (b & b' & Hs & Hf & Hcut); [lia | done | unfold len; simpl; lia |].
  vm_compute in Hs. injection Hs as <-.
  vm_compute in Hf. injection Hf as <-.
  destruct Hcut as (info & Hrun & Hst & _); [simpl; lia|].
  by exists info.
Defined.

(** *** Reading more, or less, than the payload *)

(** At the terminator a load finds an empty segment. *)
Lemma GetSegment_false_at_end r pre suf :
  reader_at r pre [] [] suf -> len (r_data_ r) < 2 ^ 63 ->
  GetSegment false r = Err EmptyNonFinal.
Proof.
  intros (Hdata & Hsize & Hpos & Hhave) Hbound.
  unfold GetSegment.
  change (len []) with 0 in Hhave. rewrite Hhave. cbn [Z.eqb negb].
  assert (Hlen : len (r_data_ r) = len pre + 4 + len suf).
  { rewrite Hdata. cbn [app]. rewrite !len_app, len_stream_of.
    change (len []) with 0. change (concat []) with (@nil byte).
    change (len []) with 0. lia. }
  pose proof (len_nonneg pre). pose proof (len_nonneg suf).
  unfold sizeof_SegmentSize.
  rewrite (wrap64_small (r_pos_ r + 4)) by lia.
  assert ((r_pos_ r + 4 >? r_size_ r) = false) as -> by lia.
  assert (Hload : load_SegmentSize (drop (Z.to_nat (r_pos_ r)) (r_data_ r)) = 0).
  { rewrite Hpos, Hdata. cbn [app]. rewrite drop_len_app.
    unfold stream_of, terminator. cbn [encode_segments map concat app].
    apply (load_store_SegmentSize 0). lia. }
  rewrite Hload. reflexivity.
Qed.

Lemma Load_loop_past fuel : forall r out size pre cur segs suf,
  reader_at r pre cur segs suf -> Forall segment_ok segs ->
  len (r_data_ r) < 2 ^ 63 ->
  len (cur ++ concat segs) < size < 2 ^ 64 -> size <= Z.of_nat fuel ->
  Load_loop fuel r out size = Err EmptyNonFinal.
Proof.
  induction fuel as [|fuel IH]; intros r out size pre cur segs suf Hat Hok
    Hbound Hsize Hfuel.
  - pose proof (len_nonneg (cur ++ concat segs)). lia.
  - pose proof (len_nonneg (cur ++ concat segs)) as Hnn.
    cbn [Load_loop]. assert ((size >? 0) = true) as -> by lia.
    destruct (decide (cur ++ concat segs = [])) as [Hnil|Hne].
    + destruct (segments_consumed cur segs Hok Hnil) as [-> ->].
      by rewrite (GetSegment_false_at_end r pre suf Hat Hbound).
    + destruct (GetSegment_false_at r pre cur segs suf Hat Hok Hbound Hne)
        as (r1 & pre1 & cur1 & segs1 & -> & Hat1 & Hcur1 & Hpay1 & Hok1 & Hd1).
      cbn [mbind result_bind].
      pose proof (reader_at_payload_le _ _ _ _ _ Hat1) as Hle.
      destruct Hat1 as (Hdata1 & Hsize1 & Hpos1 & Hhave1).
      rewrite <- Hpay1, len_app in Hsize. rewrite len_app in Hle.
      pose proof (len_nonneg cur1). pose proof (len_nonneg (concat segs1)).
      assert ((size >? r_have_ r1) = true) as -> by lia.
      assert (Hlen1 : len (r_data_ r1) = len pre1 + len cur1
                        + len (stream_of segs1 ++ suf)).
      { rewrite Hdata1, !len_app. lia. }
      pose proof (len_nonneg pre1).
      pose proof (len_nonneg (stream_of segs1 ++ suf)).
      assert (Hlc : 0 < len cur1).
      { pose proof (len_nil_iff cur1).
        destruct (Z.eq_dec (len cur1) 0); [tauto|lia]. }
      rewrite Hd1 in Hlen1.
      rewrite !wrap64_small by lia.
      apply (IH _ _ _ (pre1 ++ cur1) [] segs1 suf); try done.
      * unfold reader_at. cbn [r_data_ r_size_ r_pos_ r_have_].
        split; [by rewrite Hdata1, <- !app_assoc|]. split; [done|].
        split; [rewrite len_app; lia|]. change (len []) with 0. lia.
      * cbn [r_data_]. by rewrite Hd1.
      * cbn [app]. lia.
      * lia.
Qed.

(** Asking a written stream for more bytes than its payload holds raises
    "Got an empty SLK segment when expecting a non-empty segment!": the load
    runs into the terminator. *)
Theorem load_past_payload_raises (kSegmentMaxDataSize : Z)
    (pieces : list (list byte)) (trailing : list byte) (size : Z) :
  0 < kSegmentMaxDataSize < 2 ^ 32 ->
  concat pieces <> [] -> len (concat pieces) < 2 ^ 60 ->
  len trailing < 2 ^ 60 ->
  len (concat pieces) < size < 2 ^ 64 ->
  exists b b',
    SaveAll kSegmentMaxDataSize Builder_new pieces = Ok b /\
    Builder_Finalize kSegmentMaxDataSize b = Ok b' /\
    Load (Reader_new (Builder_output b' ++ trailing)) size = Err EmptyNonFinal.
Proof.
  intros HkMax Hne Hlen Htrail Hsize.
  destruct (Builder_stream_ok kSegmentMaxDataSize pieces HkMax Hne Hlen)
    as (b & b' & segs & Hsave & Hfin & Hout & Hpay & Hsegs & Hok & Hbound).
  exists b, b'. split; [done|]. split; [done|]. rewrite Hout.
  apply (Load_loop_past _ _ _ _ [] [] segs trailing).
  - apply reader_at_new.
  - done.
  - cbn [Reader_new r_data_]. rewrite len_app. lia.
  - cbn [app]. rewrite Hpay. lia.
  - lia.
Qed.

Lemma load_past_payload_raises_witness :
  exists b b',
    SaveAll 2 Builder_new [[x61; x62; x63]] = Ok b /\
    Builder_Finalize 2 b = Ok b' /\
    Load (Reader_new (Builder_output b' ++ [x07])) 4 = Err EmptyNonFinal.
Proof.
  apply load_past_payload_raises; [lia | done | | | ];
    unfold len; simpl; lia.
Defined.

(** Finalizing a reader that is not at the terminator raises. *)
Lemma Reader_Finalize_early r pre cur segs suf :
  reader_at r pre cur segs suf -> Forall segment_ok segs ->
  len (r_data_ r) < 2 ^ 63 -> cur ++ concat segs <> [] ->
  Reader_Finalize r = Err LeftoverData \/
  Reader_Finalize r = Err NonEmptyFinal.
Proof.
  intros (Hdata & Hsize & Hpos & Hhave) Hok Hbound Hne.
  unfold Reader_Finalize, GetSegment.
  destruct (r_have_ r =? 0) eqn:Hz; cbn [negb]; [|by left].
  right.
  assert (cur = []) as -> by (apply len_nil_iff; lia).
  destruct segs as [|s segs']; [done|].
  apply Forall_cons in Hok as [Hs Hok']. unfold segment_ok in Hs.
  assert (Hdata' : r_data_ r =
            pre ++ store_SegmentSize (len s) ++ s ++ stream_of segs' ++ suf).
  { rewrite Hdata. unfold stream_of. rewrite encode_segments_cons.
    unfold encode_segment. simpl. by rewrite <- !app_assoc. }
  assert (Hlen : len (r_data_ r) =
            len pre + 4 + len s + len (stream_of segs' ++ suf)).
  { rewrite Hdata', !len_app. change (len (store_SegmentSize (len s))) with 4.
    lia. }
  pose proof (len_nonneg pre). pose proof (len_nonneg (stream_of segs' ++ suf)).
  unfold sizeof_SegmentSize.
  rewrite (wrap64_small (r_pos_ r + 4)) by lia.
  assert ((r_pos_ r + 4 >? r_size_ r) = false) as -> by lia.
  assert (Hload : load_SegmentSize (drop (Z.to_nat (r_pos_ r)) (r_data_ r))
                  = len s).
  { rewrite Hpos, Hdata', drop_len_app. apply load_store_SegmentSize. lia. }
  rewrite Hload. cbn [andb].
  by assert ((len s =? 0) = false) as -> by lia.
Qed.

(** Finalizing the reader of a written stream before the whole payload has
    been loaded raises: "There is still leftover data in the SLK stream!"
    or "Got a non-empty SLK segment when expecting the final segment!". *)
Theorem finalize_before_end_raises (kSegmentMaxDataSize : Z)
    (pieces : list (list byte)) (sizes : list Z) :
  0 < kSegmentMaxDataSize < 2 ^ 32 ->
  concat pieces <> [] -> len (concat pieces) < 2 ^ 60 ->
  Forall (fun n => 0 <= n) sizes -> total sizes < len (concat pieces) ->
  exists b b' r,
    SaveAll kSegmentMaxDataSize Builder_new pieces = Ok b /\
    Builder_Finalize kSegmentMaxDataSize b = Ok b' /\
    LoadAll (Reader_new (Builder_output b')) sizes
      = Ok (r, take (Z.to_nat (total sizes)) (concat pieces)) /\
    (Reader_Finalize r = Err LeftoverData \/
     Reader_Finalize r = Err NonEmptyFinal).
Proof.
  intros HkMax Hne Hlen Hnn Hsum.
  destruct (Builder_stream_ok kSegmentMaxDataSize pieces HkMax Hne Hlen)
    as (b & b' & segs & Hsave & Hfin & Hout & Hpay & Hsegs & Hok & Hbound).
  pose proof (reader_at_new segs []) as Hat. rewrite app_nil_r in Hat.
  destruct (LoadAll_at sizes (Reader_new (stream_of segs)) [] [] segs []
              Hat Hok) as (r & pre & cur & segs' & Hrun & Hat' & Hrest & Hok'
              & Hdata); [cbn; lia | done | cbn [app]; rewrite Hpay; lia |].
  cbn [app] in Hrun, Hrest. rewrite Hpay in Hrun, Hrest.
  exists b, b', r. rewrite Hout.
  split; [done|]. split; [done|]. split; [done|].
  apply (Reader_Finalize_early r pre cur segs' [] Hat' Hok').
  - rewrite Hdata. cbn. lia.
  - rewrite Hrest. intros Hnil. apply (f_equal length) in Hnil.
    rewrite length_drop in Hnil. simpl in Hnil.
    assert (0 <= total sizes).
    { clear -Hnn. induction Hnn; cbn [total foldr]; [lia|].
      fold (total l). lia. }
    unfold len in Hsum. lia.
Qed.

Lemma finalize_before_end_raises_witness :
  exists b b' r,
    SaveAll 2 Builder_new [[x61; x62; x63]] = Ok b /\
    Builder_Finalize 2 b = Ok b' /\
    LoadAll (Reader_new (Builder_output b')) [1; 1] = Ok (r, [x61; x62]) /\
    (Reader_Finalize r = Err LeftoverData \/
     Reader_Finalize r = Err NonEmptyFinal).
Proof.
  apply (finalize_before_end_raises 2 [[x61; x62; x63]] [1; 1]);
    [lia | done | unfold len; simpl; lia | repeat constructor; lia
    | unfold len; simpl; lia].
Defined.

(** *** Reading a cut stream *)

(** [Load] of the whole payload followed by [Finalize], as a user of the
    reader calls them; the result is the payload read. *)
Definition read_whole (data : list byte) (size : Z)
  : result SlkReaderException (list byte) :=
  '(r, out) ← Load (Reader_new data) size;
  _ ← Reader_Finalize r;
  Ok out.

(** The reader is over a buffer that ends inside the stream: [rest] is what
    the buffer still holds of the segments [segs] and the terminator, [tail]
    is what was cut off. *)
Definition reader_cut (r : Reader) (pre cur rest tail : list byte)
    (segs : list (list byte)) : Prop :=
  r_data_ r = pre ++ cur ++ rest /\
  rest ++ tail = stream_of segs /\ tail <> [] /\
  r_size_ r = len (r_data_ r) /\
  r_pos_ r = len pre /\
  r_have_ r = len cur.

Lemma GetSegment_false_cut r pre cur rest tail segs :
  reader_cut r pre cur rest tail segs -> Forall segment_ok segs ->
  len (r_data_ r) < 2 ^ 63 -> cur ++ concat segs <> [] ->
  GetSegment false r = Err SizeDataMissing \/
  GetSegment false r = Err NotEnoughData \/
  exists r1 pre1 cur1 rest1 segs1,
    GetSegment false r = Ok r1 /\ reader_cut r1 pre1 cur1 rest1 tail segs1 /\
    cur1 <> [] /\ cur1 ++ concat segs1 = cur ++ concat segs /\
    Forall segment_ok segs1 /\ r_data_ r1 = r_data_ r.
Proof.
  intros (Hdata & Hcut & Htail & Hsize & Hpos & Hhave) Hok Hbound Hne.
  unfold GetSegment.
  destruct (r_have_ r =? 0) eqn:Hz; cbn [negb]; cycle 1.
  { right. right. exists r, pre, cur, rest, segs.
    split; [done|]. split; [done|]. split; [|done].
    intros ->. unfold len in Hhave. simpl in Hhave. lia. }
  assert (cur = []) as -> by (apply len_nil_iff; lia).
  cbn [app] in Hdata, Hne.
  destruct segs as [|s segs']; [done|].
  apply Forall_cons in Hok as [Hs Hok']. unfold segment_ok in Hs.
  assert (Hstream : stream_of (s :: segs')
                    = store_SegmentSize (len s) ++ s ++ stream_of segs').
  { unfold stream_of. rewrite encode_segments_cons. unfold encode_segment.
    by rewrite <- !app_assoc. }
  rewrite Hstream in Hcut.
  assert (Hlen : len (r_data_ r) = len pre + len rest)
    by (by rewrite Hdata, len_app).
  pose proof (len_nonneg pre). pose proof (len_nonneg rest).
  unfold sizeof_SegmentSize.
  rewrite !(wrap64_small (r_pos_ r + 4)) by lia.
  destruct (r_pos_ r + 4 >? r_size_ r) eqn:Hhdr; [by left|].
  destruct (prefix_covers rest tail _ _ Hcut) as (rest1 & Hrest & Hcut1).
  { change (len (store_SegmentSize (len s))) with 4. lia. }
  assert (Hload : load_SegmentSize (drop (Z.to_nat (r_pos_ r)) (r_data_ r))
                  = len s).
  { rewrite Hpos, Hdata, drop_len_app, Hrest.
    apply load_store_SegmentSize. lia. }
  rewrite Hload. cbn [negb andb].
  assert ((len s =? 0) = false) as -> by lia.
  assert (Hlr : len rest = 4 + len rest1) by (by rewrite Hrest, len_app).
  pose proof (len_nonneg rest1).
  rewrite wrap64_small by lia.
  destruct (r_pos_ r + 4 + len s >? r_size_ r) eqn:Hpay; [right; by left|].
  destruct (prefix_covers rest1 tail _ _ Hcut1) as (rest2 & Hrest1 & Hcut2);
    [lia|].
  right. right.
  eexists _, (pre ++ store_SegmentSize (len s)), s, rest2, segs'.
  split; [reflexivity|]. split; [|split; [|split; [|split]]]; try done.
  - unfold reader_cut. cbn [r_data_ r_size_ r_pos_ r_have_].
    split; [by rewrite Hdata, Hrest, Hrest1, <- !app_assoc|].
    split; [done|]. split; [done|]. split; [done|].
    split; [|done]. rewrite len_app.
    change (len (store_SegmentSize (len s))) with 4. lia.
  - intros ->. unfold len in Hs. simpl in Hs. lia.
Qed.

Lemma Load_loop_cut fuel : forall r out size pre cur rest tail segs,
  reader_cut r pre cur rest tail segs -> Forall segment_ok segs ->
  len (r_data_ r) < 2 ^ 63 ->
  size = len (cur ++ concat segs) -> size < 2 ^ 64 ->
  size <= Z.of_nat fuel ->
  Load_loop fuel r out size = Err SizeDataMissing \/
  Load_loop fuel r out size = Err NotEnoughData \/
  exists r' out',
    Load_loop fuel r out size = Ok (r', out') /\
    Reader_Finalize r' = Err SizeDataMissing.
Proof.
  induction fuel as [|fuel IH]; intros r out size pre cur rest tail segs Hcut
    Hok Hbound Hsize Hsmall Hfuel.
  all: pose proof (len_nonneg (cur ++ concat segs)) as Hnn.
  all: destruct (decide (cur ++ concat segs = [])) as [Hnil|Hne].
  all: try (rewrite Hnil in Hsize; change (len []) with 0 in Hsize).
  1, 3: (* the payload is read: the terminator is cut *)
    assert (Hdone : Load_loop 0 r out size = Ok (r, out)
                    /\ forall f, Load_loop (S f) r out size = Ok (r, out))
      by (subst size; done);
    right; right; exists r, out;
    (split; [destruct Hdone as [H0 HS]; first [exact H0 | apply HS]|]);
    destruct (segments_consumed cur segs Hok Hnil) as [-> ->];
    destruct Hcut as (Hdata & Hcut & Htail & Hsz & Hpos & Hhave);
    unfold Reader_Finalize, GetSegment;
    change (len []) with 0 in Hhave; rewrite Hhave; cbn [Z.eqb negb];
    cbn [app] in Hdata;
    assert (len rest < 4)
      by (apply (f_equal len) in Hcut; rewrite len_app in Hcut;
          change (len (stream_of [])) with 4 in Hcut;
          assert (0 < len tail)
            by (destruct tail; [done|unfold len; simpl; lia]); lia);
    assert (Hlen : len (r_data_ r) = len pre + len rest)
      by (by rewrite Hdata, len_app);
    pose proof (len_nonneg pre); pose proof (len_nonneg rest);
    unfold sizeof_SegmentSize;
    rewrite (wrap64_small (r_pos_ r + 4)) by lia;
    by assert ((r_pos_ r + 4 >? r_size_ r) = true) as -> by lia.
  - exfalso. assert (0 < len (cur ++ concat segs)); [|lia].
    destruct (cur ++ concat segs); [done|unfold len; simpl; lia].
  - assert (Hpos : 0 < size).
    { subst size. destruct (cur ++ concat segs); [done|unfold len; simpl; lia]. }
    cbn [Load_loop]. assert ((size >? 0) = true) as -> by lia.
    destruct (GetSegment_false_cut r pre cur rest tail segs Hcut Hok Hbound Hne)
      as [->|[->|(r1 & pre1 & cur1 & rest1 & segs1 & -> & Hcut1 & Hcur1 & Hpay1
                  & Hok1 & Hd1)]]; [by left|right; by left|].
    cbn [mbind result_bind].
    destruct Hcut1 as (Hdata1 & Hc1 & Htail1 & Hsize1 & Hpos1 & Hhave1).
    rewrite <- Hpay1, len_app in Hsize.
    pose proof (len_nonneg cur1). pose proof (len_nonneg (concat segs1)).
    assert (Hlc : 0 < len cur1).
    { pose proof (len_nil_iff cur1).
      destruct (Z.eq_dec (len cur1) 0); [tauto|lia]. }
    set (to_read := if size >? r_have_ r1 then r_have_ r1 else size).
    assert (Htr : to_read = len cur1).
    { subst to_read. rewrite Hhave1. destruct (size >? len cur1) eqn:E; lia. }
    assert (Hlen1 : len (r_data_ r1) = len pre1 + len cur1 + len rest1).
    { rewrite Hdata1, !len_app. lia. }
    pose proof (len_nonneg pre1). pose proof (len_nonneg rest1).
    rewrite Hd1 in Hlen1. rewrite Htr.
    rewrite !wrap64_small by lia.
    apply (IH _ _ _ (pre1 ++ cur1) [] rest1 tail segs1); try done.
    + unfold reader_cut. cbn [r_data_ r_size_ r_pos_ r_have_].
      split; [by rewrite Hdata1, <- !app_assoc|].
      split; [done|]. split; [done|]. split; [done|].
      split; [rewrite len_app; lia|]. change (len []) with 0. lia.
    + cbn [r_data_]. by rewrite Hd1.
    + cbn [app]. lia.
    + lia.
    + lia.
Qed.

(** A reader never takes a cut stream for a whole one: over a buffer that
    holds only a proper prefix of a written stream, loading the payload and
    finalizing raises "Size data missing in SLK stream!" or "There isn't
    enough data in the SLK stream!". *)
Theorem cut_stream_not_read (kSegmentMaxDataSize : Z)
    (pieces : list (list byte)) (n : nat) :
  0 < kSegmentMaxDataSize < 2 ^ 32 ->
  concat pieces <> [] -> len (concat pieces) < 2 ^ 60 ->
  exists b b',
    SaveAll kSegmentMaxDataSize Builder_new pieces = Ok b /\
    Builder_Finalize kSegmentMaxDataSize b = Ok b' /\
    ((n < length (Builder_output b'))%nat ->
     read_whole (take n (Builder_output b')) (len (concat pieces))
       = Err SizeDataMissing \/
     read_whole (take n (Builder_output b')) (len (concat pieces))
       = Err NotEnoughData).
Proof.
  intros HkMax Hne Hlen.
  destruct (Builder_stream_ok kSegmentMaxDataSize pieces HkMax Hne Hlen)
    as (b & b' & segs & Hsave & Hfin & Hout & Hpay & Hsegs & Hok & Hbound).
  exists b, b'. split; [done|]. split; [done|]. intros Hn.
  rewrite Hout in *. unfold read_whole, Load.
  set (data := take n (stream_of segs)).
  assert (Hld : len data <= len (stream_of segs)).
  { unfold data, len. rewrite length_take. lia. }
  destruct (Load_loop_cut (Z.to_nat (len (concat pieces))) (Reader_new data) []
              (len (concat pieces)) [] [] data (drop n (stream_of segs)) segs)
    as [->|[->|(r' & out' & -> & Hfinal)]].
  - unfold reader_cut. cbn [Reader_new r_data_ r_size_ r_pos_ r_have_ app].
    split; [done|]. split; [apply take_drop|]. split; [|done].
    intros Hnil. apply (f_equal length) in Hnil.
    rewrite length_drop in Hnil. simpl in Hnil. lia.
  - done.
  - cbn [Reader_new r_data_]. lia.
  - cbn [app]. by rewrite Hpay.
  - lia.
  - pose proof (len_nonneg (concat pieces)). lia.
  - by left.
  - by right.
  - cbn [mbind result_bind]. rewrite Hfinal. by left.
Qed.

Lemma cut_stream_not_read_witness :
  read_whole [x02; x00; x00; x00; x61; x62; x01; x00; x00; x00; x63; x00] 3
    = Err SizeDataMissing \/
  read_whole [x02; x00; x00; x00; x61; x62; x01; x00; x00; x00; x63; x00] 3
    = Err NotEnoughData.
Proof.
  destruct (cut_stream_not_read 2 [[x61; x62; x63]] 12)
    as (b & b' & Hs & Hf & Hcut); [lia | done | unfold len; simpl; lia |].
  vm_compute in Hs. injection Hs as <-.
  vm_compute in Hf. injection Hf as <-.
  apply Hcut. simpl. lia.
Defined.

End slk.

Module distributed.

(** [RemotePullState], the state of a remote pull (the enum is declared with
    the RPC messages; its values are the ones the server code names). *)
Inductive RemotePullState :=
  | CURSOR_EXHAUSTED
  | CURSOR_IN_PROGRESS
  | SERIALIZATION_ERROR
  | LOCK_TIMEOUT_ERROR
  | UPDATE_DELETED_ERROR
  | RECONSTRUCTION_ERROR
  | UNABLE_TO_DELETE_VERTEX_ERROR
  | QUERY_ERROR
  | HINTED_ABORT_ERROR.

#[global] Instance RemotePullState_eq_dec : EqDecision RemotePullState.
Proof. solve_decision. Defined.

(** The exceptions that [PullOneFromCursor] catches. *)
Inductive PullException :=
  | SerializationError
  | LockTimeoutException
  | RecordDeletedError
  | ReconstructionException
  | RemoveAttachedVertexException
  | QueryRuntimeException
  | HintedAbortError.

(** The [catch] clauses of [PullOneFromCursor]. *)
Definition state_of_exception (e : PullException) : RemotePullState :=
  match e with
  | SerializationError => SERIALIZATION_ERROR
  | LockTimeoutException => LOCK_TIMEOUT_ERROR
  | RecordDeletedError => UPDATE_DELETED_ERROR
  | ReconstructionException => RECONSTRUCTION_ERROR
  | RemoveAttachedVertexException => UNABLE_TO_DELETE_VERTEX_ERROR
  | QueryRuntimeException => QUERY_ERROR
  | HintedAbortError => HINTED_ABORT_ERROR
  end.

Section RemoteProduceRpcServer.

(** [query::TypedValue] and [query::Symbol] are the query engine's. *)
Context {TypedValue : Type} {Symbol : Type}.

(** [query::ReconstructTypedValue(element)] looks the element up again in
    the current transactional view and updates it in place; [None] stands
    for [query::ReconstructionException]. *)
Variable ReconstructTypedValue : TypedValue -> option TypedValue.

(** A [query::Frame], read at a symbol by [frame_[symbol]]. *)
Definition Frame : Type := Symbol -> TypedValue.

(** What one call of [cursor_->Pull(frame_, context_)] does: it fills the
    frame and returns true, or it throws.  A cursor is the finite sequence of
    what its pulls will do; once the sequence is used up, [Pull] returns
    false. *)
Inductive CursorStep :=
  | Produce (frame : Frame)
  | Raise (e : PullException).

Record OngoingProduce := mkOngoingProduce {
  cursor_ : list CursorStep;
  pull_symbols_ : list Symbol;
  frame_ : Frame;
  cursor_state_ : RemotePullState;
  accumulation_ : list (list TypedValue)
}.

Definition set_cursor_state (st : RemotePullState) (op : OngoingProduce)
  : OngoingProduce :=
  {| cursor_ := cursor_ op; pull_symbols_ := pull_symbols_ op;
     frame_ := frame_ op; cursor_state_ := st;
     accumulation_ := accumulation_ op |}.

Definition set_accumulation (acc : list (list TypedValue))
    (op : OngoingProduce) : OngoingProduce :=
  {| cursor_ := cursor_ op; pull_symbols_ := pull_symbols_ op;
     frame_ := frame_ op; cursor_state_ := cursor_state_ op;
     accumulation_ := acc |}.

(** [OngoingProduce::PullOneFromCursor()]. *)
Definition PullOneFromCursor (op : OngoingProduce)
  : OngoingProduce * (list TypedValue * RemotePullState) :=
  if decide (cursor_state_ op <> CURSOR_IN_PROGRESS) then
    (op, ([], cursor_state_ op))
  else
    match cursor_ op with
    | Produce frame :: rest =>
        let op' := {| cursor_ := rest; pull_symbols_ := pull_symbols_ op;
                      frame_ := frame; cursor_state_ := cursor_state_ op;
                      accumulation_ := accumulation_ op |} in
        (op', (map frame (pull_symbols_ op), cursor_state_ op'))
    | [] =>
        let op' := set_cursor_state CURSOR_EXHAUSTED op in
        (op', ([], cursor_state_ op'))
    | Raise e :: rest =>
        let op' := {| cursor_ := rest; pull_symbols_ := pull_symbols_ op;
                      frame_ := frame_ op;
                      cursor_state_ := state_of_exception e;
                      accumulation_ := accumulation_ op |} in
        (op', ([], cursor_state_ op'))
    end.

(** The loop of [Pull] over the elements of a buffered frame: every element
    is reconstructed in place; at the first one that throws the loop is left
    ([false]) with the elements before it reconstructed. *)
Fixpoint ReconstructElements (results : list TypedValue)
  : list TypedValue * bool :=
  match results with
  | [] => ([], true)
  | element :: rest =>
      match ReconstructTypedValue element with
      | Some element' =>
          let '(rest', ok) := ReconstructElements rest in
          (element' :: rest', ok)
      | None => (element :: rest, false)
      end
  end.

(** [OngoingProduce::Pull()]. *)
Definition Pull (op : OngoingProduce)
  : OngoingProduce * (list TypedValue * RemotePullState) :=
  match last (accumulation_ op) with
  | Some back =>
      let op1 := set_accumulation (removelast (accumulation_ op)) op in
      let '(results, ok) := ReconstructElements back in
      if ok then (op1, (results, CURSOR_IN_PROGRESS))
      else
        let op2 := set_cursor_state RECONSTRUCTION_ERROR op1 in
        (op2, (results, cursor_state_ op2))
  | None => PullOneFromCursor op
  end.

(** The loop of [OngoingProduce::Accumulate()]; [None] when the fuel runs
    out. *)
Fixpoint Accumulate_loop (fuel : nat) (op : OngoingProduce)
  : option (OngoingProduce * RemotePullState) :=
  match fuel with
  | O => None
  | S fuel' =>
      let '(op1, result) := PullOneFromCursor op in
      if decide (result.2 <> CURSOR_IN_PROGRESS) then Some (op1, result.2)
      else
        Accumulate_loop fuel'
          (set_accumulation (accumulation_ op1 ++ [result.1]) op1)
  end.

(** [OngoingProduce::Accumulate()]: every turn of the loop but the last uses
    up one step of the cursor. *)
Definition Accumulate (op : OngoingProduce)
  : option (OngoingProduce * RemotePullState) :=
  Accumulate_loop (S (length (cursor_ op))) op.

(** The fields of [RemotePullReq] that the server reads. *)
Record RemotePullReq := mkRemotePullReq {
  tx_id : N;
  plan_id : Z;
  symbols : list Symbol;
  accumulate : bool;
  batch_size : Z;
  send_old : bool;
  send_new : bool
}.

Record RemotePullResData := mkRemotePullResData {
  res_send_old : bool;
  res_send_new : bool;
  pull_state : RemotePullState;
  frames : list (list TypedValue)
}.

Definition set_pull_state (st : RemotePullState) (res : RemotePullResData)
  : RemotePullResData :=
  {| res_send_old := res_send_old res; res_send_new := res_send_new res;
     pull_state := st; frames := frames res |}.

Definition add_frame (frame : list TypedValue) (res : RemotePullResData)
  : RemotePullResData :=
  {| res_send_old := res_send_old res; res_send_new := res_send_new res;
     pull_state := pull_state res; frames := frames res ++ [frame] |}.

(** The server keeps its ongoing produces by (transaction id, plan id). *)
Record RemoteProduceRpcServer := mkRemoteProduceRpcServer {
  ongoing_produces_ : gmap (N * Z) OngoingProduce
}.

(** [plan_consumer_.PlanForId(req.plan_id).plan->MakeCursor(dba_)]: the
    cursor of the plan of a request, made by the plan consumer and the query
    engine. *)
Variable MakeCursor : RemotePullReq -> list CursorStep.

(** The frame of a new ongoing produce, [frame_(symbol_table.max_position())]. *)
Variable NewFrame : RemotePullReq -> Frame.

(** [OngoingProduce::OngoingProduce(...)]: the cursor state starts as
    [CURSOR_IN_PROGRESS] and nothing is accumulated. *)
Definition OngoingProduce_new (req : RemotePullReq) : OngoingProduce :=
  {| cursor_ := MakeCursor req; pull_symbols_ := symbols req;
     frame_ := NewFrame req; cursor_state_ := CURSOR_IN_PROGRESS;
     accumulation_ := [] |}.

(** [RemoteProduceRpcServer::GetOngoingProduce(req)]: the entry of the
    request's key, made and stored first when there is none. *)
Definition GetOngoingProduce (srv : RemoteProduceRpcServer)
    (req : RemotePullReq) : RemoteProduceRpcServer * OngoingProduce :=
  let key_pair := (tx_id req, plan_id req) in
  match ongoing_produces_ srv !! key_pair with
  | Some found => (srv, found)
  | None =>
      let op := OngoingProduce_new req in
      ({| ongoing_produces_ := <[key_pair := op]> (ongoing_produces_ srv) |}, op)
  end.

(** The [for] loop of [RemotePull], with [n] turns left. *)
Fixpoint PullBatch (n : nat) (op : OngoingProduce) (result : RemotePullResData)
  : OngoingProduce * RemotePullResData :=
  match n with
  | O => (op, result)
  | S n' =>
      let '(op1, pull_result) := Pull op in
      let result1 := set_pull_state pull_result.2 result in
      if decide (pull_result.2 <> CURSOR_IN_PROGRESS) then (op1, result1)
      else PullBatch n' op1 (add_frame pull_result.1 result1)
  end.

(** [RemoteProduceRpcServer::RemotePull(req)] on one ongoing produce: the
    body of the function after [GetOngoingProduce]. *)
Definition RemotePull_on (op : OngoingProduce) (req : RemotePullReq)
  : option (OngoingProduce * RemotePullResData) :=
  let result := {| res_send_old := send_old req; res_send_new := send_new req;
                   pull_state := CURSOR_IN_PROGRESS; frames := [] |} in
  if accumulate req then
    '(op1, st) ← Accumulate op;
    let result1 := set_pull_state st result in
    if decide (st <> CURSOR_EXHAUSTED) then Some (op1, result1)
    else Some (PullBatch (Z.to_nat (batch_size req)) op1 result1)
  else Some (PullBatch (Z.to_nat (batch_size req)) op result).

(** [RemoteProduceRpcServer::RemotePull(req)]; the ongoing produce is changed
    in place, in the map. *)
Definition RemotePull (srv : RemoteProduceRpcServer) (req : RemotePullReq)
  : option (RemoteProduceRpcServer * RemotePullResData) :=
  let '(srv1, op) := GetOngoingProduce srv req in
  '(op', result) ← RemotePull_on op req;
  Some ({| ongoing_produces_ :=
             <[(tx_id req, plan_id req) := op']> (ongoing_produces_ srv1) |},
        result).

(** [RemoteProduceRpcServer::ClearTransactionalCache(oldest_active)]: the
    loop visits every entry of the map and removes the ones it selects. *)
Definition ClearTransactionalCache (oldest_active : N)
    (srv : RemoteProduceRpcServer) : RemoteProduceRpcServer :=
  {| ongoing_produces_ :=
       foldl (fun access kv =>
                if (kv.1.1 <? oldest_active)%N then delete kv.1 access
                else access)
             (ongoing_produces_ srv) (map_to_list (ongoing_produces_ srv)) |}.

(** *** Facts about one ongoing produce *)

(** The frame that [Pull] returns for a buffered frame whose elements all
    reconstruct. *)
Definition reconstructed (row : list TypedValue) : list TypedValue :=
  (ReconstructElements row).1.

(** Every element of the buffered frame reconstructs. *)
Definition reconstructs (row : list TypedValue) : Prop :=
  (ReconstructElements row).2 = true.

(** The tuple that [PullOneFromCursor] reads off a frame. *)
Definition tuple_of (pull_symbols : list Symbol) (frame : Frame)
  : list TypedValue :=
  map frame pull_symbols.

(** Once the cursor state is terminal, [PullOneFromCursor] returns it and
    touches nothing. *)
Lemma PullOneFromCursor_terminal op :
  cursor_state_ op <> CURSOR_IN_PROGRESS ->
  PullOneFromCursor op = (op, ([], cursor_state_ op)).
Proof. intros H. unfold PullOneFromCursor. by rewrite decide_True. Qed.

(** Whatever [PullOneFromCursor] returns is the cursor state it leaves. *)
Lemma PullOneFromCursor_state op :
  (PullOneFromCursor op).2.2 = cursor_state_ (PullOneFromCursor op).1.
Proof.
  unfold PullOneFromCursor. case_decide; [done|].
  by destruct (cursor_ op) as [|[f|e] rest].
Qed.

Lemma PullOneFromCursor_accumulation op :
  accumulation_ (PullOneFromCursor op).1 = accumulation_ op.
Proof.
  unfold PullOneFromCursor. case_decide; [done|].
  by destruct (cursor_ op) as [|[f|e] rest].
Qed.

(** A pull with nothing buffered and a terminal cursor state returns that
    state and changes nothing: the state is sticky on this path. *)
Lemma Pull_terminal_empty op :
  accumulation_ op = [] -> cursor_state_ op <> CURSOR_IN_PROGRESS ->
  Pull op = (op, ([], cursor_state_ op)).
Proof.
  intros Hacc Hst. unfold Pull. rewrite Hacc. cbn [last].
  by apply PullOneFromCursor_terminal.
Qed.

Lemma Accumulate_loop_returns fuel : forall op,
  (length (cursor_ op) < fuel)%nat ->
  exists op1 st,
    Accumulate_loop fuel op = Some (op1, st) /\
    st <> CURSOR_IN_PROGRESS /\ cursor_state_ op1 = st /\
    (cursor_state_ op <> CURSOR_IN_PROGRESS -> op1 = op).
Proof.
  induction fuel as [|fuel IH]; intros op Hfuel; [lia|].
  cbn [Accumulate_loop]. unfold PullOneFromCursor.
  case_decide as Hst.
  - cbn [snd]. rewrite decide_True by done. by exists op, (cursor_state_ op).
  - assert (Hst' : cursor_state_ op = CURSOR_IN_PROGRESS)
      by (destruct (cursor_state_ op); done).
    clear Hst. rename Hst' into Hst.
    destruct (cursor_ op) as [|[frame|e] rest] eqn:Hcur.
    + cbn [snd set_cursor_state cursor_state_]. rewrite decide_True by done.
      eexists _, _. split; [done|]. split; [done|]. split; [done|].
      intros H. by rewrite Hst in H.
    + cbn [snd fst cursor_state_]. rewrite decide_False by (by rewrite Hst; intros H; apply H).
      match goal with |- context [Accumulate_loop fuel ?o] =>
        destruct (IH o) as (op1 & st & Hrun & Hne & Hfin & _) end.
      { cbn [set_accumulation cursor_]. simpl in Hfuel. lia. }
      exists op1, st. split; [done|]. split; [done|]. split; [done|].
      intros H. by rewrite Hst in H.
    + cbn [snd cursor_state_]. rewrite decide_True by (by destruct e).
      eexists _, _. split; [done|]. split; [by destruct e|]. split; [done|].
      intros H. by rewrite Hst in H.
Qed.

(** [Accumulate] returns, with a terminal state that is also the cursor
    state it leaves. *)
Lemma Accumulate_returns op :
  exists op1 st,
    Accumulate op = Some (op1, st) /\
    st <> CURSOR_IN_PROGRESS /\ cursor_state_ op1 = st /\
    (cursor_state_ op <> CURSOR_IN_PROGRESS -> op1 = op).
Proof. apply Accumulate_loop_returns. lia. Qed.

(** Draining a cursor that produces the frames [fs] and is then exhausted
    appends their tuples to the back of the buffer, in the order of their
    production. *)
Lemma Accumulate_loop_produce fs : forall fuel op,
  cursor_ op = map Produce fs -> cursor_state_ op = CURSOR_IN_PROGRESS ->
  (length fs < fuel)%nat ->
  exists op1,
    Accumulate_loop fuel op = Some (op1, CURSOR_EXHAUSTED) /\
    cursor_state_ op1 = CURSOR_EXHAUSTED /\
    pull_symbols_ op1 = pull_symbols_ op /\
    accumulation_ op1
      = accumulation_ op ++ map (tuple_of (pull_symbols_ op)) fs.
Proof.
  induction fs as [|f fs IH]; intros fuel op Hcur Hst Hfuel;
    (destruct fuel as [|fuel]; [simpl in Hfuel; lia|]);
    cbn [Accumulate_loop]; unfold PullOneFromCursor;
    rewrite decide_False by (by rewrite Hst; intros H; apply H);
    rewrite Hcur; cbn [map].
  - cbn [snd set_cursor_state cursor_state_]. rewrite decide_True by done.
    eexists. split; [done|]. cbn. by rewrite app_nil_r.
  - cbn [snd fst cursor_state_]. rewrite Hst.
    rewrite decide_False by (by intros H; apply H).
    match goal with |- context [Accumulate_loop fuel ?o] =>
      destruct (IH fuel o) as (op1 & Hrun & Hfin & Hsym & Hacc) end;
      [done|done|simpl in Hfuel; lia|].
    exists op1. split; [done|]. split; [done|]. split; [done|].
    rewrite Hacc. cbn. by rewrite <- app_assoc.
Qed.

(** A pull with a buffered frame at the back whose elements reconstruct
    returns that frame and removes it. *)
Lemma Pull_back_ok op older back :
  accumulation_ op = older ++ [back] -> reconstructs back ->
  Pull op = (set_accumulation older op, (reconstructed back, CURSOR_IN_PROGRESS)).
Proof.
  intros Hacc Hok. unfold Pull. rewrite Hacc, last_snoc, removelast_last.
  unfold reconstructs, reconstructed in *.
  destruct (ReconstructElements back) as [results ok]. simpl in *. by subst ok.
Qed.

(** A pull with a buffered frame at the back that has an element which does
    not reconstruct returns [RECONSTRUCTION_ERROR]. *)
Lemma Pull_back_error op older back :
  accumulation_ op = older ++ [back] -> ~ reconstructs back ->
  Pull op = (set_cursor_state RECONSTRUCTION_ERROR (set_accumulation older op),
             (reconstructed back, RECONSTRUCTION_ERROR)).
Proof.
  intros Hacc Hok. unfold Pull. rewrite Hacc, last_snoc, removelast_last.
  unfold reconstructs, reconstructed in *.
  destruct (ReconstructElements back) as [results ok]. simpl in *.
  by destruct ok.
Qed.

(** A batch of [n] pulls over at least [n] buffered frames that all
    reconstruct returns them from the back of the buffer. *)
Lemma PullBatch_buffered newer : forall n op result older,
  accumulation_ op = older ++ newer -> Forall reconstructs newer ->
  n = length newer ->
  PullBatch n op result
  = (set_accumulation older op,
     {| res_send_old := res_send_old result;
        res_send_new := res_send_new result;
        pull_state := match n with
                      | O => pull_state result
                      | S _ => CURSOR_IN_PROGRESS
                      end;
        frames := frames result ++ map reconstructed (rev newer) |}).
Proof.
  induction newer as [|back newer IH] using rev_ind;
    intros n op result older Hacc Hok ->.
  - cbn. rewrite !app_nil_r in *. destruct op, result. simpl in *. by subst.
  - rewrite length_app, Nat.add_comm. cbn [length Nat.add PullBatch].
    apply Forall_app in Hok as [Hok Hback].
    apply Forall_cons in Hback as [Hback _].
    rewrite app_assoc in Hacc.
    rewrite (Pull_back_ok op (older ++ newer) back Hacc Hback).
    cbn [snd fst]. rewrite decide_False by (by intros H; apply H).
    rewrite (IH (length newer) _ _ older); [|done|done|done].
    rewrite rev_app_distr. cbn. rewrite <- app_assoc. cbn.
    f_equal. destruct (length newer); reflexivity.
Qed.

(** A batch that meets a buffered frame which does not reconstruct stops
    there with [RECONSTRUCTION_ERROR]; the response keeps the frames that
    were pulled before it. *)
Lemma PullBatch_reconstruction_error newer : forall n op result older bad,
  accumulation_ op = older ++ bad :: newer -> Forall reconstructs newer ->
  ~ reconstructs bad -> (length newer < n)%nat ->
  exists op',
    PullBatch n op result
    = (op', {| res_send_old := res_send_old result;
               res_send_new := res_send_new result;
               pull_state := RECONSTRUCTION_ERROR;
               frames := frames result ++ map reconstructed (rev newer) |}).
Proof.
  induction newer as [|back newer IH] using rev_ind;
    intros n op result older bad Hacc Hok Hbad Hn;
    (destruct n as [|n]; [simpl in Hn; lia|]); cbn [PullBatch].
  - rewrite (Pull_back_error op older bad Hacc Hbad). cbn [snd].
    rewrite decide_True by done. eexists. cbn. by rewrite app_nil_r.
  - apply Forall_app in Hok as [Hok Hback].
    apply Forall_cons in Hback as [Hback _].
    assert (Hacc' : accumulation_ op = (older ++ bad :: newer) ++ [back])
      by (by rewrite Hacc, <- app_assoc).
    rewrite (Pull_back_ok op _ back Hacc' Hback). cbn [snd fst].
    rewrite decide_False by (by intros H; apply H).
    rewrite length_app in Hn. cbn [length] in Hn.
    match goal with |- context [PullBatch n ?o ?r] =>
      destruct (IH n o r older bad) as [op' Hrun] end; [done|done|done|lia|].
    exists op'. rewrite Hrun. rewrite rev_app_distr. cbn.
    by rewrite <- app_assoc.
Qed.

(** *** Properties of the remote pull server *)

(** C8: draining the cursor appends the tuples to the back of the buffer in
    the order in which the cursor produced them, and the pulls that follow
    return the buffered frames from the back: [n] pulls return the last [n]
    tuples produced, the last one first. *)
Theorem accumulated_frames_reversed (op : OngoingProduce) (fs : list Frame) :
  cursor_ op = map Produce fs ->
  cursor_state_ op = CURSOR_IN_PROGRESS ->
  accumulation_ op = [] ->
  Forall reconstructs (map (tuple_of (pull_symbols_ op)) fs) ->
  exists op1,
    Accumulate op = Some (op1, CURSOR_EXHAUSTED) /\
    accumulation_ op1 = map (tuple_of (pull_symbols_ op)) fs /\
    forall n result, (n <= length fs)%nat ->
      frames (PullBatch n op1 result).2
      = frames result
          ++ take n (rev (map reconstructed
                            (map (tuple_of (pull_symbols_ op)) fs))) /\
      accumulation_ (PullBatch n op1 result).1
      = take (length fs - n) (map (tuple_of (pull_symbols_ op)) fs).
Proof.
  intros Hcur Hst Hacc Hok.
  destruct (Accumulate_loop_produce fs (S (length (cursor_ op))) op Hcur Hst)
    as (op1 & Hrun & Hfin & Hsym & Hacc1).
  { rewrite Hcur, length_map. lia. }
  rewrite Hacc in Hacc1. cbn [app] in Hacc1.
  exists op1. split; [done|]. split; [done|].
  intros n result Hn.
  set (rows := map (tuple_of (pull_symbols_ op)) fs) in *.
  assert (Hlen : length rows = length fs) by apply length_map.
  assert (Hsplit : accumulation_ op1
                   = take (length fs - n) rows ++ drop (length fs - n) rows)
    by (by rewrite take_drop).
  assert (Hok' : Forall reconstructs (drop (length fs - n) rows))
    by (by apply Forall_drop).
  rewrite (PullBatch_buffered _ n op1 result _ Hsplit Hok')
    by (rewrite length_drop; lia).
  cbn [fst snd frames accumulation_ set_accumulation]. split; [|done].
  f_equal. rewrite <- map_rev, firstn_map. f_equal.
  rewrite <- Hlen. symmetry. apply firstn_rev.
Qed.

(** What C3 states of a response whose pull state is
    [RECONSTRUCTION_ERROR]: it has no frame. *)
Definition claimed_no_frame (srv : RemoteProduceRpcServer)
    (req : RemotePullReq) : Prop :=
  forall srv' res,
    RemotePull srv req = Some (srv', res) ->
    pull_state res = RECONSTRUCTION_ERROR -> frames res = [].

(** C3 (as the code has it): for a request with [accumulate], when draining
    the cursor ends in a state other than [CURSOR_EXHAUSTED] the response
    carries that state and no frame.  When draining ends in
    [CURSOR_EXHAUSTED] and the batch meets a buffered frame that does not
    reconstruct, the response carries [RECONSTRUCTION_ERROR] and exactly the
    frames pulled before that one in this request; none when it is the first
    frame pulled. *)
Theorem accumulate_error_response (srv : RemoteProduceRpcServer)
    (req : RemotePullReq) :
  accumulate req = true ->
  exists srv1 op op1 st,
    GetOngoingProduce srv req = (srv1, op) /\
    Accumulate op = Some (op1, st) /\
    (st <> CURSOR_EXHAUSTED ->
     exists srv' res,
       RemotePull srv req = Some (srv', res) /\
       pull_state res = st /\ frames res = []) /\
    (st = CURSOR_EXHAUSTED ->
     forall older bad newer,
       accumulation_ op1 = older ++ bad :: newer ->
       Forall reconstructs newer -> ~ reconstructs bad ->
       (length newer < Z.to_nat (batch_size req))%nat ->
       exists srv' res,
         RemotePull srv req = Some (srv', res) /\
         pull_state res = RECONSTRUCTION_ERROR /\
         frames res = map reconstructed (rev newer) /\
         (newer = [] -> frames res = [])).
Proof.
  intros Hacc.
  destruct (GetOngoingProduce srv req) as [srv1 op] eqn:Hget.
  destruct (Accumulate_returns op) as (op1 & st & Hrun & _ & _ & _).
  exists srv1, op, op1, st. split; [done|]. split; [done|].
  unfold RemotePull. rewrite Hget. unfold RemotePull_on.
  rewrite Hacc, Hrun. cbn [mbind option_bind].
  split.
  - intros Hst. rewrite decide_True by done. cbn [mbind option_bind].
    by eexists _, _.
  - intros -> older bad newer Hbuf Hok Hbad Hn.
    rewrite decide_False by (by intros H; apply H).
    match goal with |- context [PullBatch ?n op1 ?r] =>
      destruct (PullBatch_reconstruction_error newer n op1 r older bad)
        as [op' Hbatch] end; [done|done|done|done|].
    rewrite Hbatch. cbn [mbind option_bind].
    eexists _, _. split; [done|]. cbn. split; [done|]. split; [done|].
    by intros ->.
Qed.

(** C6: after the cleanup for the oldest active transaction
    [oldest_active], the map has no entry with a transaction id below
    [oldest_active], and every other key is mapped as before. *)
Theorem ClearTransactionalCache_lookup (oldest_active : N)
    (srv : RemoteProduceRpcServer) (key : N * Z) :
  ongoing_produces_ (ClearTransactionalCache oldest_active srv) !! key
  = if (key.1 <? oldest_active)%N then None
    else ongoing_produces_ srv !! key.
Proof.
  unfold ClearTransactionalCache. cbn [ongoing_produces_].
  set (step := fun (access : gmap (N * Z) OngoingProduce)
                   (kv : N * Z * OngoingProduce) =>
                 if (kv.1.1 <? oldest_active)%N then delete kv.1 access
                 else access).
  assert (Hfold : forall l (m : gmap (N * Z) OngoingProduce),
            foldl step m l !! key
            = if (key.1 <? oldest_active)%N && bool_decide (key ∈ l.*1)
              then None else m !! key).
  { induction l as [|[k v] l IH]; intros m.
    - cbn. by rewrite andb_false_r.
    - cbn [foldl fmap list_fmap]. rewrite IH. unfold step. cbn [fst].
      destruct (key.1 <? oldest_active)%N eqn:Hold; cbn [andb].
      + destruct (decide (key = k)) as [->|Hne].
        * rewrite Hold, lookup_delete_eq.
          rewrite (bool_decide_eq_true_2 (k ∈ k :: l.*1)) by left.
          by destruct (bool_decide _).
        * rewrite (bool_decide_ext (key ∈ k :: l.*1) (key ∈ l.*1))
            by (rewrite elem_of_cons; split; [by intros [?|?]|by right]).
          destruct (bool_decide (key ∈ l.*1)); [done|].
          destruct (k.1 <? oldest_active)%N; [|done].
          by rewrite lookup_delete_ne.
      + destruct (k.1 <? oldest_active)%N eqn:Hk; [|done].
        rewrite lookup_delete_ne; [done|]. intros ->. congruence. }
  rewrite Hfold.
  destruct (key.1 <? oldest_active)%N; [|done]. cbn [andb].
  destruct (bool_decide (key ∈ (map_to_list (ongoing_produces_ srv)).*1))
    eqn:Hin; [done|].
  apply bool_decide_eq_false in Hin.
  destruct (ongoing_produces_ srv !! key) as [v|] eqn:Hlook; [|done].
  exfalso. apply Hin. apply list_elem_of_fmap. exists (key, v).
  split; [done|]. by apply elem_of_map_to_list.
Qed.

(** With nothing buffered a terminal state is sticky: once a pull has
    returned a state other than [CURSOR_IN_PROGRESS], the next pull returns
    the same state with no result and leaves the ongoing produce, its cursor
    included, as it is. *)
Theorem terminal_state_sticky_unbuffered (op : OngoingProduce) :
  accumulation_ op = [] ->
  (Pull op).2.2 <> CURSOR_IN_PROGRESS ->
  Pull (Pull op).1 = ((Pull op).1, ([], (Pull op).2.2)).
Proof.
  intros Hacc Hst.
  assert (Hpull : Pull op = PullOneFromCursor op)
    by (unfold Pull; by rewrite Hacc).
  rewrite Hpull in *. rewrite PullOneFromCursor_state in *.
  apply Pull_terminal_empty; [|done].
  by rewrite PullOneFromCursor_accumulation.
Qed.

(** [Accumulate] returns with a terminal state, and accumulating again
    returns the same state and changes nothing. *)
Theorem Accumulate_again (op : OngoingProduce) :
  exists op1 st,
    Accumulate op = Some (op1, st) /\ st <> CURSOR_IN_PROGRESS /\
    Accumulate op1 = Some (op1, st).
Proof.
  destruct (Accumulate_returns op) as (op1 & st & Hrun & Hne & Hst & _).
  exists op1, st. split; [done|]. split; [done|].
  destruct (Accumulate_returns op1) as (op2 & st2 & Hrun2 & _ & Hst2 & Hsame).
  rewrite Hrun2. rewrite Hsame in * by (by rewrite Hst).
  by rewrite <- Hst2, Hst.
Qed.

End RemoteProduceRpcServer.

(** *** A small instance of the server

    Values are numbers and there is one symbol; the value 0 stands for an
    element that is not visible any more, so that reconstructing it throws. *)

Definition ex_reconstruct (v : nat) : option nat :=
  if Nat.eqb v 0 then None else Some v.

Definition ex_frame (v : nat) : @Frame nat unit := fun _ => v.

(** The plan's cursor produces the tuples given by the plan id: plan 1
    produces (0) then (1); plan 3 produces (1) and then times out on a lock;
    any other plan produces (1) then (0). *)
Definition ex_cursor (req : @RemotePullReq unit) : list (@CursorStep nat unit) :=
  if plan_id req =? 1
  then [Produce (ex_frame 0); Produce (ex_frame 1)]
  else if plan_id req =? 3
  then [Produce (ex_frame 1); Raise LockTimeoutException]
  else [Produce (ex_frame 1); Produce (ex_frame 0)].

Definition ex_server : @RemoteProduceRpcServer nat unit :=
  {| ongoing_produces_ := ∅ |}.

Definition ex_RemotePull :=
  RemotePull ex_reconstruct ex_cursor (fun _ => ex_frame 0).

Definition ex_req (plan : Z) (acc : bool) (batch : Z) : @RemotePullReq unit :=
  {| tx_id := 7%N; plan_id := plan; symbols := [()]; accumulate := acc;
     batch_size := batch; send_old := true; send_new := true |}.

Lemma accumulated_frames_reversed_witness :
  let op := OngoingProduce_new ex_cursor (fun _ => ex_frame 0)
              (ex_req 2 true 0) in
  exists op1,
    Accumulate op = Some (op1, CURSOR_EXHAUSTED) /\
    accumulation_ op1 = [[1%nat]; [0%nat]] /\
    forall result,
      frames (PullBatch (fun v => Some v) 2 op1 result).2
      = frames result ++ [[0%nat]; [1%nat]].
Proof.
  intros op.
  destruct (accumulated_frames_reversed (fun v => Some v) op
              [ex_frame 1; ex_frame 0]) as (op1 & Hrun & Hacc & Hpull);
    [reflexivity | reflexivity | reflexivity | by repeat constructor |].
  exists op1. split; [exact Hrun|]. split; [exact Hacc|].
  intros result. by destruct (Hpull 2%nat result) as [Hframes _]; [simpl; lia|].
Defined.

(** C3 fails as stated: the cursor of plan 1 produces (0) then (1), and 0
    does not reconstruct.  A pull with [accumulate] and a batch of two drains
    the cursor, pulls the buffered (1), then meets (0): the response is
    [RECONSTRUCTION_ERROR] together with the frame (1). *)
Lemma reconstruction_error_with_frame :
  (exists srv' res,
     ex_RemotePull ex_server (ex_req 1 true 2) = Some (srv', res) /\
     pull_state res = RECONSTRUCTION_ERROR /\ frames res = [[1%nat]]) /\
  ~ claimed_no_frame ex_reconstruct ex_cursor (fun _ => ex_frame 0)
      ex_server (ex_req 1 true 2).
Proof.
  assert (Hrun : exists srv' res,
            ex_RemotePull ex_server (ex_req 1 true 2) = Some (srv', res) /\
            pull_state res = RECONSTRUCTION_ERROR /\ frames res = [[1%nat]]).
  { destruct (ex_RemotePull ex_server (ex_req 1 true 2))
      as [[srv' res]|] eqn:Hrun; [|vm_compute in Hrun; discriminate Hrun].
    exists srv', res. split; [done|].
    vm_compute in Hrun. injection Hrun as _ <-. done. }
  split; [exact Hrun|].
  destruct Hrun as (srv' & res & Hrun & Hst & Hfr).
  intros Hclaim. specialize (Hclaim srv' res Hrun Hst).
  rewrite Hfr in Hclaim. discriminate Hclaim.
Qed.

Lemma accumulate_error_response_witness :
  (exists srv' res,
     ex_RemotePull ex_server (ex_req 3 true 2) = Some (srv', res) /\
     pull_state res = LOCK_TIMEOUT_ERROR /\ frames res = []) /\
  (exists srv' res,
     ex_RemotePull ex_server (ex_req 1 true 2) = Some (srv', res) /\
     pull_state res = RECONSTRUCTION_ERROR /\ frames res = [[1%nat]]).
Proof.
  split.
  - destruct (accumulate_error_response ex_reconstruct ex_cursor
                (fun _ => ex_frame 0) ex_server (ex_req 3 true 2) eq_refl)
      as (srv1 & op & op1 & st & Hget & Hrun & Herr & _).
    vm_compute in Hget. injection Hget as <- <-.
    vm_compute in Hrun. injection Hrun as <- <-.
    destruct Herr as (srv' & res & Hpull & Hst & Hfr); [discriminate|].
    by exists srv', res.
  - destruct (accumulate_error_response ex_reconstruct ex_cursor
                (fun _ => ex_frame 0) ex_server (ex_req 1 true 2) eq_refl)
      as (srv1 & op & op1 & st & Hget & Hrun & _ & Hrec).
    vm_compute in Hget. injection Hget as <- <-.
    vm_compute in Hrun. injection Hrun as <- <-.
    destruct (Hrec eq_refl [] [0%nat] [[1%nat]])
      as (srv' & res & Hpull & Hst & Hfr & _).
    + reflexivity.
    + by repeat constructor.
    + unfold reconstructs. simpl. discriminate.
    + simpl. lia.
    + exists srv', res. split; [exact Hpull|]. split; [exact Hst|exact Hfr].
Defined.

(** C2 on the code: a first request with [accumulate] drains the cursor,
    which produced (1) then (0); its one pull meets (0), which does not
    reconstruct, and the response is [RECONSTRUCTION_ERROR], a terminal
    state.  The next request on the same ongoing produce returns the
    buffered (1) with [CURSOR_IN_PROGRESS]. *)
Theorem terminal_state_not_sticky :
  exists srv1 res1 srv2 res2,
    ex_RemotePull ex_server (ex_req 2 true 1) = Some (srv1, res1) /\
    pull_state res1 = RECONSTRUCTION_ERROR /\ frames res1 = [] /\
    ex_RemotePull srv1 (ex_req 2 false 1) = Some (srv2, res2) /\
    pull_state res2 = CURSOR_IN_PROGRESS /\ frames res2 = [[1%nat]].
Proof.
  destruct (ex_RemotePull ex_server (ex_req 2 true 1)) as [[srv1 res1]|] eqn:H1;
    [|vm_compute in H1; discriminate H1].
  destruct (ex_RemotePull srv1 (ex_req 2 false 1)) as [[srv2 res2]|] eqn:H2;
    cycle 1.
  { vm_compute in H1. injection H1 as <- <-. vm_compute in H2. discriminate H2. }
  exists srv1, res1, srv2, res2. split; [done|].
  vm_compute in H1. injection H1 as <- <-.
  vm_compute in H2. injection H2 as <- <-. done.
Qed.

Lemma terminal_state_sticky_unbuffered_witness :
  let op := {| cursor_ := [Raise SerializationError; Produce (ex_frame 1)];
               pull_symbols_ := [()]; frame_ := ex_frame 0;
               cursor_state_ := CURSOR_IN_PROGRESS; accumulation_ := [] |} in
  (Pull ex_reconstruct (Pull ex_reconstruct op).1).2
  = ([], SERIALIZATION_ERROR).
Proof.
  intros op.
  rewrite (terminal_state_sticky_unbuffered ex_reconstruct op);
    [reflexivity | reflexivity | discriminate].
Defined.

(** *** More about the server: batches, order, errors, cleanup *)

Section RemotePullFacts.

Context {TypedValue : Type} {Symbol : Type}.
Variable ReconstructTypedValue : TypedValue -> option TypedValue.
Variable MakeCursor : @RemotePullReq Symbol -> list (@CursorStep TypedValue Symbol).
Variable NewFrame : @RemotePullReq Symbol -> @Frame TypedValue Symbol.

(** What a cursor leaves as its state once the frames before [tl] are
    pulled: exhausted at the end of the cursor, the state of the exception at
    a step that throws. *)
Definition state_after (tl : list (@CursorStep TypedValue Symbol))
  : RemotePullState :=
  match tl with
  | [] => CURSOR_EXHAUSTED
  | Raise e :: _ => state_of_exception e
  | Produce _ :: _ => CURSOR_IN_PROGRESS
  end.

Lemma state_of_exception_terminal e :
  state_of_exception e <> CURSOR_IN_PROGRESS /\
  state_of_exception e <> CURSOR_EXHAUSTED.
Proof. by destruct e. Qed.

(** A batch of at most [n] pulls returns at most [n] frames, and exactly [n]
    when it ends in progress. *)
Lemma PullBatch_count n : forall (op : @OngoingProduce TypedValue Symbol) result,
  (length (frames (PullBatch ReconstructTypedValue n op result).2)
   <= length (frames result) + n)%nat /\
  (pull_state (PullBatch ReconstructTypedValue n op result).2
     = CURSOR_IN_PROGRESS ->
   (0 < n)%nat ->
   length (frames (PullBatch ReconstructTypedValue n op result).2)
   = (length (frames result) + n)%nat) /\
  (n = O -> (PullBatch ReconstructTypedValue n op result).2 = result).
Proof.
  induction n as [|n IH]; intros op result; [cbn; split; [lia|done]|].
  cbn [PullBatch].
  destruct (Pull ReconstructTypedValue op) as [op1 [results st]].
  cbn [snd fst]. case_decide as Hst.
  - cbn [snd frames set_pull_state pull_state]. split; [lia|].
    split; [|done]. intros Hprog. by rewrite Hprog in Hst.
  - destruct (IH op1 (add_frame results (set_pull_state st result)))
      as (Hle & Heq & Hzero).
    cbn [frames add_frame set_pull_state] in *.
    rewrite length_app in *. cbn [length] in *.
    split; [lia|]. split; [|done]. intros Hprog _.
    destruct n as [|n].
    + rewrite Hzero by done. cbn [frames add_frame set_pull_state].
      rewrite length_app. cbn [length]. lia.
    + rewrite Heq by (done || lia). lia.
Qed.

(** A response never holds more frames than the batch size of its request,
    and a response in progress holds exactly that many: a coordinator that
    sees fewer frames than it asked for also sees a terminal pull state. *)
Theorem response_within_batch (srv : @RemoteProduceRpcServer TypedValue Symbol)
    (req : @RemotePullReq Symbol) :
  exists srv' res,
    RemotePull ReconstructTypedValue MakeCursor NewFrame srv req
      = Some (srv', res) /\
    (length (frames res) <= Z.to_nat (batch_size req))%nat /\
    (pull_state res = CURSOR_IN_PROGRESS ->
     length (frames res) = Z.to_nat (batch_size req)) /\
    res_send_old res = send_old req /\ res_send_new res = send_new req.
Proof.
  unfold RemotePull.
  destruct (GetOngoingProduce MakeCursor NewFrame srv req) as [srv1 op].
  unfold RemotePull_on.
  assert (Hflags : forall n (op0 : @OngoingProduce TypedValue Symbol) result,
            res_send_old (PullBatch ReconstructTypedValue n op0 result).2
              = res_send_old result /\
            res_send_new (PullBatch ReconstructTypedValue n op0 result).2
              = res_send_new result).
  { induction n as [|n IH]; intros op0 result; [done|].
    cbn [PullBatch].
    destruct (Pull ReconstructTypedValue op0) as [op1 [results st]].
    cbn [snd fst]. case_decide; [done|].
    destruct (IH op1 (add_frame results (set_pull_state st result))) as [-> ->].
    done. }
  destruct (accumulate req).
  - destruct (Accumulate_returns op) as (op1 & st & -> & Hne & _ & _).
    cbn [mbind option_bind]. case_decide as Hst.
    + cbn [mbind option_bind]. eexists _, _. split; [done|].
      cbn. split; [lia|]. by split.
    + match goal with |- context [PullBatch _ ?n op1 ?r] =>
        destruct (PullBatch_count n op1 r) as (Hle & Heq & Hzero);
        destruct (Hflags n op1 r) as [Hold Hnew];
        destruct (PullBatch ReconstructTypedValue n op1 r) as [op' res] eqn:Hb
      end.
      cbn [mbind option_bind]. eexists _, _. split; [done|].
      cbn [snd frames set_pull_state pull_state length] in *.
      split; [lia|]. split; [|done]. intros Hprog.
      destruct (Z.to_nat (batch_size req)) as [|n] eqn:Hn.
      * rewrite Hzero in Hprog by done. cbn in Hprog. by rewrite Hprog in Hne.
      * rewrite Heq by (done || lia). lia.
  - match goal with |- context [PullBatch _ ?n op ?r] =>
      destruct (PullBatch_count n op r) as (Hle & Heq & Hzero);
      destruct (Hflags n op r) as [Hold Hnew];
      destruct (PullBatch ReconstructTypedValue n op r) as [op' res] eqn:Hb
    end.
    cbn [mbind option_bind]. eexists _, _. split; [done|].
    cbn [snd frames pull_state length] in *.
    split; [lia|]. split; [|done]. intros Hprog.
    destruct (Z.to_nat (batch_size req)) as [|n] eqn:Hn.
    + by rewrite Hzero.
    + rewrite Heq by (done || lia). lia.
Qed.

(** Pulling from a cursor with nothing buffered: the frames come in the
    order of their production, and the batch ends with the state that the
    cursor leaves. *)
Lemma PullBatch_cursor fs : forall n (op : @OngoingProduce TypedValue Symbol)
    result tl,
  accumulation_ op = [] -> cursor_state_ op = CURSOR_IN_PROGRESS ->
  cursor_ op = map Produce fs ++ tl ->
  state_after tl <> CURSOR_IN_PROGRESS ->
  exists op',
    PullBatch ReconstructTypedValue n op result
    = (op',
       {| res_send_old := res_send_old result;
          res_send_new := res_send_new result;
          pull_state :=
            if decide (n = O) then pull_state result
            else if decide (n <= length fs)%nat then CURSOR_IN_PROGRESS
                 else state_after tl;
          frames := frames result
                      ++ map (tuple_of (pull_symbols_ op)) (take n fs) |}) /\
    accumulation_ op' = [] /\ pull_symbols_ op' = pull_symbols_ op /\
    ((n <= length fs)%nat ->
     cursor_state_ op' = CURSOR_IN_PROGRESS /\
     cursor_ op' = map Produce (drop n fs) ++ tl).
Proof.
  induction fs as [|f fs IH]; intros n op result tl Hacc Hst Hcur Htl;
    (destruct n as [|n];
     [exists op; cbn [PullBatch take drop map]; rewrite app_nil_r;
      rewrite decide_True by done;
      split; [by destruct result|]; split; [done|]; split; [done|];
      intros _; by split|]);
    cbn [PullBatch]; unfold Pull; rewrite Hacc; cbn [last];
    unfold PullOneFromCursor;
    rewrite decide_False by (by rewrite Hst; intros H; apply H);
    rewrite Hcur; cbn [map app].
  - destruct tl as [|[f|e] tl]; [| |].
    + cbn [snd set_cursor_state cursor_state_]. rewrite decide_True by done.
      eexists. split.
      { unfold set_pull_state. cbn [take map length state_after].
        rewrite app_nil_r, !decide_False by lia. reflexivity. }
      split; [done|]. split; [done|]. simpl; lia.
    + by cbn in Htl.
    + cbn [snd cursor_state_].
      rewrite decide_True by apply state_of_exception_terminal.
      eexists. split.
      { unfold set_pull_state. cbn [take map length state_after].
        rewrite app_nil_r, !decide_False by lia. reflexivity. }
      split; [done|]. split; [done|]. simpl; lia.
  - cbn [snd fst cursor_state_]. rewrite Hst.
    rewrite decide_False by (by intros H; apply H).
    match goal with |- context [PullBatch _ n ?o ?r] =>
      destruct (IH n o r tl) as (op' & Hrun & Hacc' & Hsym' & Hin) end;
      [done|done|done|done|].
    exists op'. rewrite Hrun. cbn [pull_symbols_ add_frame set_pull_state
      res_send_old res_send_new pull_state frames length take map] in *.
    split; [|split; [done|split; [done|]]].
    + f_equal. f_equal; [|by rewrite <- app_assoc].
      destruct n as [|n]; [done|]. cbn.
      destruct (decide (S n <= length fs)%nat),
        (decide (S (S n) <= S (length fs))%nat); done || lia.
    + intros Hn. apply Hin. lia.
Qed.

(** Without [accumulate], the first request for a key gets the tuples in
    the order in which the cursor produces them; when the batch outruns the
    cursor, the response ends with [CURSOR_EXHAUSTED], or with the state of
    the exception that the cursor raised, after the tuples produced before
    it. *)
Theorem first_pull_in_production_order
    (srv : @RemoteProduceRpcServer TypedValue Symbol)
    (req : @RemotePullReq Symbol) (fs : list (@Frame TypedValue Symbol))
    (tl : list (@CursorStep TypedValue Symbol)) :
  ongoing_produces_ srv !! (tx_id req, plan_id req) = None ->
  accumulate req = false ->
  MakeCursor req = map Produce fs ++ tl ->
  state_after tl <> CURSOR_IN_PROGRESS ->
  exists srv' res,
    RemotePull ReconstructTypedValue MakeCursor NewFrame srv req
      = Some (srv', res) /\
    frames res
      = map (tuple_of (symbols req)) (take (Z.to_nat (batch_size req)) fs) /\
    pull_state res
      = if decide (Z.to_nat (batch_size req) <= length fs)%nat
        then CURSOR_IN_PROGRESS else state_after tl.
Proof.
  intros Hnew Hacc Hcur Htl.
  unfold RemotePull, GetOngoingProduce. rewrite Hnew.
  unfold RemotePull_on. rewrite Hacc.
  match goal with |- context [PullBatch _ ?n ?o ?r] =>
    destruct (PullBatch_cursor fs n o r tl) as (op' & Hrun & _) end;
    [done|done|done|done|].
  rewrite Hrun. cbn [mbind option_bind]. eexists _, _. split; [done|].
  cbn [frames pull_state OngoingProduce_new pull_symbols_ app].
  split; [done|].
  destruct (decide (Z.to_nat (batch_size req) = O)) as [->|Hn]; [|done].
  by rewrite decide_True by lia.
Qed.

(** Two requests in a row for the same key, without [accumulate], return
    together what one request with the sum of their batch sizes returns: the
    second continues where the first stopped. *)
Theorem pulls_continue (srv : @RemoteProduceRpcServer TypedValue Symbol)
    (req1 req2 : @RemotePullReq Symbol) (fs : list (@Frame TypedValue Symbol))
    (tl : list (@CursorStep TypedValue Symbol)) :
  ongoing_produces_ srv !! (tx_id req1, plan_id req1) = None ->
  tx_id req2 = tx_id req1 -> plan_id req2 = plan_id req1 ->
  accumulate req1 = false -> accumulate req2 = false ->
  MakeCursor req1 = map Produce fs ++ tl ->
  state_after tl <> CURSOR_IN_PROGRESS ->
  (Z.to_nat (batch_size req1) <= length fs)%nat ->
  exists srv1 res1 srv2 res2,
    RemotePull ReconstructTypedValue MakeCursor NewFrame srv req1
      = Some (srv1, res1) /\
    RemotePull ReconstructTypedValue MakeCursor NewFrame srv1 req2
      = Some (srv2, res2) /\
    frames res1 ++ frames res2
      = map (tuple_of (symbols req1))
          (take (Z.to_nat (batch_size req1) + Z.to_nat (batch_size req2)) fs).
Proof.
  intros Hnew Htx Hplan Hacc1 Hacc2 Hcur Htl Hn1.
  unfold RemotePull at 1. unfold GetOngoingProduce. rewrite Hnew.
  unfold RemotePull_on. rewrite Hacc1.
  match goal with |- context [PullBatch _ ?n ?o ?r] =>
    destruct (PullBatch_cursor fs n o r tl)
      as (op1 & Hrun1 & Hacc1' & Hsym1 & Hin1) end; [done|done|done|done|].
  destruct (Hin1 Hn1) as [Hst1 Hcur1].
  rewrite Hrun1. cbn [mbind option_bind ongoing_produces_].
  destruct (PullBatch_cursor (drop (Z.to_nat (batch_size req1)) fs)
              (Z.to_nat (batch_size req2)) op1
              {| res_send_old := send_old req2; res_send_new := send_new req2;
                 pull_state := CURSOR_IN_PROGRESS; frames := [] |} tl)
    as (op2 & Hrun2 & _); [done|done|done|done|].
  eexists _, _, _, _. split; [reflexivity|].
  unfold RemotePull, GetOngoingProduce. cbn [ongoing_produces_].
  rewrite Htx, Hplan, lookup_insert_eq.
  unfold RemotePull_on. rewrite Hacc2, Hrun2. cbn [mbind option_bind].
  split; [reflexivity|].
  cbn [frames app OngoingProduce_new pull_symbols_] in *.
  rewrite Hsym1. cbn [pull_symbols_].
  by rewrite <- map_app, take_plus.
Qed.

Lemma RemotePull_on_returns (op : @OngoingProduce TypedValue Symbol)
    (req : @RemotePullReq Symbol) :
  exists op' res, RemotePull_on ReconstructTypedValue op req = Some (op', res).
Proof.
  unfold RemotePull_on. destruct (accumulate req).
  - destruct (Accumulate_returns op) as (op1 & st & -> & _).
    cbn [mbind option_bind]. case_decide; [by eexists _, _|].
    match goal with |- context [PullBatch _ ?n op1 ?r] =>
      destruct (PullBatch ReconstructTypedValue n op1 r) as [o r'] end.
    by exists o, r'.
  - match goal with |- context [PullBatch _ ?n op ?r] =>
      destruct (PullBatch ReconstructTypedValue n op r) as [o r'] end.
    by exists o, r'.
Qed.

(** A request changes the ongoing produce of its own key only, and that
    key has an ongoing produce afterwards. *)
Theorem pull_touches_own_key (srv : @RemoteProduceRpcServer TypedValue Symbol)
    (req : @RemotePullReq Symbol) :
  exists srv' res,
    RemotePull ReconstructTypedValue MakeCursor NewFrame srv req
      = Some (srv', res) /\
    is_Some (ongoing_produces_ srv' !! (tx_id req, plan_id req)) /\
    forall key, key <> (tx_id req, plan_id req) ->
      ongoing_produces_ srv' !! key = ongoing_produces_ srv !! key.
Proof.
  unfold RemotePull, GetOngoingProduce.
  destruct (ongoing_produces_ srv !! (tx_id req, plan_id req)) as [op|] eqn:Hop.
  - destruct (RemotePull_on_returns op req) as (op' & res & ->).
    cbn [mbind option_bind].
    eexists _, _. split; [done|]. cbn [ongoing_produces_].
    split; [by rewrite lookup_insert_eq|].
    intros key Hkey. by rewrite lookup_insert_ne.
  - destruct (RemotePull_on_returns
                (OngoingProduce_new MakeCursor NewFrame req) req)
      as (op' & res & ->).
    cbn [mbind option_bind].
    eexists _, _. split; [done|]. cbn [ongoing_produces_].
    split; [by rewrite lookup_insert_eq|].
    intros key Hkey. by rewrite !lookup_insert_ne.
Qed.

(** Deleting the selected keys of a list of entries from a map. *)
Lemma foldl_delete_lookup {A} (sel : N * Z -> bool)
    (l : list (N * Z * A)) : forall (m : gmap (N * Z) A) key,
  foldl (fun access kv => if sel kv.1 then delete kv.1 access else access) m l
    !! key
  = if sel key && bool_decide (key ∈ l.*1) then None else m !! key.
Proof.
  induction l as [|[k v] l IH]; intros m key.
  - cbn. by rewrite andb_false_r.
  - cbn [foldl fmap list_fmap]. rewrite IH. cbn [fst].
    destruct (decide (key = k)) as [->|Hne].
    + rewrite (bool_decide_eq_true_2 (k ∈ k :: l.*1)) by left.
      destruct (sel k); cbn [andb]; [|done].
      rewrite lookup_delete_eq. by destruct (bool_decide _).
    + rewrite (bool_decide_ext (key ∈ k :: l.*1) (key ∈ l.*1))
        by (rewrite elem_of_cons; split; [by intros [?|?]|by right]).
      destruct (sel key && bool_decide (key ∈ l.*1)); [done|].
      destruct (sel k); [|done]. by rewrite lookup_delete_ne.
Qed.

Lemma cleared_lookup (oldest_active : N)
    (srv : @RemoteProduceRpcServer TypedValue Symbol) (key : N * Z) :
  ongoing_produces_ (ClearTransactionalCache oldest_active srv) !! key
  = if (key.1 <? oldest_active)%N then None
    else ongoing_produces_ srv !! key.
Proof.
  unfold ClearTransactionalCache. cbn [ongoing_produces_].
  rewrite (foldl_delete_lookup (fun k => (k.1 <? oldest_active)%N)).
  destruct (key.1 <? oldest_active)%N; [|done]. cbn [andb].
  case_bool_decide as Hin; [done|].
  destruct (ongoing_produces_ srv !! key) as [v|] eqn:Hlook; [|done].
  exfalso. apply Hin. apply list_elem_of_fmap. exists (key, v).
  split; [done|]. by apply elem_of_map_to_list.
Qed.

(** Two cleanups in a row are one cleanup for the larger of the two
    transaction ids; in particular a repeated cleanup changes nothing. *)
Theorem cleanup_composes (o1 o2 : N)
    (srv : @RemoteProduceRpcServer TypedValue Symbol) :
  ClearTransactionalCache o1 (ClearTransactionalCache o2 srv)
  = ClearTransactionalCache (N.max o1 o2) srv.
Proof.
  assert (Heta : forall s1 s2 : @RemoteProduceRpcServer TypedValue Symbol,
            ongoing_produces_ s1 = ongoing_produces_ s2 -> s1 = s2).
  { intros [m1] [m2]. cbn. by intros ->. }
  apply Heta. apply map_eq. intros key. rewrite !cleared_lookup.
  destruct (key.1 <? o1)%N eqn:H1, (key.1 <? o2)%N eqn:H2,
    (key.1 <? N.max o1 o2)%N eqn:H3; try done;
    repeat match goal with
           | H : (_ <? _)%N = true |- _ => apply N.ltb_lt in H
           | H : (_ <? _)%N = false |- _ => apply N.ltb_ge in H
           end; lia.
Qed.

(** The response to a request depends on the server only through the
    ongoing produce of the request's key. *)
Lemma RemotePull_response (srv : @RemoteProduceRpcServer TypedValue Symbol)
    (req : @RemotePullReq Symbol) :
  snd <$> RemotePull ReconstructTypedValue MakeCursor NewFrame srv req
  = snd <$> RemotePull_on ReconstructTypedValue
              (default (OngoingProduce_new MakeCursor NewFrame req)
                 (ongoing_produces_ srv !! (tx_id req, plan_id req))) req.
Proof.
  unfold RemotePull, GetOngoingProduce.
  destruct (ongoing_produces_ srv !! (tx_id req, plan_id req)) as [op|];
    unfold default; cbn [from_option id];
    match goal with |- context [RemotePull_on _ ?o req] =>
      destruct (RemotePull_on ReconstructTypedValue o req) as [[op' res]|] end;
    reflexivity.
Qed.

(** After a cleanup, a request of a transaction below the oldest active
    one is answered from a new cursor, as on a server that never saw it; a
    request of any other transaction is answered as without the cleanup. *)
Theorem pull_after_cleanup (oldest_active : N)
    (srv : @RemoteProduceRpcServer TypedValue Symbol)
    (req : @RemotePullReq Symbol) :
  snd <$> RemotePull ReconstructTypedValue MakeCursor NewFrame
            (ClearTransactionalCache oldest_active srv) req
  = if (tx_id req <? oldest_active)%N
    then snd <$> RemotePull ReconstructTypedValue MakeCursor NewFrame
                   {| ongoing_produces_ := ∅ |} req
    else snd <$> RemotePull ReconstructTypedValue MakeCursor NewFrame srv req.
Proof.
  rewrite !RemotePull_response, cleared_lookup. cbn [fst ongoing_produces_].
  destruct (tx_id req <? oldest_active)%N; [|done].
  by rewrite lookup_empty.
Qed.

End RemotePullFacts.

Lemma first_pull_in_production_order_witness :
  exists srv' res,
    ex_RemotePull ex_server (ex_req 3 false 5) = Some (srv', res) /\
    frames res = [[1%nat]] /\ pull_state res = LOCK_TIMEOUT_ERROR.
Proof.
  destruct (first_pull_in_production_order ex_reconstruct ex_cursor
              (fun _ => ex_frame 0) ex_server (ex_req 3 false 5)
              [ex_frame 1] [Raise LockTimeoutException])
    as (srv' & res & Hrun & Hframes & Hstate);
    [reflexivity | reflexivity | reflexivity | discriminate |].
  by exists srv', res.
Defined.

Lemma pulls_continue_witness :
  exists srv1 res1 srv2 res2,
    ex_RemotePull ex_server (ex_req 2 false 1) = Some (srv1, res1) /\
    ex_RemotePull srv1 (ex_req 2 false 3) = Some (srv2, res2) /\
    frames res1 ++ frames res2 = [[1%nat]; [0%nat]].
Proof.
  apply (pulls_continue ex_reconstruct ex_cursor (fun _ => ex_frame 0)
           ex_server (ex_req 2 false 1) (ex_req 2 false 3)
           [ex_frame 1; ex_frame 0] []);
    [reflexivity | reflexivity | reflexivity | reflexivity | reflexivity
    | reflexivity | discriminate | simpl; lia].
Defined.

End distributed.

Module config.

(** [std::numeric_limits<int32_t>::max()]. *)
Definition int32_max : Z := 2 ^ 31 - 1.

(** Modelled from the spec: the macro [FLAG_IN_RANGE(lower, upper)] of
    [utils/flag_validation.hpp] is not among the sources.  The specification
    states the valid values of a validated option as a bound on the value
    ("int, >= 60"); the macro is taken to accept exactly the values between
    its two bounds, the bounds included. *)
Definition FLAG_IN_RANGE (lower_bound upper_bound value : Z) : bool :=
  (lower_bound <=? value) && (value <=? upper_bound).

(** A flag defined by [DEFINE_VALIDATED_int32(name, default, description,
    validator)]. *)
Record ValidatedInt32 := mkValidatedInt32 {
  flag_default : Z;
  flag_description : string;
  flag_validator : Z -> bool
}.

(** [DEFINE_VALIDATED_int32(snapshot_cycle_sec, 3600, "...",
    FLAG_IN_RANGE(1, std::numeric_limits<int32_t>::max()))]. *)
Definition snapshot_cycle_sec : ValidatedInt32 :=
  {| flag_default := 3600;
     flag_description :=
       "Amount of time between two snapshots, in seconds (min 60).";
     flag_validator := FLAG_IN_RANGE 1 int32_max |}.

(** C7 on the code: the default of [snapshot_cycle_sec] is 3600 and passes
    the validation, but the validation also accepts every value from 1 to 59,
    such as 30, although the flag's description says "min 60". *)
Theorem snapshot_cycle_sec_accepts_below_60 :
  flag_default snapshot_cycle_sec = 3600 /\
  flag_validator snapshot_cycle_sec 3600 = true /\
  flag_validator snapshot_cycle_sec 30 = true /\
  (forall value, 1 <= value < 60 ->
     flag_validator snapshot_cycle_sec value = true) /\
  (forall value, value < 1 -> flag_validator snapshot_cycle_sec value = false).
Proof.
  split; [done|]. split; [done|]. split; [done|].
  unfold snapshot_cycle_sec, FLAG_IN_RANGE, int32_max. cbn [flag_validator].
  split; intros value Hv.
  - apply andb_true_iff. split; lia.
  - apply andb_false_iff. left. lia.
Qed.

Lemma snapshot_cycle_sec_accepts_below_60_witness :
  flag_validator snapshot_cycle_sec 59 = true /\
  flag_validator snapshot_cycle_sec 0 = false.
Proof.
  destruct snapshot_cycle_sec_accepts_below_60 as (_ & _ & _ & Hlow & Hrej).
  split; [apply Hlow; lia | apply Hrej; lia].
Defined.

End config.

Module glue.

Local Set Warnings "-register-all".

(** [communication::bolt::ValueException]. *)
Inductive ValueException := UnsupportedConversion.

(** [std::map::emplace]: nothing happens when the key is already there. *)
Definition emplace {A} (k : string) (v : A) (m : gmap string A)
  : gmap string A :=
  match m !! k with
  | Some _ => m
  | None => <[k := v]> m
  end.

(** A loop that converts every element of a vector and appends the result,
    leaving at the first conversion that throws. *)
Fixpoint convert_all {E A B} (f : A -> result E B) (l : list A)
  : result E (list B) :=
  match l with
  | [] => Ok []
  | x :: xs => y ← f x; ys ← convert_all f xs; Ok (y :: ys)
  end.

(** *** Folds over a map *)

Lemma map_fold_andb {A} (p : A -> bool) (m : gmap string A) :
  map_fold (fun _ v acc => p v && acc) true m = true ->
  forall k v, m !! k = Some v -> p v = true.
Proof.
  apply (map_fold_weak_ind
           (fun r (m : gmap string A) =>
              r = true -> forall k v, m !! k = Some v -> p v = true)).
  - intros _ k v Hk. by rewrite lookup_empty in Hk.
  - intros i x m' r Hi IH Hr k v Hk.
    apply andb_true_iff in Hr as [Hx Hr].
    destruct (decide (k = i)) as [->|Hne].
    + rewrite lookup_insert_eq in Hk. by injection Hk as <-.
    + rewrite lookup_insert_ne in Hk by done. by apply (IH Hr k).
Qed.

Lemma map_fold_sum_le {A} (h : A -> nat) (m : gmap string A) k v :
  m !! k = Some v ->
  (h v <= map_fold (fun _ v acc => h v + acc) O m)%nat.
Proof.
  revert k v.
  apply (map_fold_weak_ind
           (fun r (m : gmap string A) =>
              forall k v, m !! k = Some v -> (h v <= r)%nat)).
  - intros k v Hk. by rewrite lookup_empty in Hk.
  - intros i x m' r Hi IH k v Hk.
    destruct (decide (k = i)) as [->|Hne].
    + rewrite lookup_insert_eq in Hk. injection Hk as <-. lia.
    + rewrite lookup_insert_ne in Hk by done.
      specialize (IH k v Hk). lia.
Qed.

Lemma foldr_sum_le {A} (h : A -> nat) (l : list A) v :
  v ∈ l -> (h v <= foldr (fun v acc => h v + acc) O l)%nat.
Proof.
  induction l as [|x l IH]; intros Hin; [by apply elem_of_nil in Hin|].
  apply elem_of_cons in Hin as [->|Hin]; cbn [foldr]; [lia|].
  specialize (IH Hin). lia.
Qed.

(** Filling an empty map by [emplace] from the entries of a map gives the
    map of the converted values. *)
Lemma map_fold_emplace {A B} (f : A -> B) (m : gmap string A) :
  map_fold (fun k v acc => emplace k (f v) acc) ∅ m = f <$> m.
Proof.
  apply (map_fold_weak_ind
           (fun r (m : gmap string A) => r = f <$> m)).
  - by rewrite fmap_empty.
  - intros i x m' r Hi ->. unfold emplace.
    rewrite lookup_fmap, Hi. cbn. by rewrite fmap_insert.
Qed.

Lemma map_fold_emplace_result {E A B} (f : A -> result E B) (g : A -> B)
    (m : gmap string A) :
  (forall k v, m !! k = Some v -> f v = Ok (g v)) ->
  map_fold (fun k v (acc : result E (gmap string B)) =>
              map ← acc; pv ← f v; Ok (emplace k pv map)) (Ok ∅) m
  = Ok (g <$> m).
Proof.
  apply (map_fold_weak_ind
           (fun r (m : gmap string A) =>
              (forall k v, m !! k = Some v -> f v = Ok (g v)) ->
              r = Ok (g <$> m))).
  - intros _. by rewrite fmap_empty.
  - intros i x m' r Hi IH Hall.
    rewrite IH; cycle 1.
    { intros k v Hk. apply (Hall k). rewrite lookup_insert_ne; [done|].
      intros ->. congruence. }
    cbn [mbind result_bind].
    rewrite (Hall i x) by apply lookup_insert_eq. cbn [mbind result_bind].
    unfold emplace. rewrite lookup_fmap, Hi. cbn. by rewrite fmap_insert.
Qed.

Lemma convert_all_map {E A B} (f : A -> result E B) (g : A -> B) (l : list A) :
  (forall x, x ∈ l -> f x = Ok (g x)) -> convert_all f l = Ok (map g l).
Proof.
  induction l as [|x l IH]; intros Hall; [done|].
  cbn [convert_all]. rewrite (Hall x) by left. cbn [mbind result_bind].
  rewrite IH by (intros y Hy; apply Hall; by right). done.
Qed.

Section Values.

(** C++ [double]; the conversions only copy it. *)
Context {double : Type}.

(** The Bolt graph elements; the conversions to property values only
    reject them. *)
Context {Vertex Edge UnboundedEdge Path : Type}.

(** [communication::bolt::Value]; [int] is [int64_t], a map is a
    [std::map<std::string, Value>]. *)
Inductive Value :=
  | VNull
  | VBool (b : bool)
  | VInt (i : Z)
  | VDouble (d : double)
  | VString (s : string)
  | VList (l : list Value)
  | VMap (m : gmap string Value)
  | VVertex (v : Vertex)
  | VEdge (e : Edge)
  | VUnboundedEdge (e : UnboundedEdge)
  | VPath (p : Path).

(** [PropertyValue]. *)
Inductive PropertyValue :=
  | PNull
  | PBool (b : bool)
  | PInt (i : Z)
  | PDouble (d : double)
  | PString (s : string)
  | PList (l : list PropertyValue)
  | PMap (m : gmap string PropertyValue).

(** [PropertyValue ToPropertyValue(const Value &value)]. *)
Fixpoint ToPropertyValue (value : Value) : result ValueException PropertyValue :=
  match value with
  | VNull => Ok PNull
  | VBool b => Ok (PBool b)
  | VInt i => Ok (PInt i)
  | VDouble d => Ok (PDouble d)
  | VString s => Ok (PString s)
  | VList l => vec ← convert_all ToPropertyValue l; Ok (PList vec)
  | VMap m =>
      map ← map_fold (fun k v (acc : result ValueException _) =>
                        map ← acc; pv ← ToPropertyValue v;
                        Ok (emplace k pv map))
                     (Ok ∅) m;
      Ok (PMap map)
  | VVertex _ | VEdge _ | VUnboundedEdge _ | VPath _ =>
      Err UnsupportedConversion
  end.

(** [Value ToBoltValue(const PropertyValue &value)]. *)
Fixpoint ToBoltValue (value : PropertyValue) : Value :=
  match value with
  | PNull => VNull
  | PBool b => VBool b
  | PInt i => VInt i
  | PDouble d => VDouble d
  | PString s => VString s
  | PList l => VList (map ToBoltValue l)
  | PMap m =>
      VMap (map_fold (fun k v dv_map => emplace k (ToBoltValue v) dv_map) ∅ m)
  end.

(** The Bolt values whose type is null, bool, int, double, string, list or
    map, with the elements of lists and maps of these types again. *)
Fixpoint supported (value : Value) : bool :=
  match value with
  | VNull | VBool _ | VInt _ | VDouble _ | VString _ => true
  | VList l => forallb supported l
  | VMap m => map_fold (fun _ v acc => supported v && acc) true m
  | VVertex _ | VEdge _ | VUnboundedEdge _ | VPath _ => false
  end.

(** The number of constructors of a value, to reason by induction on it. *)
Fixpoint Value_size (value : Value) : nat :=
  match value with
  | VList l => S (foldr (fun v acc => Value_size v + acc)%nat O l)
  | VMap m => S (map_fold (fun _ v acc => Value_size v + acc)%nat O m)
  | _ => 1
  end.

(** The property value that a supported value converts to. *)
Definition converted (value : Value) : PropertyValue :=
  match ToPropertyValue value with
  | Ok pv => pv
  | Err _ => PNull
  end.

Lemma ToPropertyValue_VList l :
  ToPropertyValue (VList l)
  = (vec ← convert_all ToPropertyValue l; Ok (PList vec)).
Proof. reflexivity. Qed.

Lemma ToPropertyValue_VMap m :
  ToPropertyValue (VMap m)
  = (map ← map_fold (fun k v (acc : result ValueException _) =>
                       map ← acc; pv ← ToPropertyValue v;
                       Ok (emplace k pv map)) (Ok ∅) m;
     Ok (PMap map)).
Proof. reflexivity. Qed.

Lemma ToBoltValue_PMap m :
  ToBoltValue (PMap m)
  = VMap (map_fold (fun k v dv_map => emplace k (ToBoltValue v) dv_map) ∅ m).
Proof. reflexivity. Qed.

Lemma supported_VList l : supported (VList l) = forallb supported l.
Proof. reflexivity. Qed.

Lemma supported_VMap m :
  supported (VMap m) = map_fold (fun _ v acc => supported v && acc) true m.
Proof. reflexivity. Qed.

Lemma Value_size_VList l :
  Value_size (VList l) = S (foldr (fun v acc => Value_size v + acc)%nat O l).
Proof. reflexivity. Qed.

Lemma Value_size_VMap m :
  Value_size (VMap m)
  = S (map_fold (fun _ v acc => Value_size v + acc)%nat O m).
Proof. reflexivity. Qed.

Lemma round_trip_sized (n : nat) : forall value,
  (Value_size value < n)%nat -> supported value = true ->
  ToPropertyValue value = Ok (converted value) /\
  ToBoltValue (converted value) = value.
Proof.
  induction n as [|n IH]; intros value Hsize Hsup; [lia|].
  destruct value as [|b|i|d|s|l|m|v|e|e|p]; try done.
  - (* list *)
    rewrite supported_VList in Hsup. rewrite Value_size_VList in Hsize.
    assert (Helem : forall v, v ∈ l ->
              ToPropertyValue v = Ok (converted v) /\
              ToBoltValue (converted v) = v).
    { intros v Hv. apply IH.
      - pose proof (foldr_sum_le Value_size l v Hv). lia.
      - rewrite forallb_forall in Hsup. apply Hsup. by apply list_elem_of_In. }
    assert (Hconv : ToPropertyValue (VList l) = Ok (PList (map converted l))).
    { rewrite ToPropertyValue_VList.
      rewrite (convert_all_map ToPropertyValue converted)
        by (intros v Hv; by apply Helem).
      done. }
    unfold converted at 1 2. rewrite Hconv. split; [done|].
    cbn [ToBoltValue]. f_equal. rewrite map_map.
    rewrite <- (map_id l) at 2. apply map_ext_in.
    intros v Hv. apply Helem. by apply list_elem_of_In.
  - (* map *)
    rewrite supported_VMap in Hsup. rewrite Value_size_VMap in Hsize.
    assert (Helem : forall k v, m !! k = Some v ->
              ToPropertyValue v = Ok (converted v) /\
              ToBoltValue (converted v) = v).
    { intros k v Hk. apply IH.
      - pose proof (map_fold_sum_le Value_size m k v Hk). lia.
      - by apply (map_fold_andb supported m Hsup k). }
    assert (Hconv : ToPropertyValue (VMap m) = Ok (PMap (converted <$> m))).
    { rewrite ToPropertyValue_VMap.
      rewrite (map_fold_emplace_result ToPropertyValue converted)
        by (intros k v Hk; by apply (Helem k)).
      done. }
    unfold converted at 1 2. rewrite Hconv. split; [done|].
    rewrite ToBoltValue_PMap, map_fold_emplace. f_equal.
    apply map_eq. intros k. rewrite !lookup_fmap.
    destruct (m !! k) as [v|] eqn:Hk; [|done]. cbn.
    f_equal. by apply (Helem k).
Qed.

(** C10: converting a Bolt value of a supported type to a property value and
    back gives the value again; converting a Bolt vertex, edge, unbounded
    edge or path to a property value raises a value-conversion error. *)
Theorem bolt_property_round_trip :
  (forall value,
     supported value = true ->
     exists pv, ToPropertyValue value = Ok pv /\ ToBoltValue pv = value) /\
  (forall v, ToPropertyValue (VVertex v) = Err UnsupportedConversion) /\
  (forall e, ToPropertyValue (VEdge e) = Err UnsupportedConversion) /\
  (forall e, ToPropertyValue (VUnboundedEdge e) = Err UnsupportedConversion) /\
  (forall p, ToPropertyValue (VPath p) = Err UnsupportedConversion).
Proof.
  split; [|done].
  intros value Hsup. exists (converted value).
  by apply (round_trip_sized (S (Value_size value))); [lia|].
Qed.

End Values.

Lemma bolt_property_round_trip_witness :
  let value : @Value Z unit unit unit unit :=
    VMap {[ "name"%string := VString "Ann";
            "tags"%string := VList [VInt 1; VNull; VDouble 2; VBool true] ]} in
  exists pv, ToPropertyValue value = Ok pv /\ ToBoltValue pv = value.
Proof.
  intros value.
  destruct (@bolt_property_round_trip Z unit unit unit unit) as [Hround _].
  apply Hround. vm_compute. reflexivity.
Defined.

(** *** The conversions in the other direction, and their errors *)

Lemma map_fold_andb_true {A} (p : A -> bool) (m : gmap string A) :
  (forall k v, m !! k = Some v -> p v = true) ->
  map_fold (fun _ v acc => p v && acc) true m = true.
Proof.
  apply (map_fold_weak_ind
           (fun r (m : gmap string A) =>
              (forall k v, m !! k = Some v -> p v = true) -> r = true)).
  - done.
  - intros i x m' r Hi IH Hall.
    rewrite (Hall i x) by apply lookup_insert_eq.
    rewrite IH; [done|]. intros k v Hk. apply (Hall k).
    rewrite lookup_insert_ne; [done|]. intros ->. congruence.
Qed.

Lemma map_fold_andb_false {A} (p : A -> bool) (m : gmap string A) :
  map_fold (fun _ v acc => p v && acc) true m = false ->
  exists k v, m !! k = Some v /\ p v = false.
Proof.
  apply (map_fold_weak_ind
           (fun r (m : gmap string A) =>
              r = false -> exists k v, m !! k = Some v /\ p v = false)).
  - done.
  - intros i x m' r Hi IH Hr.
    destruct (p x) eqn:Hx.
    + destruct (IH Hr) as (k & v & Hk & Hv). exists k, v. split; [|done].
      rewrite lookup_insert_ne; [done|]. intros ->. congruence.
    + exists i, x. by rewrite lookup_insert_eq.
Qed.

(** One failing conversion makes the loop over a map fail. *)
Lemma map_fold_emplace_fails {A B} (f : A -> result ValueException B)
    (m : gmap string A) :
  (exists k v, m !! k = Some v /\ f v = Err UnsupportedConversion) ->
  map_fold (fun k v (acc : result ValueException (gmap string B)) =>
              map ← acc; pv ← f v; Ok (emplace k pv map)) (Ok ∅) m
  = Err UnsupportedConversion.
Proof.
  apply (map_fold_weak_ind
           (fun r (m : gmap string A) =>
              (exists k v, m !! k = Some v /\ f v = Err UnsupportedConversion)
              -> r = Err UnsupportedConversion)).
  - intros (k & v & Hk & _). by rewrite lookup_empty in Hk.
  - intros i x m' r Hi IH (k & v & Hk & Hv).
    destruct (decide (k = i)) as [->|Hne].
    + rewrite lookup_insert_eq in Hk. injection Hk as ->.
      destruct r as [acc|[]]; cbn [mbind result_bind]; [|done].
      by rewrite Hv.
    + rewrite lookup_insert_ne in Hk by done.
      rewrite IH by (by exists k, v). done.
Qed.

Lemma convert_all_fails {A B} (f : A -> result ValueException B) (l : list A) :
  (exists x, x ∈ l /\ f x = Err UnsupportedConversion) ->
  convert_all f l = Err UnsupportedConversion.
Proof.
  induction l as [|y l IH]; intros (x & Hin & Hx).
  - by apply elem_of_nil in Hin.
  - cbn [convert_all]. destruct (f y) as [b|[]] eqn:Hy; [|done].
    cbn [mbind result_bind].
    apply elem_of_cons in Hin as [->|Hin]; [congruence|].
    rewrite IH by (by exists x). done.
Qed.

Lemma convert_all_inverse {E A B} (f : A -> result E B) (g : B -> A)
    (l : list B) :
  (forall x, x ∈ l -> f (g x) = Ok x) -> convert_all f (map g l) = Ok l.
Proof.
  induction l as [|x l IH]; intros Hall; [done|].
  cbn [map convert_all]. rewrite (Hall x) by left. cbn [mbind result_bind].
  rewrite IH by (intros y Hy; apply Hall; by right). done.
Qed.

Section MoreValues.

Context {double : Type}.
Context {Vertex Edge UnboundedEdge Path : Type}.

Local Notation "'BoltValue'" :=
  (@Value double Vertex Edge UnboundedEdge Path) (only parsing).
Local Notation "'Property'" := (@PropertyValue double) (only parsing).

(** The number of constructors of a property value. *)
Fixpoint PropertyValue_size (value : Property) : nat :=
  match value with
  | PList l => S (foldr (fun v acc => PropertyValue_size v + acc)%nat O l)
  | PMap m => S (map_fold (fun _ v acc => PropertyValue_size v + acc)%nat O m)
  | _ => 1
  end.

Lemma PropertyValue_size_PList l :
  PropertyValue_size (PList l)
  = S (foldr (fun v acc => PropertyValue_size v + acc)%nat O l).
Proof. reflexivity. Qed.

Lemma PropertyValue_size_PMap m :
  PropertyValue_size (PMap m)
  = S (map_fold (fun _ v acc => PropertyValue_size v + acc)%nat O m).
Proof. reflexivity. Qed.

Lemma ToBoltValue_PMap_fmap (m : gmap string Property) :
  ToBoltValue (PMap m) = (VMap (ToBoltValue <$> m) : BoltValue).
Proof. rewrite ToBoltValue_PMap. by rewrite map_fold_emplace. Qed.

Lemma property_round_trip_sized (n : nat) : forall value : Property,
  (PropertyValue_size value < n)%nat ->
  ToPropertyValue (ToBoltValue value : BoltValue) = Ok value /\
  supported (ToBoltValue value : BoltValue) = true.
Proof.
  induction n as [|n IH]; intros value Hsize; [lia|].
  destruct value as [|b|i|d|s|l|m]; try done.
  - rewrite PropertyValue_size_PList in Hsize.
    assert (Helem : forall v, v ∈ l ->
              ToPropertyValue (ToBoltValue v : BoltValue) = Ok v /\
              supported (ToBoltValue v : BoltValue) = true).
    { intros v Hv. apply IH.
      pose proof (foldr_sum_le PropertyValue_size l v Hv). lia. }
    cbn [ToBoltValue]. split.
    + rewrite ToPropertyValue_VList.
      rewrite (convert_all_inverse ToPropertyValue ToBoltValue)
        by (intros v Hv; by apply Helem).
      done.
    + rewrite supported_VList. apply forallb_forall. intros v Hv.
      apply in_map_iff in Hv as (pv & <- & Hpv).
      apply Helem. by apply list_elem_of_In.
  - rewrite PropertyValue_size_PMap in Hsize.
    assert (Helem : forall k v, m !! k = Some v ->
              ToPropertyValue (ToBoltValue v : BoltValue) = Ok v /\
              supported (ToBoltValue v : BoltValue) = true).
    { intros k v Hk. apply IH.
      pose proof (map_fold_sum_le PropertyValue_size m k v Hk). lia. }
    rewrite ToBoltValue_PMap_fmap. split.
    + rewrite ToPropertyValue_VMap.
      rewrite (map_fold_emplace_result ToPropertyValue converted); cycle 1.
      { intros k v Hk. rewrite lookup_fmap in Hk.
        destruct (m !! k) as [pv|] eqn:Hpv; [|done]. injection Hk as <-.
        unfold converted. by destruct (Helem k pv Hpv) as [-> _]. }
      cbn [mbind result_bind]. do 2 f_equal.
      apply map_eq. intros k. rewrite !lookup_fmap.
      destruct (m !! k) as [pv|] eqn:Hpv; [|done]. cbn. f_equal.
      unfold converted. by destruct (Helem k pv Hpv) as [-> _].
    + rewrite supported_VMap. apply map_fold_andb_true.
      intros k v Hk. rewrite lookup_fmap in Hk.
      destruct (m !! k) as [pv|] eqn:Hpv; [|done]. injection Hk as <-.
      by apply (Helem k).
Qed.

(** Every property value survives the conversion to a Bolt value and back,
    and its Bolt value holds no vertex, edge or path at any depth. *)
Theorem property_bolt_round_trip (value : Property) :
  ToPropertyValue (ToBoltValue value : BoltValue) = Ok value /\
  supported (ToBoltValue value : BoltValue) = true.
Proof.
  apply (property_round_trip_sized (S (PropertyValue_size value))). lia.
Qed.

Lemma unsupported_sized (n : nat) : forall value : BoltValue,
  (Value_size value < n)%nat -> supported value = false ->
  ToPropertyValue value = Err UnsupportedConversion.
Proof.
  induction n as [|n IH]; intros value Hsize Hsup; [lia|].
  destruct value as [|b|i|d|s|l|m|v|e|e|p]; try done.
  - rewrite supported_VList in Hsup. rewrite Value_size_VList in Hsize.
    rewrite ToPropertyValue_VList.
    rewrite convert_all_fails; [done|].
    assert (Hex : exists x, In x l /\ supported x = false).
    { clear -Hsup. induction l as [|x l IHl]; [done|].
      cbn [forallb] in Hsup. apply andb_false_iff in Hsup as [Hx|Hl].
      - exists x. split; [by left|done].
      - destruct (IHl Hl) as (y & Hy & Hys). exists y. split; [by right|done]. }
    destruct Hex as (x & Hin & Hx). apply list_elem_of_In in Hin.
    exists x. split; [done|]. apply IH; [|done].
    pose proof (foldr_sum_le Value_size l x Hin). lia.
  - rewrite supported_VMap in Hsup. rewrite Value_size_VMap in Hsize.
    rewrite ToPropertyValue_VMap.
    rewrite map_fold_emplace_fails; [done|].
    destruct (map_fold_andb_false supported m Hsup) as (k & v & Hk & Hv).
    exists k, v. split; [done|]. apply IH; [|done].
    pose proof (map_fold_sum_le Value_size m k v Hk). lia.
Qed.

(** [ToPropertyValue] raises exactly on the Bolt values that hold a vertex,
    an edge, an unbounded edge or a path at some depth, inside lists and
    maps too; on every other value it returns. *)
Theorem ToPropertyValue_raises_iff (value : BoltValue) :
  (ToPropertyValue value = Err UnsupportedConversion <->
   supported value = false) /\
  ((exists pv, ToPropertyValue value = Ok pv) <-> supported value = true).
Proof.
  destruct (supported value) eqn:Hsup.
  - destruct (round_trip_sized (S (Value_size value)) value) as [Hok _];
      [lia|done|].
    rewrite Hok. split; split; try done. intros _. by eexists.
  - rewrite (unsupported_sized (S (Value_size value)) value) by (lia || done).
    split; split; try done. by intros [pv Hpv].
Qed.

End MoreValues.

(** *** Bolt values and query values *)

Section TypedValues.

Context {double : Type}.
Context {Vertex Edge UnboundedEdge Path : Type}.

(** The accessors a query value holds for a vertex, an edge and a path, and
    [storage::View]. *)
Context {VertexAccessor EdgeAccessor QueryPath View : Type}.

(** [ToBoltVertex], [ToBoltEdge] and [ToBoltPath] read the graph through the
    accessors; [ToBoltValue] only calls them. *)
Variable ToBoltVertex : VertexAccessor -> View -> Vertex.
Variable ToBoltEdge : EdgeAccessor -> View -> Edge.
Variable ToBoltPath : QueryPath -> View -> Path.

Local Notation "'BoltValue'" :=
  (@Value double Vertex Edge UnboundedEdge Path) (only parsing).

(** [query::TypedValue], with the types that [ToBoltValue] switches on. *)
Inductive TypedValue :=
  | TNull
  | TBool (b : bool)
  | TInt (i : Z)
  | TDouble (d : double)
  | TString (s : string)
  | TList (l : list TypedValue)
  | TMap (m : gmap string TypedValue)
  | TVertex (v : VertexAccessor)
  | TEdge (e : EdgeAccessor)
  | TPath (p : QueryPath).

(** [query::TypedValue ToTypedValue(const Value &value)]. *)
Fixpoint ToTypedValue (value : BoltValue) : result ValueException TypedValue :=
  match value with
  | VNull => Ok TNull
  | VBool b => Ok (TBool b)
  | VInt i => Ok (TInt i)
  | VDouble d => Ok (TDouble d)
  | VString s => Ok (TString s)
  | VList l => list ← convert_all ToTypedValue l; Ok (TList list)
  | VMap m =>
      map ← map_fold (fun k v (acc : result ValueException _) =>
                        map ← acc; tv ← ToTypedValue v;
                        Ok (emplace k tv map))
                     (Ok ∅) m;
      Ok (TMap map)
  | VVertex _ | VEdge _ | VUnboundedEdge _ | VPath _ =>
      Err UnsupportedConversion
  end.

(** [Value ToBoltValue(const query::TypedValue &value, storage::View view)],
    the variant without [MG_SINGLE_NODE_V2]. *)
Fixpoint ToBoltValue_TypedValue (value : TypedValue) (view : View)
  : BoltValue :=
  match value with
  | TNull => VNull
  | TBool b => VBool b
  | TInt i => VInt i
  | TDouble d => VDouble d
  | TString s => VString s
  | TList l => VList (map (fun v => ToBoltValue_TypedValue v view) l)
  | TMap m =>
      VMap (map_fold
              (fun k v map => emplace k (ToBoltValue_TypedValue v view) map)
              ∅ m)
  | TVertex v => VVertex (ToBoltVertex v view)
  | TEdge e => VEdge (ToBoltEdge e view)
  | TPath p => VPath (ToBoltPath p view)
  end.

(** The query values that hold no vertex, edge or path at any depth. *)
Fixpoint plain (value : TypedValue) : bool :=
  match value with
  | TNull | TBool _ | TInt _ | TDouble _ | TString _ => true
  | TList l => forallb plain l
  | TMap m => map_fold (fun _ v acc => plain v && acc) true m
  | TVertex _ | TEdge _ | TPath _ => false
  end.

Fixpoint TypedValue_size (value : TypedValue) : nat :=
  match value with
  | TList l => S (foldr (fun v acc => TypedValue_size v + acc)%nat O l)
  | TMap m => S (map_fold (fun _ v acc => TypedValue_size v + acc)%nat O m)
  | _ => 1
  end.

(** The query value that a supported Bolt value converts to. *)
Definition typed (value : BoltValue) : TypedValue :=
  match ToTypedValue value with
  | Ok tv => tv
  | Err _ => TNull
  end.

Lemma ToTypedValue_VList l :
  ToTypedValue (VList l)
  = (list ← convert_all ToTypedValue l; Ok (TList list)).
Proof. reflexivity. Qed.

Lemma ToTypedValue_VMap m :
  ToTypedValue (VMap m)
  = (map ← map_fold (fun k v (acc : result ValueException _) =>
                       map ← acc; tv ← ToTypedValue v;
                       Ok (emplace k tv map)) (Ok ∅) m;
     Ok (TMap map)).
Proof. reflexivity. Qed.

Lemma ToBoltValue_TypedValue_TList l view :
  ToBoltValue_TypedValue (TList l) view
  = VList (map (fun v => ToBoltValue_TypedValue v view) l).
Proof. reflexivity. Qed.

Lemma ToBoltValue_TypedValue_TMap m view :
  ToBoltValue_TypedValue (TMap m) view
  = VMap ((fun v => ToBoltValue_TypedValue v view) <$> m).
Proof.
  change (ToBoltValue_TypedValue (TMap m) view)
    with (VMap (map_fold
                  (fun k v map =>
                     emplace k (ToBoltValue_TypedValue v view) map) ∅ m)
          : BoltValue).
  by rewrite (map_fold_emplace (fun v => ToBoltValue_TypedValue v view)).
Qed.

Lemma plain_TList l : plain (TList l) = forallb plain l.
Proof. reflexivity. Qed.

Lemma plain_TMap m :
  plain (TMap m) = map_fold (fun _ v acc => plain v && acc) true m.
Proof. reflexivity. Qed.

Lemma TypedValue_size_TList l :
  TypedValue_size (TList l)
  = S (foldr (fun v acc => TypedValue_size v + acc)%nat O l).
Proof. reflexivity. Qed.

Lemma TypedValue_size_TMap m :
  TypedValue_size (TMap m)
  = S (map_fold (fun _ v acc => TypedValue_size v + acc)%nat O m).
Proof. reflexivity. Qed.

Lemma typed_round_trip_sized (n : nat) : forall value : BoltValue,
  (Value_size value < n)%nat -> supported value = true ->
  ToTypedValue value = Ok (typed value) /\
  plain (typed value) = true /\
  forall view, ToBoltValue_TypedValue (typed value) view = value.
Proof.
  induction n as [|n IH]; intros value Hsize Hsup; [lia|].
  destruct value as [|b|i|d|s|l|m|v|e|e|p]; try done.
  - rewrite supported_VList in Hsup. rewrite Value_size_VList in Hsize.
    assert (Helem : forall v, v ∈ l ->
              ToTypedValue v = Ok (typed v) /\
              plain (typed v) = true /\
              forall view, ToBoltValue_TypedValue (typed v) view = v).
    { intros v Hv. apply IH.
      - pose proof (foldr_sum_le Value_size l v Hv). lia.
      - rewrite forallb_forall in Hsup. apply Hsup. by apply list_elem_of_In. }
    assert (Hconv : ToTypedValue (VList l) = Ok (TList (map typed l))).
    { rewrite ToTypedValue_VList.
      rewrite (convert_all_map ToTypedValue typed)
        by (intros v Hv; by apply Helem).
      done. }
    unfold typed at 1 2 3. rewrite Hconv. split; [done|]. split.
    + rewrite plain_TList. apply forallb_forall. intros tv Htv.
      apply in_map_iff in Htv as (v & <- & Hv).
      apply Helem. by apply list_elem_of_In.
    + intros view. rewrite ToBoltValue_TypedValue_TList. f_equal.
      rewrite map_map. rewrite <- (map_id l) at 2. apply map_ext_in.
      intros v Hv. apply Helem. by apply list_elem_of_In.
  - rewrite supported_VMap in Hsup. rewrite Value_size_VMap in Hsize.
    assert (Helem : forall k v, m !! k = Some v ->
              ToTypedValue v = Ok (typed v) /\
              plain (typed v) = true /\
              forall view, ToBoltValue_TypedValue (typed v) view = v).
    { intros k v Hk. apply IH.
      - pose proof (map_fold_sum_le Value_size m k v Hk). lia.
      - by apply (map_fold_andb supported m Hsup k). }
    assert (Hconv : ToTypedValue (VMap m) = Ok (TMap (typed <$> m))).
    { rewrite ToTypedValue_VMap.
      rewrite (map_fold_emplace_result ToTypedValue typed)
        by (intros k v Hk; by apply (Helem k)).
      done. }
    unfold typed at 1 2 3. rewrite Hconv. split; [done|]. split.
    + rewrite plain_TMap. apply map_fold_andb_true.
      intros k tv Hk. rewrite lookup_fmap in Hk.
      destruct (m !! k) as [v|] eqn:Hv; [|done]. injection Hk as <-.
      by apply (Helem k).
    + intros view. rewrite ToBoltValue_TypedValue_TMap. f_equal.
      apply map_eq. intros k. rewrite !lookup_fmap.
      destruct (m !! k) as [v|] eqn:Hk; [|done]. cbn.
      f_equal. by apply (Helem k).
Qed.

Lemma typed_unsupported_sized (n : nat) : forall value : BoltValue,
  (Value_size value < n)%nat -> supported value = false ->
  ToTypedValue value = Err UnsupportedConversion.
Proof.
  induction n as [|n IH]; intros value Hsize Hsup; [lia|].
  destruct value as [|b|i|d|s|l|m|v|e|e|p]; try done.
  - rewrite supported_VList in Hsup. rewrite Value_size_VList in Hsize.
    rewrite ToTypedValue_VList.
    rewrite convert_all_fails; [done|].
    assert (Hex : exists x, In x l /\ supported x = false).
    { clear -Hsup. induction l as [|x l IHl]; [done|].
      cbn [forallb] in Hsup. apply andb_false_iff in Hsup as [Hx|Hl].
      - exists x. split; [by left|done].
      - destruct (IHl Hl) as (y & Hy & Hys). exists y. split; [by right|done]. }
    destruct Hex as (x & Hin & Hx). apply list_elem_of_In in Hin.
    exists x. split; [done|]. apply IH; [|done].
    pose proof (foldr_sum_le Value_size l x Hin). lia.
  - rewrite supported_VMap in Hsup. rewrite Value_size_VMap in Hsize.
    rewrite ToTypedValue_VMap.
    rewrite map_fold_emplace_fails; [done|].
    destruct (map_fold_andb_false supported m Hsup) as (k & v & Hk & Hv).
    exists k, v. split; [done|]. apply IH; [|done].
    pose proof (map_fold_sum_le Value_size m k v Hk). lia.
Qed.

(** A Bolt value that holds no vertex, edge, unbounded edge or path at any
    depth converts to a query value that holds no graph element, and
    [ToBoltValue] gives the Bolt value back under every view; on every other
    Bolt value [ToTypedValue] raises. *)
Theorem bolt_typed_round_trip (value : BoltValue) :
  if supported value
  then exists tv, ToTypedValue value = Ok tv /\ plain tv = true /\
                  forall view, ToBoltValue_TypedValue tv view = value
  else ToTypedValue value = Err UnsupportedConversion.
Proof.
  destruct (supported value) eqn:Hsup.
  - exists (typed value).
    by apply (typed_round_trip_sized (S (Value_size value))); [lia|].
  - by apply (typed_unsupported_sized (S (Value_size value))); [lia|].
Qed.

Lemma plain_round_trip_sized (n : nat) : forall (value : TypedValue) view,
  (TypedValue_size value < n)%nat -> plain value = true ->
  ToTypedValue (ToBoltValue_TypedValue value view) = Ok value.
Proof.
  induction n as [|n IH]; intros value view Hsize Hplain; [lia|].
  destruct value as [|b|i|d|s|l|m|v|e|p]; try done.
  - rewrite plain_TList in Hplain. rewrite TypedValue_size_TList in Hsize.
    rewrite ToBoltValue_TypedValue_TList, ToTypedValue_VList.
    rewrite (convert_all_inverse ToTypedValue
               (fun v => ToBoltValue_TypedValue v view)); [done|].
    intros v Hv. apply IH.
    + pose proof (foldr_sum_le TypedValue_size l v Hv). lia.
    + rewrite forallb_forall in Hplain. apply Hplain.
      by apply list_elem_of_In.
  - rewrite plain_TMap in Hplain. rewrite TypedValue_size_TMap in Hsize.
    assert (Helem : forall k v, m !! k = Some v ->
              ToTypedValue (ToBoltValue_TypedValue v view) = Ok v).
    { intros k v Hk. apply IH.
      - pose proof (map_fold_sum_le TypedValue_size m k v Hk). lia.
      - by apply (map_fold_andb plain m Hplain k). }
    rewrite ToBoltValue_TypedValue_TMap, ToTypedValue_VMap.
    rewrite (map_fold_emplace_result ToTypedValue typed); cycle 1.
    { intros k v Hk. rewrite lookup_fmap in Hk.
      destruct (m !! k) as [tv|] eqn:Htv; [|done]. injection Hk as <-.
      unfold typed. by rewrite (Helem k tv Htv). }
    cbn [mbind result_bind]. do 2 f_equal.
    apply map_eq. intros k. rewrite !lookup_fmap.
    destruct (m !! k) as [tv|] eqn:Htv; [|done]. cbn. f_equal.
    unfold typed. by rewrite (Helem k tv Htv).
Qed.

(** A query value that holds no vertex, edge or path at any depth survives
    the conversion to a Bolt value, under any view, and back. *)
Theorem typed_bolt_round_trip (value : TypedValue) (view : View) :
  plain value = true ->
  ToTypedValue (ToBoltValue_TypedValue value view) = Ok value.
Proof.
  intros Hplain.
  by apply (plain_round_trip_sized (S (TypedValue_size value))); [lia|].
Qed.

End TypedValues.

Lemma typed_bolt_round_trip_witness :
  let value : @TypedValue Z unit unit unit :=
    TMap {[ "name"%string := TString "Ann";
            "tags"%string := TList [TInt 1; TNull; TDouble 2; TBool true] ]} in
  ToTypedValue
    (ToBoltValue_TypedValue (fun _ _ => tt) (fun _ _ => tt) (fun _ _ => tt)
       value tt : @Value Z unit unit unit unit)
  = Ok value.
Proof.
  intros value. apply typed_bolt_round_trip. vm_compute. reflexivity.
Defined.

End glue.

Module query.

(** What stops a call: [MG_ASSERT] aborts; reading a vector outside its
    elements is undefined and stands as a fault of its own. *)
Inductive ParametersFault :=
  | AssertionFailed
  | OutOfBounds.

(** [static_cast<int>(x)] of a [size_t]: the low 32 bits, read as signed. *)
Definition static_cast_int (x : Z) : Z := (x + 2 ^ 31) mod 2 ^ 32 - 2 ^ 31.

Section Parameters.

(** [storage::PropertyValue]; the container only stores and returns it. *)
Context {PropertyValue : Type}.

(** [struct Parameters], a [std::vector<std::pair<int, PropertyValue>>]. *)
Record Parameters := mkParameters {
  storage_ : list (Z * PropertyValue)
}.

Definition Parameters_new : Parameters := {| storage_ := [] |}.

(** [void Add(int position, const PropertyValue &value)]. *)
Definition Add (position : Z) (value : PropertyValue) (p : Parameters)
  : Parameters :=
  {| storage_ := storage_ p ++ [(position, value)] |}.

(** [const PropertyValue &AtTokenPosition(int position) const]. *)
Definition AtTokenPosition (position : Z) (p : Parameters)
  : result ParametersFault PropertyValue :=
  match find (fun a => a.1 =? position) (storage_ p) with
  | Some found => Ok found.2
  | None => Err AssertionFailed
  end.

(** [const std::pair<int, PropertyValue> &At(int position) const]; the index
    of [storage_[position]] is the position converted to [size_t]. *)
Definition At (position : Z) (p : Parameters)
  : result ParametersFault (Z * PropertyValue) :=
  if negb (position <? static_cast_int (len (storage_ p)))
  then Err AssertionFailed
  else
    match storage_ p !! Z.to_nat (wrap64 position) with
    | Some entry => Ok entry
    | None => Err OutOfBounds
    end.

(** [auto size() const]. *)
Definition size (p : Parameters) : Z := len (storage_ p).

(** *** Facts *)

Lemma static_cast_int_small x : 0 <= x < 2 ^ 31 -> static_cast_int x = x.
Proof.
  intros Hx. unfold static_cast_int. rewrite Z.mod_small by lia. lia.
Qed.

Lemma find_snoc {A} (f : A -> bool) (l : list A) (x : A) :
  find f (l ++ [x])
  = match find f l with
    | Some y => Some y
    | None => if f x then Some x else None
    end.
Proof.
  induction l as [|y l IH]; cbn [app find]; [done|].
  by destruct (f y).
Qed.

(** A token position keeps the value of its first [Add]: adding a value
    makes its position answer with that value only when the position had
    none, and no other position's answer changes. *)
Theorem AtTokenPosition_Add (position position' : Z) (value : PropertyValue)
    (p : Parameters) :
  AtTokenPosition position' (Add position value p)
  = match AtTokenPosition position' p with
    | Ok first => Ok first
    | Err _ => if decide (position' = position) then Ok value
               else Err AssertionFailed
    end.
Proof.
  unfold AtTokenPosition, Add. cbn [storage_]. rewrite find_snoc.
  destruct (find _ (storage_ p)); [done|]. cbn [fst snd].
  case_decide as Heq.
  - subst. by rewrite Z.eqb_refl.
  - assert ((position =? position') = false) as -> by lia. done.
Qed.

(** [AtTokenPosition] fails its assertion exactly for the token positions
    that were never added; for the others it returns a value that was added
    under that position. *)
Theorem AtTokenPosition_present (position : Z) (p : Parameters) :
  (AtTokenPosition position p = Err AssertionFailed <->
   position ∉ (storage_ p).*1) /\
  (forall value, AtTokenPosition position p = Ok value ->
     (position, value) ∈ storage_ p).
Proof.
  unfold AtTokenPosition.
  destruct (find _ (storage_ p)) as [[pos v]|] eqn:Hfind.
  - apply find_some in Hfind as [Hin Heq]. cbn [fst] in Heq.
    assert (pos = position) as -> by lia.
    apply list_elem_of_In in Hin. split.
    + split; [done|]. intros Hnot. exfalso. apply Hnot.
      apply list_elem_of_fmap. by exists (position, v).
    + intros value [= <-]. done.
  - split; [|done]. split; [|done]. intros _ Hin.
    apply list_elem_of_fmap in Hin as ([pos v] & -> & Hin).
    apply list_elem_of_In in Hin.
    pose proof (find_none _ _ Hfind _ Hin) as Hneq. cbn [fst] in Hneq. lia.
Qed.

(** [At] returns the pairs in the order of their [Add]: the pair added last
    is at index [size() - 1], and the pairs added before keep their index. *)
Theorem At_Add (position : Z) (value : PropertyValue) (p : Parameters)
    (i : Z) :
  size p < 2 ^ 31 - 1 -> 0 <= i <= size p ->
  size (Add position value p) = size p + 1 /\
  At i (Add position value p)
  = if decide (i = size p) then Ok (position, value) else At i p.
Proof.
  unfold size, At, Add. cbn [storage_]. intros Hsize Hi.
  rewrite len_app. change (len [(position, value)]) with 1.
  split; [done|].
  pose proof (len_nonneg (storage_ p)) as Hnn.
  rewrite !static_cast_int_small by lia.
  rewrite wrap64_small by lia.
  assert ((i <? len (storage_ p) + 1) = true) as -> by lia. cbn [negb].
  case_decide as Heq.
  - subst i. unfold len. rewrite Nat2Z.id.
    by rewrite list_lookup_middle.
  - assert ((i <? len (storage_ p)) = true) as -> by lia. cbn [negb].
    rewrite lookup_app_l by (unfold len in *; lia). done.
Qed.

(** [At] fails its assertion for every position from [size()] on, and
    returns a pair for every position from 0 to [size() - 1]; the token
    position of that pair can be looked up. *)
Theorem At_bounds (p : Parameters) (i : Z) :
  size p < 2 ^ 31 -> 0 <= i < 2 ^ 31 ->
  (size p <= i -> At i p = Err AssertionFailed) /\
  (i < size p ->
   exists entry,
     At i p = Ok entry /\ storage_ p !! Z.to_nat i = Some entry /\
     exists first, AtTokenPosition entry.1 p = Ok first).
Proof.
  unfold size, At. intros Hsize Hi.
  pose proof (len_nonneg (storage_ p)) as Hnn.
  rewrite static_cast_int_small by lia. rewrite wrap64_small by lia.
  split; intros Hcmp.
  - by assert ((i <? len (storage_ p)) = false) as -> by lia.
  - assert ((i <? len (storage_ p)) = true) as -> by lia. cbn [negb].
    destruct (lookup_lt_is_Some_2 (storage_ p) (Z.to_nat i)) as [entry Hpair];
      [unfold len in *; lia|].
    rewrite Hpair. exists entry. split; [done|]. split; [done|].
    unfold AtTokenPosition.
    destruct (find _ (storage_ p)) as [found|] eqn:Hfind; [by eexists|].
    apply list_elem_of_lookup_2, list_elem_of_In in Hpair.
    pose proof (find_none _ _ Hfind _ Hpair) as Hneq. cbn in Hneq. lia.
Qed.

(** The assertion of [At] has no lower bound: for a negative position it
    does not fire, and the vector is indexed outside its elements. *)
Theorem At_negative (p : Parameters) (i : Z) :
  size p < 2 ^ 31 -> - 2 ^ 31 <= i < 0 -> At i p = Err OutOfBounds.
Proof.
  unfold size, At. intros Hsize Hi.
  pose proof (len_nonneg (storage_ p)) as Hnn.
  rewrite static_cast_int_small by lia.
  assert ((i <? len (storage_ p)) = true) as -> by lia. cbn [negb].
  assert (Hwrap : wrap64 i = 2 ^ 64 + i).
  { unfold wrap64. symmetry. apply (Z.mod_unique _ _ (-1)); lia. }
  rewrite Hwrap, lookup_ge_None_2; [done|]. unfold len in *. lia.
Qed.

End Parameters.

Lemma At_negative_witness :
  At (-1) (Add 7 "b"%string Parameters_new) = Err OutOfBounds.
Proof.
  apply At_negative; [unfold size, len; simpl; lia | lia].
Defined.

Lemma At_Add_witness :
  size (Add 7 "b"%string (Add 3 "a"%string Parameters_new)) = 2 /\
  At 1 (Add 7 "b"%string (Add 3 "a"%string Parameters_new))
    = Ok (7, "b"%string).
Proof.
  destruct (At_Add 7 "b"%string (Add 3 "a"%string Parameters_new) 1)
    as [Hsize Hat]; [unfold size, len; simpl; lia | unfold size, len; simpl; lia|].
  split; [exact Hsize | exact Hat].
Defined.

Lemma At_bounds_witness :
  At 2 (Add 7 "b"%string (Add 3 "a"%string Parameters_new))
    = Err AssertionFailed.
Proof.
  destruct (At_bounds (Add 7 "b"%string (Add 3 "a"%string Parameters_new)) 2)
    as [Hout _]; [unfold size, len; simpl; lia | lia |].
  apply Hout. unfold size, len. simpl. lia.
Defined.

End query.
